(** * quarto-record-demo: the preview lifecycle, the capture check and the CLI

    A shallow embedding of the TypeScript sources

      - [src/quarto.ts]  (startQuartoPreview, waitForQuartoServer,
                          stopQuartoPreview),
      - [src/capture.ts] (captureScreen, copyFile),
      - [src/utils.ts]   (ensureDir),
      - [src/cli.ts]     (parseArgs),
      - [src/main.ts]    (processItem, main),

    and the properties of them that the specification states.

    Conventions of the embedding.

      - A JavaScript string is a [string]: a sequence of code units below 256.
      - Everything outside the program text (the operating system, the
        collaborators behind [git.ts], [yaml.ts] and [getLastSelectionRect],
        the built-ins [Number], [String], [resolve], [basename]) is an [Env]:
        a record of functions from the history of the run so far to the
        answer the call gets.  The program is a function of its [Env]; every
        theorem quantifies over all of them.
      - An [async] function is a computation [M A]: it extends the trace of
        events it performs on the environment and either returns, throws,
        ends the process ([Deno.exit]) or never comes back.
      - Time is counted in milliseconds.  A promise that is awaited under
        [Promise.race] is a [Promise A]: settled at an instant, or pending
        for ever.
      - [console.log], [console.warn] and [console.error] only write
        diagnostics; no control flow depends on them and they are left out. *)

From Stdlib Require Import String Ascii List NArith ZArith QArith Bool Lia.
Import ListNotations.
Open Scope string_scope.
Open Scope N_scope.
Open Scope list_scope.

(** String concatenation, for template literals. *)
Notation "s +++ t" := (String.append s t) (at level 60, right associativity).

(* ================================================================== *)
(** ** JavaScript values *)

(** [new Error(message)] and the Deno error classes, told apart by [name]
    (the embedding of [instanceof]). *)
Record JsError := mkError { name : string; message : string }.

Definition Error_ (msg : string) : JsError :=
  {| name := "Error"; message := msg |}.

(** A JavaScript number, as far as the program looks at one. *)
Inductive JsNumber :=
| NaN
| PosInfinity
| NegInfinity
| Finite (q : Q).

Definition isNaN (n : JsNumber) : bool :=
  match n with NaN => true | _ => false end.

(** Truthiness of a [string | undefined]: [undefined] and the empty string
    are falsy. *)
Definition truthy (s : option string) : option string :=
  match s with
  | Some v => if (v =? "")%string then None else Some v
  | None => None
  end.

(* ------------------------------------------------------------------ *)
(** *** String built-ins *)

(** [s.startsWith(p)] is [String.prefix p s]. *)

(** [s.includes(needle)] *)
Fixpoint includes (needle s : string) : bool :=
  String.prefix needle s ||
  match s with
  | EmptyString => false
  | String _ s' => includes needle s'
  end.

(** The class [\s] on code units below 256. *)
Definition is_space (c : ascii) : bool :=
  let n := N_of_ascii c in
  (n =? 9) || (n =? 10) || (n =? 11) || (n =? 12) || (n =? 13) ||
  (n =? 32) || (n =? 160).

Fixpoint take_while (p : ascii -> bool) (s : string) : string :=
  match s with
  | EmptyString => EmptyString
  | String c s' => if p c then String c (take_while p s') else EmptyString
  end.

Fixpoint drop_while (p : ascii -> bool) (s : string) : string :=
  match s with
  | EmptyString => EmptyString
  | String c s' => if p c then drop_while p s' else s
  end.

Definition rev_string (s : string) : string :=
  string_of_list_ascii (rev (list_ascii_of_string s)).

(** [s.trim()] *)
Definition trim (s : string) : string :=
  rev_string (drop_while is_space (rev_string (drop_while is_space s))).

(** [Some rest] when [s = p +++ rest]. *)
Fixpoint drop_prefix (p s : string) : option string :=
  match p, s with
  | EmptyString, _ => Some s
  | String a p', String b s' =>
      if Ascii.eqb a b then drop_prefix p' s' else None
  | String _ _, EmptyString => None
  end.

(** The class [[^\/\s]]. *)
Definition url_char (c : ascii) : bool :=
  negb (Ascii.eqb c "/") && negb (is_space c).

(** The regular expression [/Listening on (http:\/\/[^\/\s]+)/] tried at the
    start of [s]; the result is capture group 1. *)
Definition listening_here (s : string) : option string :=
  match drop_prefix "Listening on http://" s with
  | Some rest =>
      let host := take_while url_char rest in
      if (host =? "")%string then None else Some ("http://" +++ host)
  | None => None
  end.

(** [text.match(/Listening on (http:\/\/[^\/\s]+)/)]: the leftmost match;
    [Some u] is a match whose group 1 is [u], [None] is [null]. *)
Fixpoint listeningMatch (text : string) : option string :=
  match listening_here text with
  | Some u => Some u
  | None =>
      match text with
      | EmptyString => None
      | String _ text' => listeningMatch text'
      end
  end.

(* ================================================================== *)
(** ** Promises in time *)

Inductive Promise (A : Type) :=
| Fulfilled (t : N) (v : A)
| Rejected (t : N) (e : JsError)
| Pending.
Arguments Fulfilled {A} t v.
Arguments Rejected {A} t e.
Arguments Pending {A}.

Definition settle_time {A} (p : Promise A) : option N :=
  match p with
  | Fulfilled t _ => Some t
  | Rejected t _ => Some t
  | Pending => None
  end.

(** [Promise.race([p, q])].  The earlier settlement wins.  When both settle
    in the same millisecond the order in which the event loop delivers them
    decides; [p_first] is that order. *)
Definition race {A} (p_first : bool) (p q : Promise A) : Promise A :=
  match settle_time p, settle_time q with
  | None, _ => q
  | Some _, None => p
  | Some tp, Some tq =>
      if tp <? tq then p
      else if tq <? tp then q
      else if p_first then p else q
  end.

(** [new Promise((_, reject) => setTimeout(() => reject(new Error(msg)), ms))] *)
Definition reject_after {A} (ms : N) (msg : string) : Promise A :=
  Rejected ms (Error_ msg).

(* ================================================================== *)
(** ** The readiness scan ([waitForQuartoServer], quarto.ts) *)

(** What [reader.read()] does once the chunks are used up: it reports
    [done] after [dt] ms, rejects after [dt] ms, or never resolves. *)
Inductive StreamEnd :=
| Done (dt : N)
| ReadFails (dt : N) (e : JsError)
| Never.

(** The decoded stderr of the child: each chunk with the delay since the
    previous read resolved. *)
Record Stream := { chunks : list (N * string); ending : StreamEnd }.

Definition settle_delay : N := 500.
Definition readiness_timeout : N := 60000.

Definition stream_ended_message : string :=
  "Quarto stderr stream ended before server was ready".
Definition readiness_timeout_message : string :=
  "Timed out waiting for Quarto preview server to start".

(** The [url] variable after a chunk has been looked at. *)
Definition record_url (url text : string) : string :=
  match listeningMatch text with
  | Some u => if (url =? "")%string then u else url
  | None => url
  end.

(** The [while (true)] loop of [processStderr], at instant [now] with the
    variable [url]. *)
Fixpoint processStderr_loop (url : string) (now : N)
    (cs : list (N * string)) (e : StreamEnd) : Promise string :=
  match cs with
  | [] =>
      match e with
      | Done dt => Rejected (now + dt) (Error_ stream_ended_message)
      | ReadFails dt err => Rejected (now + dt) err
      | Never => Pending
      end
  | (dt, text) :: rest =>
      let now := now + dt in
      let url := record_url url text in
      if includes "GET:" text && negb (url =? "")%string then
        Fulfilled (now + settle_delay) url
      else processStderr_loop url now rest e
  end.

Definition processStderr (s : Stream) : Promise string :=
  processStderr_loop "" 0 (chunks s) (ending s).

(** [logStdout] is started and not awaited; it reads stdout to log it and
    catches its own errors, so the result is the race alone.  [scan_first]
    is the order of delivery should the scan and the timer settle in the
    same millisecond. *)
Definition waitForQuartoServer (scan_first : bool) (s : Stream)
  : Promise string :=
  race scan_first (processStderr s)
       (reject_after readiness_timeout readiness_timeout_message).

(* ================================================================== *)
(** ** The world outside the program *)

Inductive Signal := SIGTERM | SIGKILL.

(** A [Deno.ChildProcess]. *)
Record Process := { pid : N }.

(** [QuartoPreviewResult] (quarto.ts). *)
Record QuartoPreviewResult := { process : Process; url : string }.

(** The result of [command.output()]. *)
Record CommandOutput := { success : bool; stdout : string }.

(** The result of [Deno.stat]. *)
Record FileInfo := { size : N }.

(** [ScreenRect] and [GitCommit] (types.ts). *)
Record ScreenRect := { x : JsNumber; y : JsNumber; width : JsNumber; height : JsNumber }.
Record GitCommit := { hash : string; commit_message : string; author : string; date : string }.

(** What the program does to its environment, in the order it does it. *)
Inductive Event :=
| PermissionQuery (perm : string)                  (* Deno.permissions.query *)
| GetLastSelectionRect                              (* utils.ts *)
| GetProfilesFromGroup (inputDir : string) (groupIndex : JsNumber) (* yaml.ts *)
| GetGitHistory (inputDir : string) (startCommit : option string)  (* git.ts *)
| CheckoutCommit (inputDir : string) (commitHash : string)         (* git.ts *)
| Mkdir (dir : string)                              (* Deno.mkdir, recursive *)
| Spawn (cmd : string) (args : list string)         (* Deno.Command.spawn() *)
| Run (cmd : string) (args : list string)           (* await Deno.Command.output() *)
| Kill (p : Process) (sig : Signal)                 (* process.kill(sig) *)
| Wait (ms : N)                                     (* time spent in an await *)
| Stat (path : string)                              (* Deno.stat *)
| CopyFile (src : string) (dst : string).           (* Deno.copyFile *)

Definition Trace := list Event.

(** The answers of the environment.  Each one is asked with the trace up to
    and including the call it answers.  A call to the operating system
    comes back, with a result or with a throw; what can stay pending for
    ever are the two promises that the program races against a timer, the
    reads of the child's stderr and its exit status. *)
Record Env := {
  (* built-ins *)
  js_Number : string -> JsNumber;
  js_String : JsNumber -> string;
  path_resolve : string -> string;
  path_basename : string -> string;
  race_tie : Trace -> bool;
  (* operating system; [inl e] and [Some e] are a throw of [e] *)
  permissions_query : Trace -> option JsError;
  mkdir : Trace -> option JsError;
  spawn : Trace -> JsError + Process;
  stderr_of : Trace -> Stream;
  status_of : Trace -> Promise unit;
  kill : Trace -> option JsError;
  output : Trace -> JsError + CommandOutput;
  stat : Trace -> JsError + FileInfo;
  copy_file : Trace -> option JsError;
  (* collaborators, at their interface *)
  last_selection_rect : Trace -> JsError + ScreenRect;
  profiles_from_group : Trace -> JsError + list string;
  git_history : Trace -> JsError + list GitCommit;
  checkout_commit : Trace -> option JsError
}.

(* ================================================================== *)
(** ** Computations *)

Inductive Outcome (A : Type) :=
| Returned (a : A)
| Thrown (e : JsError)
| Exited (code : N)      (* Deno.exit(code) *)
| Hung.                  (* an await that never resumes *)
Arguments Returned {A} a.
Arguments Thrown {A} e.
Arguments Exited {A} code.
Arguments Hung {A}.

Definition M (A : Type) := Trace -> Trace * Outcome A.

Definition ret {A} (a : A) : M A := fun tr => (tr, Returned a).

Definition bind {A B} (m : M A) (f : A -> M B) : M B :=
  fun tr =>
    match m tr with
    | (tr', Returned a) => f a tr'
    | (tr', Thrown e) => (tr', Thrown e)
    | (tr', Exited c) => (tr', Exited c)
    | (tr', Hung) => (tr', Hung)
    end.

Definition throw {A} (e : JsError) : M A := fun tr => (tr, Thrown e).

Definition exit {A} (code : N) : M A := fun tr => (tr, Exited code).

(** [try { m } catch (e) { h e }] *)
Definition try_catch {A} (m : M A) (h : JsError -> M A) : M A :=
  fun tr =>
    match m tr with
    | (tr', Thrown e) => h e tr'
    | r => r
    end.

Declare Scope m_scope.
Delimit Scope m_scope with M.
Notation "x <- m ;; k" := (bind m (fun x => k))
  (at level 100, m at next level, right associativity) : m_scope.
Notation "m ;; k" := (bind m (fun _ => k))
  (at level 100, right associativity) : m_scope.
Open Scope m_scope.

(** A call that can throw: the event, then the environment's answer. *)
Definition call {A} (ev : Event) (answer : Trace -> JsError + A) : M A :=
  fun tr =>
    let tr' := tr ++ [ev] in
    match answer tr' with
    | inl e => (tr', Thrown e)
    | inr a => (tr', Returned a)
    end.

Definition call_void (ev : Event) (answer : Trace -> option JsError) : M unit :=
  call ev (fun tr => match answer tr with Some e => inl e | None => inr tt end).

(** [await p] *)
Definition await {A} (p : Promise A) : M A :=
  fun tr =>
    match p with
    | Fulfilled t v => (tr ++ [Wait t], Returned v)
    | Rejected t e => (tr ++ [Wait t], Thrown e)
    | Pending => (tr, Hung)
    end.

(** [await new Promise(resolve => setTimeout(resolve, ms))] *)
Definition sleep (ms : N) : M unit := await (Fulfilled ms tt).

(** Read something off the environment at the current trace. *)
Definition ask {A} (f : Trace -> A) : M A := fun tr => (tr, Returned (f tr)).

(** [for (let i = 0; i < l.length; i++) { await body(l[i]) }] *)
Fixpoint for_each {A} (body : A -> M unit) (l : list A) : M unit :=
  match l with
  | [] => ret tt
  | a :: l' => body a ;; for_each body l'
  end.

(* ================================================================== *)
(** ** The command line ([parseArgs], cli.ts) *)

(** [QuartoRecordOptions] (types.ts). *)
Record QuartoRecordOptions := {
  outputDir : string;
  inputDir : string;
  file : option string;
  startCommit : option string;
  copyFile_opt : option string;
  profileGroupIndex : option JsNumber
}.

(** The [let] variables of [parseArgs]. *)
Record ParseVars := {
  v_inputDir : string;
  v_file : option string;
  v_startCommit : option string;
  v_copyFile : option string;
  v_profileGroupIndex : option JsNumber
}.

Definition initial_vars : ParseVars :=
  {| v_inputDir := "."; v_file := None; v_startCommit := None;
     v_copyFile := None; v_profileGroupIndex := None |}.

Definition set_inputDir (v : ParseVars) (s : string) : ParseVars :=
  {| v_inputDir := s; v_file := v_file v; v_startCommit := v_startCommit v;
     v_copyFile := v_copyFile v; v_profileGroupIndex := v_profileGroupIndex v |}.
Definition set_file (v : ParseVars) (s : string) : ParseVars :=
  {| v_inputDir := v_inputDir v; v_file := Some s; v_startCommit := v_startCommit v;
     v_copyFile := v_copyFile v; v_profileGroupIndex := v_profileGroupIndex v |}.
Definition set_startCommit (v : ParseVars) (s : string) : ParseVars :=
  {| v_inputDir := v_inputDir v; v_file := v_file v; v_startCommit := Some s;
     v_copyFile := v_copyFile v; v_profileGroupIndex := v_profileGroupIndex v |}.
Definition set_copyFile (v : ParseVars) (s : string) : ParseVars :=
  {| v_inputDir := v_inputDir v; v_file := v_file v; v_startCommit := v_startCommit v;
     v_copyFile := Some s; v_profileGroupIndex := v_profileGroupIndex v |}.
Definition set_profileGroupIndex (v : ParseVars) (n : JsNumber) : ParseVars :=
  {| v_inputDir := v_inputDir v; v_file := v_file v; v_startCommit := v_startCommit v;
     v_copyFile := v_copyFile v; v_profileGroupIndex := Some n |}.

Definition usage_message : string :=
  "Usage: quarto-record-demo OUTPUT_DIR [--input INPUT_DIR] [--file FILE.qmd] [--start-commit COMMIT] [--copy-file FILE] [--profile-group [INDEX]]" +++ "

Modes (mutually exclusive):
  Default: Process Git commits from history
  --profile-group: Process profiles from _quarto.yml profile group".

Definition unknown_argument (arg : string) : JsError :=
  Error_ ("Unknown argument: " +++ arg).

Definition mutually_exclusive_message : string :=
  "--profile-group and --start-commit are mutually exclusive options".

(** The flags that take a value. *)
Definition value_flags : list string :=
  ["--input"; "--file"; "--start-commit"; "--copy-file"].

Section Cli.
Variable env : Env.

(** The [for (let i = 1; i < args.length; i++)] loop, on the arguments
    from index [i] on.  [rest'] is what follows [args[i]]; it is [[]]
    exactly when [i + 1 < args.length] fails, and [args[++i]] is its
    head. *)
Fixpoint parse_named (rest : list string) (v : ParseVars)
  : JsError + ParseVars :=
  match rest with
  | [] => inr v
  | arg :: rest' =>
      match rest' with
      | next :: rest'' =>
          if (arg =? "--input")%string then
            parse_named rest'' (set_inputDir v next)
          else if (arg =? "--file")%string then
            parse_named rest'' (set_file v next)
          else if (arg =? "--start-commit")%string then
            parse_named rest'' (set_startCommit v next)
          else if (arg =? "--copy-file")%string then
            parse_named rest'' (set_copyFile v next)
          else if (arg =? "--profile-group")%string then
            if negb (isNaN (js_Number env next))
               && negb (String.prefix "--" next)
            then parse_named rest'' (set_profileGroupIndex v (js_Number env next))
            else parse_named rest' (set_profileGroupIndex v (Finite 0))
          else inl (unknown_argument arg)
      | [] =>
          if (arg =? "--profile-group")%string then
            inr (set_profileGroupIndex v (Finite 0))
          else inl (unknown_argument arg)
      end
  end.

Definition parseArgs (args : list string) : JsError + QuartoRecordOptions :=
  match args with
  | [] => inl (Error_ usage_message)
  | outputDir :: named =>
      match parse_named named initial_vars with
      | inl e => inl e
      | inr v =>
          let absOutputDir := path_resolve env outputDir in
          let absInputDir := path_resolve env (v_inputDir v) in
          let absCopyFile :=
            match truthy (v_copyFile v) with
            | Some c => Some (path_resolve env c)
            | None => None
            end in
          match v_profileGroupIndex v, truthy (v_startCommit v) with
          | Some _, Some _ => inl (Error_ mutually_exclusive_message)
          | _, _ =>
              inr {| outputDir := absOutputDir;
                     inputDir := absInputDir;
                     file := v_file v;
                     startCommit := v_startCommit v;
                     copyFile_opt := absCopyFile;
                     profileGroupIndex := v_profileGroupIndex v |}
          end
      end
  end.

End Cli.


(* ================================================================== *)
(** ** The program *)

(** [ProcessItemOptions] (types.ts). *)
Record ProcessItemOptions := {
  itemId : string;
  itemDescription : string;
  item_outputDir : string;
  item_inputDir : string;
  item_file : option string;
  profile : option string;
  item_copyFile : option string;
  screenRect : ScreenRect
}.

Definition stop_timeout : N := 2000.
Definition sweep_pause : N := 500.

(** The pattern of the orphan sweep: the TypeScript literal
    ["deno.*quarto\\.ts preview"]. *)
Definition preview_pattern : string := "deno.*quarto\.ts preview".

Definition capture_failed_message : string :=
  "Screenshot capture failed - terminating process".
Definition copy_failed_message : string :=
  "File copy failed - terminating process".

Section Program.
Variable env : Env.

(* ---------------------------------------------------------------- *)
(** *** permissions.ts *)

Definition query_ok (perm : string) : M bool :=
  try_catch
    (call_void (PermissionQuery perm) (permissions_query env) ;; ret true)
    (fun _ => ret false).

Definition checkPermissions : M bool :=
  run <- query_ok "run" ;;
  if negb run then ret false else
  read <- query_ok "read" ;;
  if negb read then ret false else
  write <- query_ok "write" ;;
  if negb write then ret false else
  ret true.

(* ---------------------------------------------------------------- *)
(** *** utils.ts *)

Definition ensureDir (dir : string) : M unit :=
  try_catch
    (call_void (Mkdir dir) (mkdir env))
    (fun error =>
       if (name error =? "AlreadyExists")%string then ret tt
       else throw error).

Definition getLastSelectionRect : M ScreenRect :=
  call GetLastSelectionRect (last_selection_rect env).

(* ---------------------------------------------------------------- *)
(** *** yaml.ts and git.ts, at their interface *)

Definition getProfilesFromGroup (inputDir : string) (groupIndex : JsNumber)
  : M (list string) :=
  call (GetProfilesFromGroup inputDir groupIndex) (profiles_from_group env).

Definition getGitHistory (repoDir : string) (startCommit : option string)
  : M (list GitCommit) :=
  call (GetGitHistory repoDir startCommit) (git_history env).

Definition checkoutCommit (repoDir commitHash : string) : M unit :=
  call_void (CheckoutCommit repoDir commitHash) (checkout_commit env).

(* ---------------------------------------------------------------- *)
(** *** quarto.ts *)

Definition preview_args (file profile : option string) : list string :=
  ["preview"]
  ++ match truthy file with Some f => [f] | None => [] end
  ++ match truthy profile with Some p => ["--profile"; p] | None => [] end.

Definition startQuartoPreview (file profile : option string)
  : M QuartoPreviewResult :=
  process <- call (Spawn "quarto" (preview_args file profile)) (spawn env) ;;
  stderr <- ask (stderr_of env) ;;
  first <- ask (race_tie env) ;;
  url <- await (waitForQuartoServer first stderr) ;;
  ret {| process := process; url := url |}.

Definition run_command (cmd : string) (args : list string) : M CommandOutput :=
  call (Run cmd args) (output env).

Definition kill_process (p : Process) (sig : Signal) : M unit :=
  call_void (Kill p sig) (kill env).

(** Step 1: the process we know about. *)
Definition stop_known (process : Process) : M unit :=
  try_catch
    (kill_process process SIGTERM ;;
     statusPromise <- ask (status_of env) ;;
     first <- ask (race_tie env) ;;
     await (race first statusPromise
              (reject_after stop_timeout "Timeout waiting for process to exit")))
    (fun e =>
       try_catch (kill_process process SIGKILL) (fun innerE => ret tt)).

(** Step 2: orphaned processes running the preview. *)
Definition stop_orphans : M unit :=
  try_catch
    (run_command "pkill" ["-f"; preview_pattern] ;;
     sleep sweep_pause)
    (fun e => ret tt).

(** Step 3: verification. *)
Definition stop_verify : M unit :=
  try_catch
    (checkOutput <- run_command "pgrep" ["-f"; preview_pattern] ;;
     if success checkOutput then
       let remainingPids := trim (stdout checkOutput) in
       if negb (remainingPids =? "")%string then
         run_command "pkill" ["-9"; "-f"; preview_pattern] ;; ret tt
       else ret tt
     else ret tt)
    (fun e => ret tt).

(** [result] is a [QuartoPreviewResult] or, for the old API, the
    process itself. *)
Definition stopQuartoPreview (result : QuartoPreviewResult + Process)
  : M unit :=
  try_catch
    (let process :=
       match result with inl r => process r | inr p => p end in
     stop_known process ;;
     stop_orphans ;;
     stop_verify)
    (fun error => ret tt).

(* ---------------------------------------------------------------- *)
(** *** capture.ts *)

Definition rect_string (rect : ScreenRect) : string :=
  js_String env (x rect) +++ "," +++ js_String env (y rect) +++ ","
  +++ js_String env (width rect) +++ "," +++ js_String env (height rect).

Definition captureScreen (outputPath : string) (rect : ScreenRect) : M bool :=
  try_catch
    (let rectStr := rect_string rect in
     output <- run_command "screencapture" ["-x"; "-R"; rectStr; outputPath] ;;
     if negb (success output) then throw (Error_ "Screen capture failed")
     else
       try_catch
         (fileInfo <- call (Stat outputPath) (stat env) ;;
          if size fileInfo =? 0 then throw (Error_ "Screenshot file is empty")
          else ret true)
         (fun err => ret false))
    (fun error => ret false).

Definition copyFile (sourcePath destPath : string) : M bool :=
  try_catch
    (call_void (CopyFile sourcePath destPath) (copy_file env) ;; ret true)
    (fun error => ret false).

(* ---------------------------------------------------------------- *)
(** *** main.ts *)

Definition processItem (options : ProcessItemOptions) : M unit :=
  let itemOutputDir := item_outputDir options +++ "/" +++ itemId options in
  ensureDir itemOutputDir ;;
  quartoResult <- startQuartoPreview (item_file options) (profile options) ;;
  let screenshotPath := itemOutputDir +++ "/screenshot.png" in
  captureSuccess <- captureScreen screenshotPath (screenRect options) ;;
  (if captureSuccess then ret tt
   else throw (Error_ capture_failed_message)) ;;
  stopQuartoPreview (inl quartoResult) ;;
  match truthy (item_copyFile options) with
  | Some copy =>
      let destPath := itemOutputDir +++ "/" +++ path_basename env copy in
      copySuccess <- copyFile copy destPath ;;
      if copySuccess then ret tt
      else throw (Error_ copy_failed_message)
  | None => ret tt
  end.

Definition profile_item (options : QuartoRecordOptions) (rect : ScreenRect)
    (profile : string) : ProcessItemOptions :=
  {| itemId := profile;
     itemDescription := "profile " +++ profile;
     item_outputDir := outputDir options;
     item_inputDir := inputDir options;
     item_file := file options;
     profile := Some profile;
     item_copyFile := copyFile_opt options;
     screenRect := rect |}.

Definition commit_item (options : QuartoRecordOptions) (rect : ScreenRect)
    (commit : GitCommit) : ProcessItemOptions :=
  {| itemId := hash commit;
     itemDescription := "commit " +++ hash commit;
     item_outputDir := outputDir options;
     item_inputDir := inputDir options;
     item_file := file options;
     profile := None;
     item_copyFile := copyFile_opt options;
     screenRect := rect |}.

(** The two [for] loops of [main]. *)
Definition process_profiles (options : QuartoRecordOptions)
    (rect : ScreenRect) (profiles : list string) : M unit :=
  for_each (fun profile => processItem (profile_item options rect profile))
           profiles.

Definition process_commits (options : QuartoRecordOptions)
    (rect : ScreenRect) (commits : list GitCommit) : M unit :=
  for_each
    (fun commit =>
       checkoutCommit (inputDir options) (hash commit) ;;
       processItem (commit_item options rect commit))
    commits.

(** [args] is [Deno.args]. *)
Definition main (args : list string) : M unit :=
  try_catch
    (hasPermissions <- checkPermissions ;;
     (if negb hasPermissions then exit 1 else ret tt) ;;
     options <- (match parseArgs env args with
                 | inl e => throw e
                 | inr o => ret o
                 end) ;;
     screenRect <- getLastSelectionRect ;;
     match profileGroupIndex options with
     | Some index =>
         profiles <- getProfilesFromGroup (inputDir options) index ;;
         process_profiles options screenRect profiles
     | None =>
         commits <- getGitHistory (inputDir options) (startCommit options) ;;
         process_commits options screenRect commits
     end ;;
     exit 0)
    (fun error => exit 1).

End Program.

(* ================================================================== *)
(** ** Vocabulary of the statements *)

(** The chunk matches the listening announcement. *)
Definition announces (c : N * string) : bool :=
  match listeningMatch (snd c) with Some _ => true | None => false end.

(** The chunk contains the incoming-request marker. *)
Definition has_marker (c : N * string) : bool := includes "GET:" (snd c).

(** The instant at which the last chunk of [cs] has been read. *)
Definition elapsed (cs : list (N * string)) : N :=
  fold_right (fun c acc => fst c + acc) 0 cs.

(** From the first chunk that matches the announcement on, no chunk
    contains the request marker: reading [cs] never completes readiness. *)
Fixpoint marker_never_completes (cs : list (N * string)) : bool :=
  match cs with
  | [] => true
  | c :: cs' =>
      if announces c then negb (existsb has_marker (c :: cs'))
      else marker_never_completes cs'
  end.

(* ------------------------------------------------------------------ *)
(** *** Traces *)

(** The events of [stopQuartoPreview]: a signal to a process, or a sweep of
    the process table. *)
Definition is_stop_event (ev : Event) : bool :=
  match ev with
  | Kill _ _ => true
  | Run cmd _ => (cmd =? "pkill")%string || (cmd =? "pgrep")%string
  | _ => false
  end.

(** The process behind a handle of either shape. *)
Definition handle_process (result : QuartoPreviewResult + Process) : Process :=
  match result with inl r => process r | inr p => p end.

Definition is_permission_query (ev : Event) : bool :=
  match ev with PermissionQuery _ => true | _ => false end.

(** The three shapes of Step 1 on process [p]: the graceful signal could not
    be sent; the wait ended well within the bound; the wait failed (timer or
    status) and the forceful signal followed. *)
Definition step1_shape (p : Process) (s : Trace) : Prop :=
  s = [Kill p SIGTERM; Kill p SIGKILL]
  \/ exists t, t <= stop_timeout
       /\ (s = [Kill p SIGTERM; Wait t]
           \/ s = [Kill p SIGTERM; Wait t; Kill p SIGKILL]).

(** Step 2: the graceful sweep, and the pause when the sweep ran. *)
Definition step2_shape (s : Trace) : Prop :=
  s = [Run "pkill" ["-f"; preview_pattern]]
  \/ s = [Run "pkill" ["-f"; preview_pattern]; Wait sweep_pause].

(** Step 3: the search, and the forceful sweep when it found something. *)
Definition step3_shape (s : Trace) : Prop :=
  s = [Run "pgrep" ["-f"; preview_pattern]]
  \/ s = [Run "pgrep" ["-f"; preview_pattern];
          Run "pkill" ["-9"; "-f"; preview_pattern]].

(** The milestones of a preview's life in a trace: the preview process is
    spawned; its stop begins (the graceful signal to the known process);
    its stop reaches the verification search. *)
Inductive Mark := Started | StopRequested | StopVerified.

Definition mark_eqb (a b : Mark) : bool :=
  match a, b with
  | Started, Started | StopRequested, StopRequested
  | StopVerified, StopVerified => true
  | _, _ => false
  end.

Definition mark_of (ev : Event) : option Mark :=
  match ev with
  | Spawn cmd _ => if (cmd =? "quarto")%string then Some Started else None
  | Kill _ SIGTERM => Some StopRequested
  | Run cmd _ => if (cmd =? "pgrep")%string then Some StopVerified else None
  | _ => None
  end.

Fixpoint lifecycle (tr : Trace) : list Mark :=
  match tr with
  | [] => []
  | ev :: tr' =>
      match mark_of ev with
      | Some m => m :: lifecycle tr'
      | None => lifecycle tr'
      end
  end.

Definition count_mark (m : Mark) (ms : list Mark) : nat :=
  length (filter (mark_eqb m) ms).

(** [n] whole lives, one after the other. *)
Fixpoint cycles (n : nat) : list Mark :=
  match n with
  | O => []
  | S n' => Started :: StopRequested :: StopVerified :: cycles n'
  end.

(** The milestones one item leaves: a whole life when it returned; when it
    did not, nothing (the directory could not be made), a start alone (the
    preview did not become ready, or the capture failed), or a whole life
    (the copy failed). *)
Definition item_marks (out : Outcome unit) (ms : list Mark) : Prop :=
  match out with
  | Returned _ => ms = cycles 1
  | _ => ms = [] \/ ms = [Started] \/ ms = cycles 1
  end.

(** What a run over [n] items leaves in the trace: all [n] lives when it
    returned; otherwise [k] whole lives of the items before the failing one
    and at most the start of the next. *)
Definition run_marks (n : nat) (out : Outcome unit) (ms : list Mark) : Prop :=
  match out with
  | Returned _ => ms = cycles n
  | _ => exists k, (k <= n)%nat
           /\ (ms = cycles k \/ ((k < n)%nat /\ ms = cycles k ++ [Started]))
  end.

(* ------------------------------------------------------------------ *)
(** *** The claims that the code does not meet, as they are stated *)

(** C1 as stated: whenever the capture of an item fails, the stop of its
    preview is attempted (the graceful signal goes to the live handle). *)
Definition capture_failure_stops_preview (env : Env)
    (options : ProcessItemOptions) (tr : Trace) : Prop :=
  forall tr0 tr1 tr2 q,
    ensureDir env (item_outputDir options +++ "/" +++ itemId options) tr
      = (tr0, Returned tt) ->
    startQuartoPreview env (item_file options) (profile options) tr0
      = (tr1, Returned q) ->
    captureScreen env
      ((item_outputDir options +++ "/" +++ itemId options) +++ "/screenshot.png")
      (screenRect options) tr1 = (tr2, Returned false) ->
    In (Kill (process q) SIGTERM) (fst (processItem env options tr)).

(** C7 as stated: every run over [N] items starts [N] previews and stops
    [N] previews. *)
Definition run_starts_and_stops_all (env : Env)
    (options : QuartoRecordOptions) (rect : ScreenRect)
    (profiles : list string) : Prop :=
  let ms := lifecycle (fst (process_profiles env options rect profiles [])) in
  count_mark Started ms = length profiles
  /\ count_mark StopRequested ms = length profiles.

(** C8 as stated: a command line with both flags does not parse. *)
Definition both_modes_rejected (env : Env) (args : list string) : Prop :=
  In "--start-commit" args -> In "--profile-group" args ->
  exists e, parseArgs env args = inl e.

(** C10 as stated: a command line that ends in a value-taking flag is
    rejected as an unknown argument, that flag. *)
Definition trailing_flag_rejected (env : Env) (args : list string) : Prop :=
  forall flag, In flag value_flags -> last args "" = flag ->
    parseArgs env args = inl (unknown_argument flag).

(* ------------------------------------------------------------------ *)
(** *** Environments to run the program in *)

Definition last_event (tr : Trace) : option Event :=
  last (map Some tr) None.

Definition sample_rect : ScreenRect :=
  {| x := Finite 0; y := Finite 0; width := Finite 800; height := Finite 600 |}.

Definition sample_stream : Stream :=
  {| chunks := [(700, "GET: /stale");
                (900, "Watching files for changes
Browse at http://localhost:4321/
Listening on http://localhost:4321/");
                (400, "GET: /")];
     ending := Never |}.

(** Everything works: the preview announces itself and is requested, the
    process exits 30 ms after the graceful signal, the capture leaves a
    file of 4096 bytes, the sweeps find nothing. *)
Definition calm_env : Env :=
  {| js_Number := fun s => if (s =? "1")%string then Finite 1 else NaN;
     js_String := fun _ => "0";
     path_resolve := fun p => "/work/" +++ p;
     path_basename := fun p => p;
     race_tie := fun _ => true;
     permissions_query := fun _ => None;
     mkdir := fun _ => None;
     spawn := fun tr => inr {| pid := N.of_nat (length tr) |};
     stderr_of := fun _ => sample_stream;
     status_of := fun _ => Fulfilled 30 tt;
     kill := fun _ => None;
     output := fun _ => inr {| success := true; stdout := "" |};
     stat := fun _ => inr {| size := 4096 |};
     copy_file := fun _ => None;
     last_selection_rect := fun _ => inr sample_rect;
     profiles_from_group := fun _ => inr ["light"; "dark"];
     git_history := fun _ => inr [];
     checkout_commit := fun _ => None |}.

Definition with_output (f : Trace -> JsError + CommandOutput) (e : Env) : Env :=
  {| js_Number := js_Number e; js_String := js_String e;
     path_resolve := path_resolve e; path_basename := path_basename e;
     race_tie := race_tie e; permissions_query := permissions_query e;
     mkdir := mkdir e; spawn := spawn e; stderr_of := stderr_of e;
     status_of := status_of e; kill := kill e;
     output := f;
     stat := stat e; copy_file := copy_file e;
     last_selection_rect := last_selection_rect e;
     profiles_from_group := profiles_from_group e;
     git_history := git_history e; checkout_commit := checkout_commit e |}.

Definition with_stderr (f : Trace -> Stream) (e : Env) : Env :=
  {| js_Number := js_Number e; js_String := js_String e;
     path_resolve := path_resolve e; path_basename := path_basename e;
     race_tie := race_tie e; permissions_query := permissions_query e;
     mkdir := mkdir e; spawn := spawn e;
     stderr_of := f;
     status_of := status_of e; kill := kill e; output := output e;
     stat := stat e; copy_file := copy_file e;
     last_selection_rect := last_selection_rect e;
     profiles_from_group := profiles_from_group e;
     git_history := git_history e; checkout_commit := checkout_commit e |}.

Definition with_process (k : Trace -> option JsError)
    (st : Trace -> Promise unit) (e : Env) : Env :=
  {| js_Number := js_Number e; js_String := js_String e;
     path_resolve := path_resolve e; path_basename := path_basename e;
     race_tie := race_tie e; permissions_query := permissions_query e;
     mkdir := mkdir e; spawn := spawn e; stderr_of := stderr_of e;
     status_of := st; kill := k;
     output := output e;
     stat := stat e; copy_file := copy_file e;
     last_selection_rect := last_selection_rect e;
     profiles_from_group := profiles_from_group e;
     git_history := git_history e; checkout_commit := checkout_commit e |}.

(** The capture tool reports failure; everything else works. *)
Definition capture_failing_env : Env :=
  with_output
    (fun tr =>
       match last_event tr with
       | Some (Run "screencapture" _) => inr {| success := false; stdout := "" |}
       | _ => inr {| success := true; stdout := "" |}
       end)
    calm_env.

(** The preview never writes to stderr and never closes it. *)
Definition silent_env : Env :=
  with_stderr (fun _ => {| chunks := []; ending := Never |}) calm_env.

(** The process ignores the graceful signal. *)
Definition stubborn_env : Env :=
  with_process (fun _ => None) (fun _ => Pending) calm_env.

Definition sample_item : ProcessItemOptions :=
  {| itemId := "light";
     itemDescription := "profile light";
     item_outputDir := "/work/out";
     item_inputDir := "/work/site";
     item_file := Some "index.qmd";
     profile := Some "light";
     item_copyFile := None;
     screenRect := sample_rect |}.

Definition sample_options : QuartoRecordOptions :=
  {| outputDir := "/work/out";
     inputDir := "/work/site";
     file := Some "index.qmd";
     startCommit := None;
     copyFile_opt := None;
     profileGroupIndex := Some (Finite 0) |}.

(* ------------------------------------------------------------------ *)
(** *** Further vocabulary *)

(** Every character of [s] satisfies [p]. *)
Fixpoint string_forall (p : ascii -> bool) (s : string) : bool :=
  match s with
  | EmptyString => true
  | String c s' => p c && string_forall p s'
  end.


(** The processes that the trace sends a signal to. *)
Fixpoint signalled (tr : Trace) : list Process :=
  match tr with
  | [] => []
  | Kill p _ :: tr' => p :: signalled tr'
  | _ :: tr' => signalled tr'
  end.

(** The directory of an item, and what the item does in it. *)
Definition item_dir (o : ProcessItemOptions) : string :=
  item_outputDir o +++ "/" +++ itemId o.

Definition screenshot_path (o : ProcessItemOptions) : string :=
  item_dir o +++ "/screenshot.png".

Definition spawn_command (o : ProcessItemOptions) : Event :=
  Spawn "quarto" (preview_args (item_file o) (profile o)).

Definition capture_command (env : Env) (o : ProcessItemOptions) : Event :=
  Run "screencapture"
      ["-x"; "-R"; rect_string env (screenRect o); screenshot_path o].

Definition copy_command (env : Env) (o : ProcessItemOptions) (c : string)
  : Event :=
  CopyFile c (item_dir o +++ "/" +++ path_basename env c).

(** The events of one stop of process [p]. *)
Inductive stop_trace (p : Process) : Trace -> Prop :=
| stop_trace_steps (s1 s2 s3 : Trace) :
    step1_shape p s1 -> step2_shape s2 -> step3_shape s3 ->
    stop_trace p (s1 ++ s2 ++ s3).

(** The ways one item can go: what it did, and how it ended. *)
Inductive item_trace (env : Env) (o : ProcessItemOptions)
  : Trace -> Outcome unit -> Prop :=
| item_no_dir (e : JsError) :
    item_trace env o [Mkdir (item_dir o)] (Thrown e)
| item_no_spawn (e : JsError) :
    item_trace env o [Mkdir (item_dir o); spawn_command o] (Thrown e)
| item_not_ready (t : N) (e : JsError) :
    t <= readiness_timeout ->
    item_trace env o [Mkdir (item_dir o); spawn_command o; Wait t] (Thrown e)
| item_tool_failed (t : N) :
    settle_delay <= t <= readiness_timeout ->
    item_trace env o
      [Mkdir (item_dir o); spawn_command o; Wait t; capture_command env o]
      (Thrown (Error_ capture_failed_message))
| item_file_missing (t : N) :
    settle_delay <= t <= readiness_timeout ->
    item_trace env o
      [Mkdir (item_dir o); spawn_command o; Wait t; capture_command env o;
       Stat (screenshot_path o)]
      (Thrown (Error_ capture_failed_message))
| item_done (t : N) (p : Process) (s : Trace) :
    settle_delay <= t <= readiness_timeout ->
    stop_trace p s ->
    truthy (item_copyFile o) = None ->
    item_trace env o
      ([Mkdir (item_dir o); spawn_command o; Wait t; capture_command env o;
        Stat (screenshot_path o)] ++ s)
      (Returned tt)
| item_copied (t : N) (p : Process) (s : Trace) (c : string) :
    settle_delay <= t <= readiness_timeout ->
    stop_trace p s ->
    truthy (item_copyFile o) = Some c ->
    item_trace env o
      ([Mkdir (item_dir o); spawn_command o; Wait t; capture_command env o;
        Stat (screenshot_path o)] ++ s ++ [copy_command env o c])
      (Returned tt)
| item_copy_failed (t : N) (p : Process) (s : Trace) (c : string) :
    settle_delay <= t <= readiness_timeout ->
    stop_trace p s ->
    truthy (item_copyFile o) = Some c ->
    item_trace env o
      ([Mkdir (item_dir o); spawn_command o; Wait t; capture_command env o;
        Stat (screenshot_path o)] ++ s ++ [copy_command env o c])
      (Thrown (Error_ copy_failed_message)).

(** The computation came back: it returned or it threw. *)
Definition came_back {A} (out : Outcome A) : Prop :=
  match out with
  | Returned _ | Thrown _ => True
  | Exited _ | Hung => False
  end.

(** The place of an event of an item: its own directory for what it makes,
    writes and checks; no event of the run around it. *)
Definition within_item (env : Env) (o : ProcessItemOptions) (ev : Event)
  : Prop :=
  match ev with
  | Mkdir d => d = item_dir o
  | Stat p => p = screenshot_path o
  | CopyFile src dst =>
      truthy (item_copyFile o) = Some src
      /\ dst = item_dir o +++ "/" +++ path_basename env src
  | Spawn cmd args =>
      cmd = "quarto" /\ args = preview_args (item_file o) (profile o)
  | Run cmd args =>
      ev = capture_command env o \/ cmd = "pkill" \/ cmd = "pgrep"
  | Kill _ _ | Wait _ => True
  | PermissionQuery _ | GetLastSelectionRect | GetProfilesFromGroup _ _
  | GetGitHistory _ _ | CheckoutCommit _ _ => False
  end.

(** What [main] ends with, given how its loop ended. *)
Definition exit_of (out : Outcome unit) : Outcome unit :=
  match out with
  | Returned _ => Exited 0
  | Thrown _ => Exited 1
  | Exited c => Exited c
  | Hung => Hung
  end.

(** The steps of the workspace in a trace: the checkouts and the
    directories made, in their order. *)
Definition workspace_step (ev : Event) : list Event :=
  match ev with
  | CheckoutCommit _ _ | Mkdir _ => [ev]
  | _ => []
  end.

(** The region argument of the captures in a trace. *)
Definition capture_region (ev : Event) : list string :=
  match ev with
  | Run cmd args =>
      if (cmd =? "screencapture")%string then
        match nth_error args 2 with Some r => [r] | None => [] end
      else []
  | _ => []
  end.

Definition is_rect_query (ev : Event) : bool :=
  match ev with GetLastSelectionRect => true | _ => false end.

Definition is_git_event (ev : Event) : bool :=
  match ev with
  | GetGitHistory _ _ | CheckoutCommit _ _ => true
  | _ => false
  end.

Definition is_profile_query (ev : Event) : bool :=
  match ev with GetProfilesFromGroup _ _ => true | _ => false end.

(** The workspace steps of one whole item, in each mode. *)
Definition profile_steps (options : QuartoRecordOptions) (profile : string)
  : list Event :=
  [Mkdir (outputDir options +++ "/" +++ profile)].

Definition commit_steps (options : QuartoRecordOptions) (commit : GitCommit)
  : list Event :=
  [CheckoutCommit (inputDir options) (hash commit);
   Mkdir (outputDir options +++ "/" +++ hash commit)].

(* ------------------------------------------------------------------ *)
(** *** The options of the command line *)

(** An option as the user means it: a flag with its value, or the
    profile-group flag with or without an index. *)
Inductive CliOption :=
| OptInput (dir : string)
| OptFile (path : string)
| OptStartCommit (commit : string)
| OptCopyFile (path : string)
| OptProfileGroup (index : option string).

(** The arguments that spell an option. *)
Definition spell (op : CliOption) : list string :=
  match op with
  | OptInput dir => ["--input"; dir]
  | OptFile path => ["--file"; path]
  | OptStartCommit commit => ["--start-commit"; commit]
  | OptCopyFile path => ["--copy-file"; path]
  | OptProfileGroup (Some index) => ["--profile-group"; index]
  | OptProfileGroup None => ["--profile-group"]
  end.

(** An index is spelt well when [Number] makes a number of it and it does
    not start with [--]; a value can be any string. *)
Definition well_spelt (env : Env) (op : CliOption) : bool :=
  match op with
  | OptProfileGroup (Some index) =>
      negb (isNaN (js_Number env index)) && negb (String.prefix "--" index)
  | _ => true
  end.

(** What an option does to the variables of [parseArgs]. *)
Definition apply_option (env : Env) (v : ParseVars) (op : CliOption)
  : ParseVars :=
  match op with
  | OptInput dir => set_inputDir v dir
  | OptFile path => set_file v path
  | OptStartCommit commit => set_startCommit v commit
  | OptCopyFile path => set_copyFile v path
  | OptProfileGroup (Some index) =>
      set_profileGroupIndex v (js_Number env index)
  | OptProfileGroup None => set_profileGroupIndex v (Finite 0)
  end.

(** The options that [parseArgs] returns for the variables [v]. *)
Definition options_of (env : Env) (out : string) (v : ParseVars)
  : QuartoRecordOptions :=
  {| outputDir := path_resolve env out;
     inputDir := path_resolve env (v_inputDir v);
     file := v_file v;
     startCommit := v_startCommit v;
     copyFile_opt := option_map (path_resolve env) (truthy (v_copyFile v));
     profileGroupIndex := v_profileGroupIndex v |}.

(** Both modes are in effect. *)
Definition both_modes (v : ParseVars) : bool :=
  match v_profileGroupIndex v, truthy (v_startCommit v) with
  | Some _, Some _ => true
  | _, _ => false
  end.

Definition known_flags : list string :=
  ["--input"; "--file"; "--start-commit"; "--copy-file"; "--profile-group"].

(* ------------------------------------------------------------------ *)
(** *** More environments and inputs *)

(** The read permission is refused; everything else works. *)
Definition no_read_env : Env :=
  {| js_Number := js_Number calm_env; js_String := js_String calm_env;
     path_resolve := path_resolve calm_env;
     path_basename := path_basename calm_env;
     race_tie := race_tie calm_env;
     permissions_query :=
       (fun tr =>
          match last_event tr with
          | Some (PermissionQuery "read") =>
              Some (mkError "PermissionDenied" "read access is required")
          | _ => None
          end);
     mkdir := mkdir calm_env; spawn := spawn calm_env;
     stderr_of := stderr_of calm_env; status_of := status_of calm_env;
     kill := kill calm_env; output := output calm_env; stat := stat calm_env;
     copy_file := copy_file calm_env;
     last_selection_rect := last_selection_rect calm_env;
     profiles_from_group := profiles_from_group calm_env;
     git_history := git_history calm_env;
     checkout_commit := checkout_commit calm_env |}.

(** The history has two commits; everything works. *)
Definition history_env : Env :=
  {| js_Number := js_Number calm_env; js_String := js_String calm_env;
     path_resolve := path_resolve calm_env;
     path_basename := path_basename calm_env;
     race_tie := race_tie calm_env;
     permissions_query := permissions_query calm_env;
     mkdir := mkdir calm_env; spawn := spawn calm_env;
     stderr_of := stderr_of calm_env; status_of := status_of calm_env;
     kill := kill calm_env; output := output calm_env; stat := stat calm_env;
     copy_file := copy_file calm_env;
     last_selection_rect := last_selection_rect calm_env;
     profiles_from_group := profiles_from_group calm_env;
     git_history :=
       (fun _ =>
          inr [{| hash := "a1b2c3d"; commit_message := "first";
                  author := "Ann"; date := "Mon" |};
               {| hash := "e4f5a6b"; commit_message := "second";
                  author := "Ann"; date := "Tue" |}]);
     checkout_commit := checkout_commit calm_env |}.

(** The sample item, with a file to copy. *)
Definition sample_item_with_copy : ProcessItemOptions :=
  {| itemId := "light";
     itemDescription := "profile light";
     item_outputDir := "/work/out";
     item_inputDir := "/work/site";
     item_file := Some "index.qmd";
     profile := Some "light";
     item_copyFile := Some "/work/site/_brand.yml";
     screenRect := sample_rect |}.

(* ================================================================== *)
(** ** The selection rectangle ([getLastSelectionRect], utils.ts) *)

Module Utils.

(** The double quote. *)
Definition dquote : ascii := "034"%char.

(** The class [[0-9.]]. *)
Definition is_coord_char (c : ascii) : bool :=
  let n := N_of_ascii c in
  ((48 <=? n) && (n <=? 57)) || (n =? 46).

(** The optional quote of the pattern: taken when it is there. *)
Definition skip_quote (s : string) : string :=
  match s with
  | String c r => if Ascii.eqb c dquote then r else s
  | EmptyString => s
  end.

(** The regular expression [/KEY\s*=\s*"?([0-9.]+)"?/] tried at the start of
    [s]; the result is capture group 1.  No step of it can be matched in a
    second way, so the match is the greedy one. *)
Definition coord_here (key s : string) : option string :=
  match drop_prefix key s with
  | Some r1 =>
      match drop_while is_space r1 with
      | String c r2 =>
          if Ascii.eqb c "=" then
            let num :=
              take_while is_coord_char (skip_quote (drop_while is_space r2)) in
            if (num =? "")%string then None else Some num
          else None
      | EmptyString => None
      end
  | None => None
  end.

(** [text.match(/KEY\s*=\s*"?([0-9.]+)"?/)]: the leftmost match. *)
Fixpoint coordMatch (key text : string) : option string :=
  match coord_here key text with
  | Some num => Some num
  | None =>
      match text with
      | EmptyString => None
      | String _ text' => coordMatch key text'
      end
  end.

Definition defaults_read : Event :=
  Run "defaults" ["read"; "com.apple.screencapture"; "last-selection"].

Definition parse_failed_message : string :=
  "Failed to parse screen capture selection coordinates".

Definition selection_failed_prefix : string :=
  "Failed to get screen capture selection: ".

Section WithRuntime.
(** The built-in [parseFloat]. *)
Variable parseFloat : string -> JsNumber.
Variable env : Env.

Definition getLastSelectionRect : M ScreenRect :=
  try_catch
    (out <- call defaults_read (output env) ;;
     let output := trim (stdout out) in
     match coordMatch "X" output, coordMatch "Y" output,
           coordMatch "Width" output, coordMatch "Height" output with
     | Some xMatch, Some yMatch, Some widthMatch, Some heightMatch =>
         ret {| x := parseFloat xMatch;
                y := parseFloat yMatch;
                width := parseFloat widthMatch;
                height := parseFloat heightMatch |}
     | _, _, _, _ => throw (Error_ parse_failed_message)
     end)
    (fun error =>
       throw (Error_ (selection_failed_prefix +++ message error))).

End WithRuntime.

(** The text of one entry of the preference: the key, [=] with white space
    around it, the number with or without quotes. *)
Definition field (quoted : bool) (num : string) : string :=
  if quoted then String dquote (num +++ String dquote "") else num.

Definition entry (key ws1 ws2 : string) (quoted : bool) (num : string)
  : string :=
  key +++ ws1 +++ "=" +++ ws2 +++ field quoted num +++ ";".

(** The preference as [defaults read] prints it, on one line or on
    several: [opening], the four entries with [gap] between them,
    [closing]. *)
Definition selection_text (opening gap closing ws1 ws2 : string)
    (qh qw qx qy : bool) (h w x y : string) : string :=
  opening +++ entry "Height" ws1 ws2 qh h +++ gap
  +++ entry "Width" ws1 ws2 qw w +++ gap
  +++ entry "X" ws1 ws2 qx x +++ gap
  +++ entry "Y" ws1 ws2 qy y +++ closing.

(** No character of [s] is [c]. *)
Definition free_of (c : ascii) (s : string) : bool :=
  string_forall (fun a => negb (Ascii.eqb a c)) s.

(** No character of [s] starts a key. *)
Definition neutral (s : string) : bool :=
  free_of "H" s && free_of "W" s && free_of "X" s && free_of "Y" s.

(** A number as the pattern takes it. *)
Definition numeral (s : string) : bool :=
  negb (s =? "")%string && string_forall is_coord_char s.

End Utils.

(* ================================================================== *)
(** ** The profile groups ([getProfilesFromGroup], yaml.ts) *)

Module Yaml.

(** What the YAML [parse] gives.  [Other] is an object that is neither an
    array nor a plain object (a [Date] for a timestamp); it has no
    [profile] and no [group] property. *)
#[local] Unset Elimination Schemes.
Inductive Value :=
| Undefined
| Null
| Bool (b : bool)
| Num (n : JsNumber)
| Str (s : string)
| Seq (items : list Value)
| Map (entries : list (string * Value))
| Other (shown : string).
#[local] Set Elimination Schemes.

Fixpoint lookup {A} (key : string) (entries : list (string * A)) : option A :=
  match entries with
  | [] => None
  | (k, v) :: entries' =>
      if (k =? key)%string then Some v else lookup key entries'
  end.

(** [v.key] for a [v] that is neither [null] nor [undefined], and a [key]
    that no prototype defines ([profile] and [group] here). *)
Definition get (v : Value) (key : string) : Value :=
  match v with
  | Map entries =>
      match lookup key entries with
      | Some w => w
      | None => Undefined
      end
  | _ => Undefined
  end.

Definition nullish (v : Value) : bool :=
  match v with
  | Undefined | Null => true
  | _ => false
  end.

(** Truthiness. *)
Definition is_zero (n : JsNumber) : bool :=
  match n with
  | Finite q => Qeq_bool q 0
  | _ => false
  end.

Definition truthy_value (v : Value) : bool :=
  match v with
  | Undefined | Null => false
  | Bool b => b
  | Num n => negb (isNaN n) && negb (is_zero n)
  | Str s => negb (s =? "")%string
  | Seq _ | Map _ | Other _ => true
  end.

(** [groupIndex >= length] *)
Definition js_ge (n : JsNumber) (len : nat) : bool :=
  match n with
  | NaN => false
  | PosInfinity => true
  | NegInfinity => false
  | Finite q => Qle_bool (inject_Z (Z.of_nat len)) q
  end.

(** The array index a number names, when it is a natural number. *)
Definition as_index (q : Q) : option nat :=
  if ((0 <=? Qnum q)%Z && (Qnum q mod Zpos (Qden q) =? 0)%Z)%bool
  then Some (Z.to_nat (Qnum q / Zpos (Qden q)))
  else None.

(** [items[n]] *)
Definition get_index (items : list Value) (n : JsNumber) : Value :=
  match n with
  | Finite q =>
      match as_index q with
      | Some i => nth i items Undefined
      | None => Undefined
      end
  | _ => Undefined
  end.

(** [items.map(f)], with a callback that may throw. *)
Fixpoint map_result {A B} (f : A -> JsError + B) (l : list A)
  : JsError + list B :=
  match l with
  | [] => inr []
  | a :: l' =>
      match f a with
      | inl e => inl e
      | inr b =>
          match map_result f l' with
          | inl e => inl e
          | inr bs => inr (b :: bs)
          end
      end
  end.

Definition TypeError_ (msg : string) : JsError :=
  {| name := "TypeError"; message := msg |}.

Definition null_read_message (v : Value) : string :=
  match v with
  | Null => "Cannot read properties of null (reading 'profile')"
  | _ => "Cannot read properties of undefined (reading 'profile')"
  end.

(** [quartoConfig.profile?.group] *)
Definition profile_group (quartoConfig : Value) : JsError + Value :=
  if nullish quartoConfig then inl (TypeError_ (null_read_message quartoConfig))
  else
    let profile := get quartoConfig "profile" in
    if nullish profile then inr Undefined else inr (get profile "group").

Definition not_found_message : string :=
  "_quarto.yml file not found in the input directory".

Section WithRuntime.
(** [Deno.readTextFile] and the YAML [parse]. *)
Variable readTextFile : string -> JsError + string.
Variable parse : string -> JsError + Value.
(** [String(n)] for a number, and [String(v)] for an object. *)
Variable js_String : JsNumber -> string.
Variable object_String : Value -> JsError + string.

(** [String(v)] *)
Definition to_String (v : Value) : JsError + string :=
  match v with
  | Undefined => inr "undefined"
  | Null => inr "null"
  | Bool true => inr "true"
  | Bool false => inr "false"
  | Num n => inr (js_String n)
  | Str s => inr s
  | Seq _ | Map _ | Other _ => object_String v
  end.

Definition out_of_range_message (groupIndex : JsNumber) (len : nat) : string :=
  "Profile group index " +++ js_String groupIndex +++ " out of range (max: "
  +++ js_String (Finite (inject_Z (Z.of_nat len - 1))) +++ ")".

(** The body of the [try]. *)
Definition read_profiles (inputDir : string) (groupIndex : JsNumber)
  : JsError + list string :=
  let quartoYmlPath := inputDir +++ "/_quarto.yml" in
  match readTextFile quartoYmlPath with
  | inl e => inl e
  | inr quartoYmlContent =>
      match parse quartoYmlContent with
      | inl e => inl e
      | inr quartoConfig =>
          match profile_group quartoConfig with
          | inl e => inl e
          | inr group =>
              if negb (truthy_value group)
              then inl (Error_ "No profile groups found in _quarto.yml")
              else
                match group with
                | Seq profileGroups =>
                    if js_ge groupIndex (length profileGroups)
                    then inl (Error_ (out_of_range_message groupIndex
                                        (length profileGroups)))
                    else
                      match get_index profileGroups groupIndex with
                      | Seq profileGroup =>
                          match profileGroup with
                          | [] =>
                              inl (Error_ "Selected profile group is empty")
                          | _ => map_result to_String profileGroup
                          end
                      | _ =>
                          inl (Error_ "Selected profile group is not an array")
                      end
                | _ => inl (Error_ "Profile group is not an array")
                end
          end
      end
  end.

(** [groupIndex: number = 0]: an omitted index is 0. *)
Definition getProfilesFromGroup (inputDir : string)
    (groupIndex : option JsNumber) : JsError + list string :=
  let groupIndex :=
    match groupIndex with
    | Some n => n
    | None => Finite 0
    end in
  match read_profiles inputDir groupIndex with
  | inl error =>
      if (name error =? "NotFound")%string
      then inl (Error_ not_found_message)
      else inl error
  | inr profiles => inr profiles
  end.

End WithRuntime.

(** The index [groupIndex] names the natural number [i]. *)
Definition selects (groupIndex : option JsNumber) (i : nat) : Prop :=
  match groupIndex with
  | None => i = 0%nat
  | Some (Finite q) => (q == inject_Z (Z.of_nat i))%Q
  | Some _ => False
  end.

(** The configuration holds [groups] under [profile.group]. *)
Definition has_groups (quartoConfig : Value) (groups : list Value) : Prop :=
  exists entries profile_entries,
    quartoConfig = Map entries
    /\ lookup "profile" entries = Some (Map profile_entries)
    /\ lookup "group" profile_entries = Some (Seq groups).

End Yaml.

(* ================================================================== *)
(** ** The history ([getGitHistory], git.ts) *)

Module Git.

Definition newline : ascii := "010"%char.

Definition history_failed_prefix : string := "Failed to get git history: ".

(** [new Error(`Failed to get git history: ${error.message}`)] *)
Definition wrap_history_error (error : JsError) : JsError :=
  Error_ (history_failed_prefix +++ message error).

(** A commit as [getGitHistory] builds it: a line with fewer than four
    parts leaves the later fields [undefined]. *)
Record GitCommit := {
  hash : string;
  message : option string;
  author : option string;
  date : option string
}.

(** [s.split(sep)] for a separator of one character. *)
Fixpoint split_on (sep : ascii) (s : string) : list string :=
  match s with
  | EmptyString => [EmptyString]
  | String c s' =>
      if Ascii.eqb c sep then EmptyString :: split_on sep s'
      else
        match split_on sep s' with
        | part :: parts => String c part :: parts
        | [] => [String c EmptyString]
        end
  end.

(** [const [hash, message, author, date] = line.split("|")] *)
Definition parse_line (line : string) : GitCommit :=
  let parts := split_on "|" line in
  {| hash := nth 0 parts "";
     message := nth_error parts 1;
     author := nth_error parts 2;
     date := nth_error parts 3 |}.

Section WithRuntime.
(** [Deno.chdir dir] in the working directory [cwd]: the new working
    directory, or the error thrown. *)
Variable chdir : string -> string -> JsError + string.
(** The standard output of [git] with these arguments in the working
    directory, or the error thrown by [output()]. *)
Variable git : string -> list string -> JsError + string.

(** The commit to start from: the one given when it is not empty, else
    what [git rev-list --max-parents=0 HEAD] prints, trimmed. *)
Definition start_commit (cwd1 : string) (startCommit : option string)
  : JsError + string :=
  match truthy startCommit with
  | Some c => inr c
  | None =>
      match git cwd1 ["rev-list"; "--max-parents=0"; "HEAD"] with
      | inl e => inl e
      | inr firstCommitOut => inr (trim firstCommitOut)
      end
  end.

Definition log_args (startCommit : string) : list string :=
  ["log"; "--format=%h|%s|%an|%ad"; startCommit +++ "^..HEAD"].

(** The working directory afterwards, and the result.  [cwd] is the
    working directory at the call, which [Deno.cwd()] returns. *)
Definition getGitHistory (repoDir : string) (startCommit : option string)
    (cwd : string) : string * (JsError + list GitCommit) :=
  let originalDir := cwd in
  match chdir cwd repoDir with
  | inl e => (cwd, inl (wrap_history_error e))
  | inr cwd1 =>
      match start_commit cwd1 startCommit with
      | inl e => (cwd1, inl (wrap_history_error e))
      | inr startCommit' =>
          match git cwd1 (log_args startCommit') with
          | inl e => (cwd1, inl (wrap_history_error e))
          | inr stdout =>
              let output := trim stdout in
              let commits := map parse_line (split_on newline output) in
              match chdir cwd1 originalDir with
              | inl e => (cwd1, inl (wrap_history_error e))
              | inr cwd2 => (cwd2, inr (rev commits))
              end
          end
      end
  end.

End WithRuntime.

(** One line of [git log --format=%h|%s|%an|%ad]. *)
Definition log_line (c : string * string * string * string) : string :=
  let '(h, s, an, ad) := c in h +++ "|" +++ s +++ "|" +++ an +++ "|" +++ ad.

Definition commit_of (c : string * string * string * string) : GitCommit :=
  let '(h, s, an, ad) := c in
  {| hash := h; message := Some s; author := Some an; date := Some ad |}.

(** [lines.join("\n")] *)
Fixpoint join_lines (lines : list string) : string :=
  match lines with
  | [] => ""
  | [l] => l
  | l :: lines' => l +++ String newline (join_lines lines')
  end.

(** No field holds a bar or a line break. *)
Definition plain_field (s : string) : bool :=
  Utils.free_of "|" s && Utils.free_of newline s.

Definition plain_entry (c : string * string * string * string) : bool :=
  let '(h, s, an, ad) := c in
  plain_field h && plain_field s && plain_field an && plain_field ad.

End Git.

(* ================================================================== *)
(** ** The slides ([renderTemplate], [SlideGenerator], slides.ts) *)

Module Slides.

Definition not_brace (c : ascii) : bool := negb (Ascii.eqb c "}").

(** The regular expression [/\${([^}]+)}/] tried at the start of [s]: the
    key (capture group 1) and what follows the match. *)
Definition placeholder_here (s : string) : option (string * string) :=
  match drop_prefix "${" s with
  | Some r =>
      let key := take_while not_brace r in
      match drop_while not_brace r with
      | String _ rest =>
          if (key =? "")%string then None else Some (key, rest)
      | EmptyString => None
      end
  | None => None
  end.

Record SlideInfo := {
  itemId : string;
  screenshot : string;
  file : option string
}.

Section WithRuntime.
(** [String(Object.prototype[key])] for the keys every object inherits. *)
Variable inherited : string -> option string.
(** [basename] of the path module. *)
Variable basename : string -> string.

(** [variables[key] || ''], as the replacement inserts it. *)
Definition variable_text (variables : list (string * string)) (key : string)
  : string :=
  match Yaml.lookup key variables with
  | Some v => v
  | None =>
      match inherited key with
      | Some text => text
      | None => ""
      end
  end.

(** [template.replace(/\${([^}]+)}/g, ...)] from the left; every step
    consumes a character, so the length of the template is fuel enough. *)
Fixpoint replace_all (fuel : nat) (variables : list (string * string))
    (s : string) : string :=
  match fuel with
  | O => s
  | S fuel' =>
      match placeholder_here s with
      | Some (key, rest) =>
          variable_text variables key +++ replace_all fuel' variables rest
      | None =>
          match s with
          | EmptyString => EmptyString
          | String c s' => String c (replace_all fuel' variables s')
          end
      end
  end.

Definition renderTemplate (template : string)
    (variables : list (string * string)) : string :=
  replace_all (String.length template) variables template.

Definition addSlide (slides : list SlideInfo) (itemId screenshotPath : string)
    (filePath : option string) : list SlideInfo :=
  slides ++ [{| itemId := itemId; screenshot := screenshotPath;
                file := filePath |}].

Definition slide_variables (slide : SlideInfo) : list (string * string) :=
  let screenshotRelPath := itemId slide +++ "/screenshot.png" in
  let fileRelPath :=
    match truthy (file slide) with
    | Some f => itemId slide +++ "/" +++ basename f
    | None => ""
    end in
  [("screenshot", screenshotRelPath); ("file", fileRelPath);
   ("itemId", itemId slide)].

Definition blank_line : string := String Git.newline (String Git.newline "").

Definition separator : string := "---" +++ blank_line.

(** The loop of [generateSlides] from index [i], over the slides left. *)
Fixpoint slides_loop (templateContent : string) (total i : nat)
    (rest : list SlideInfo) (slidesContent : string) : string :=
  match rest with
  | [] => slidesContent
  | slide :: rest' =>
      let slideContent :=
        renderTemplate templateContent (slide_variables slide) in
      let slidesContent := slidesContent +++ slideContent +++ blank_line in
      let slidesContent :=
        if (i <? total - 1)%nat then slidesContent +++ separator
        else slidesContent in
      slides_loop templateContent total (S i) rest' slidesContent
  end.

Definition slides_content (templateContent : string)
    (slides : list SlideInfo) : string :=
  slides_loop templateContent (length slides) 0 slides "".

(** What one slide adds, and the slides with the separator between
    them. *)
Definition slide_text (templateContent : string) (slide : SlideInfo)
  : string :=
  renderTemplate templateContent (slide_variables slide) +++ blank_line.

Fixpoint joined (templateContent : string) (slides : list SlideInfo)
  : string :=
  match slides with
  | [] => ""
  | slide :: rest =>
      match rest with
      | [] => slide_text templateContent slide
      | _ :: _ =>
          slide_text templateContent slide +++ separator
          +++ joined templateContent rest
      end
  end.

(** [Deno.readTextFile] and [Deno.writeTextFile path content]. *)
Variable readTextFile : string -> JsError + string.
Variable writeTextFile : string -> string -> option JsError.

(** The file written, or the error thrown again after it is logged. *)
Definition generateSlides (slides : list SlideInfo)
    (outputDir templatePath outputFilename : string)
  : JsError + (string * string) :=
  match readTextFile templatePath with
  | inl error => inl error
  | inr templateContent =>
      let slidesContent := slides_content templateContent slides in
      let outputPath := outputDir +++ "/" +++ outputFilename in
      match writeTextFile outputPath slidesContent with
      | Some error => inl error
      | None => inr (outputPath, slidesContent)
      end
  end.

End WithRuntime.

End Slides.

(* ------------------------------------------------------------------ *)
(** *** A selection as [defaults read] prints it *)

(** [{Height = "1691.75"; Width = 1394; X = 4590; Y = "270.625";}] *)
Definition sample_selection : string :=
  Utils.selection_text "{" " " "}" " " " " true false false true
    "1691.75" "1394" "4590" "270.625".

Definition sample_parseFloat (s : string) : JsNumber :=
  if (s =? "1691.75")%string then Finite (169175 # 100)
  else if (s =? "1394")%string then Finite 1394
  else if (s =? "4590")%string then Finite 4590
  else if (s =? "270.625")%string then Finite (270625 # 1000)
  else NaN.

(** [defaults] prints the selection and a line break. *)
Definition selection_env : Env :=
  with_output
    (fun _ => inr {| success := true;
                     stdout := sample_selection +++ String "010" "" |})
    calm_env.

(** [defaults] fails: nothing on its standard output. *)
Definition no_selection_env : Env :=
  with_output (fun _ => inr {| success := false; stdout := "" |}) calm_env.

(* ------------------------------------------------------------------ *)
(** *** A configuration, a history and a template *)

Definition sample_config : Yaml.Value :=
  Yaml.Map
    [("project", Yaml.Map [("type", Yaml.Str "website")]);
     ("profile",
      Yaml.Map
        [("group",
          Yaml.Seq [Yaml.Seq [Yaml.Str "light"; Yaml.Str "dark"];
                    Yaml.Seq [Yaml.Str "draft"; Yaml.Str "final"]])])].

Definition sample_readTextFile (path : string) : JsError + string :=
  if (path =? "/work/site/_quarto.yml")%string
  then inr "project: {type: website}"
  else inl {| name := "NotFound"; message := "No such file or directory" |}.

Definition sample_parse (content : string) : JsError + Yaml.Value :=
  inr sample_config.

Definition sample_object_String (v : Yaml.Value) : JsError + string :=
  inr "[object Object]".

(** Directories are given as absolute paths. *)
Definition sample_chdir (cwd dir : string) : JsError + string := inr dir.

Definition sample_log : string :=
  "b2c3d4e|Add dark theme|Ann|Tue Mar 5
a1b2c3d|Initial commit|Bob|Mon Mar 4
".

Definition sample_git (cwd : string) (args : list string) : JsError + string :=
  match args with
  | "log" :: _ => inr sample_log
  | _ => inr "a1b2c3d
"
  end.

Definition sample_entries : list (string * string * string * string) :=
  [("b2c3d4e", "Add dark theme", "Ann", "Tue Mar 5");
   ("a1b2c3d", "Initial commit", "Bob", "Mon Mar 4")].

(** [git] runs and prints nothing on its standard output. *)
Definition silent_git (cwd : string) (args : list string) : JsError + string :=
  inr "".


Definition no_inherited (key : string) : option string := None.

Definition sample_variables : list (string * string) :=
  [("screenshot", "dark/screenshot.png"); ("file", ""); ("itemId", "dark")].

(* ================================================================== *)
(** ** Facts about the string built-ins *)


Lemma listening_here_nonempty (s u : string) :
  listening_here s = Some u -> u <> "".
Proof.
  unfold listening_here.
  destruct (drop_prefix _ s) as [rest|]; [|discriminate].
  destruct (String.eqb _ _); [discriminate|].
  intros [= <-]. discriminate.
Qed.

Lemma listeningMatch_nonempty (text u : string) :
  listeningMatch text = Some u -> u <> "".
Proof.
  induction text as [|c text IH]; cbn [listeningMatch].
  - destruct (listening_here "") eqn:E; [|discriminate].
    intros [= <-]. eapply listening_here_nonempty; eauto.
  - destruct (listening_here (String c text)) eqn:E.
    + intros [= <-]. eapply listening_here_nonempty; eauto.
    + exact IH.
Qed.

Arguments record_url : simpl never.
Arguments includes : simpl never.
Arguments listeningMatch : simpl never.

Lemma eqb_empty_false (u : string) : u <> "" -> (u =? "")%string = false.
Proof. intros H. apply String.eqb_neq. exact H. Qed.

Lemma record_url_quiet (url : string) (c : N * string) :
  announces c = false -> record_url url (snd c) = url.
Proof.
  unfold announces, record_url.
  destruct (listeningMatch (snd c)); [discriminate | reflexivity].
Qed.

Lemma record_url_keep (url text : string) :
  url <> "" -> record_url url text = url.
Proof.
  intros H. unfold record_url.
  destruct (listeningMatch text); [|reflexivity].
  now rewrite eqb_empty_false.
Qed.

Lemma record_url_first (text u : string) :
  listeningMatch text = Some u -> record_url "" text = u.
Proof. intros H. unfold record_url. now rewrite H. Qed.

(* ================================================================== *)
(** ** Facts about the scan *)

Lemma elapsed_app (l1 l2 : list (N * string)) :
  elapsed (l1 ++ l2) = elapsed l1 + elapsed l2.
Proof.
  induction l1 as [|c l1 IH]; simpl; [reflexivity|].
  rewrite IH. lia.
Qed.

(** Chunks read while no URL is recorded and none is announced are
    skipped, whatever they contain. *)
Lemma loop_skip_quiet (pre l : list (N * string)) (e : StreamEnd) (now : N) :
  forallb (fun c => negb (announces c)) pre = true ->
  processStderr_loop "" now (pre ++ l) e
  = processStderr_loop "" (now + elapsed pre) l e.
Proof.
  revert now. induction pre as [|[dt text] pre IH]; intros now H; simpl.
  - now rewrite N.add_0_r.
  - simpl in H. apply andb_true_iff in H as [Hc Hpre].
    apply negb_true_iff in Hc.
    pose proof (record_url_quiet "" (dt, text) Hc) as Hq. simpl in Hq.
    rewrite Hq. simpl.
    rewrite andb_false_r, (IH _ Hpre). f_equal. lia.
Qed.

(** Chunks without the marker are skipped once a URL is recorded. *)
Lemma loop_skip_unmarked (url : string) (mid l : list (N * string))
    (e : StreamEnd) (now : N) :
  url <> "" ->
  forallb (fun c => negb (has_marker c)) mid = true ->
  processStderr_loop url now (mid ++ l) e
  = processStderr_loop url (now + elapsed mid) l e.
Proof.
  intros Hu. revert now.
  induction mid as [|[dt text] mid IH]; intros now H; simpl.
  - now rewrite N.add_0_r.
  - simpl in H. apply andb_true_iff in H as [Hc Hmid].
    apply negb_true_iff in Hc. unfold has_marker in Hc. simpl in Hc.
    rewrite (record_url_keep url text Hu), Hc. simpl.
    rewrite (IH _ Hmid). f_equal. lia.
Qed.

(** The marker completes the scan as soon as a URL is recorded. *)
Lemma loop_marker (url : string) (c : N * string) (l : list (N * string))
    (e : StreamEnd) (now : N) :
  has_marker c = true ->
  record_url url (snd c) <> "" ->
  processStderr_loop url now (c :: l) e
  = Fulfilled (now + fst c + settle_delay) (record_url url (snd c)).
Proof.
  intros Hm Hu. destruct c as [dt text]. simpl in *.
  unfold has_marker in Hm. simpl in Hm.
  now rewrite Hm, (eqb_empty_false _ Hu).
Qed.

Lemma loop_ended_unmarked (url : string) (cs : list (N * string))
    (dt now : N) :
  url <> "" ->
  forallb (fun c => negb (has_marker c)) cs = true ->
  processStderr_loop url now cs (Done dt)
  = Rejected (now + elapsed cs + dt) (Error_ stream_ended_message).
Proof.
  intros Hu H.
  rewrite <- (app_nil_r cs) at 1.
  rewrite (loop_skip_unmarked url cs [] (Done dt) now Hu H). reflexivity.
Qed.

Lemma existsb_false_forallb {A} (f : A -> bool) (l : list A) :
  existsb f l = false -> forallb (fun a => negb (f a)) l = true.
Proof.
  induction l as [|a l IH]; simpl; [reflexivity|].
  intros H. apply orb_false_iff in H as [Ha Hl].
  now rewrite Ha, (IH Hl).
Qed.

Lemma loop_ended (cs : list (N * string)) (dt now : N) :
  marker_never_completes cs = true ->
  processStderr_loop "" now cs (Done dt)
  = Rejected (now + elapsed cs + dt) (Error_ stream_ended_message).
Proof.
  revert now. induction cs as [|[d text] cs IH]; intros now H.
  - simpl. now rewrite N.add_0_r.
  - cbn [marker_never_completes] in H.
    destruct (announces (d, text)) eqn:Ha.
    + apply negb_true_iff, existsb_false_forallb in H.
      cbn [forallb] in H. apply andb_true_iff in H as [Hc Hcs].
      apply negb_true_iff in Hc. unfold has_marker in Hc. simpl in Hc.
      unfold announces in Ha. simpl in Ha.
      destruct (listeningMatch text) as [u|] eqn:Hl; [|discriminate].
      cbn [processStderr_loop]. rewrite Hc. cbn [andb].
      rewrite (record_url_first _ _ Hl).
      rewrite (loop_ended_unmarked u cs dt _ (listeningMatch_nonempty _ _ Hl) Hcs).
      simpl. f_equal. lia.
    + cbn [processStderr_loop].
      pose proof (record_url_quiet "" (d, text) Ha) as Hq. simpl in Hq.
      rewrite Hq. simpl. rewrite andb_false_r, (IH _ H).
      f_equal. lia.
Qed.

(** [race] against a timer that rejects at [ms]. *)
Lemma race_timer_early {A} (first : bool) (p : Promise A) (t ms : N) (e : JsError) :
  settle_time p = Some t -> t < ms ->
  race first p (Rejected ms e) = p.
Proof.
  intros Hp Hlt. unfold race. rewrite Hp. simpl.
  apply N.ltb_lt in Hlt. now rewrite Hlt.
Qed.

Lemma race_timer_late {A} (first : bool) (p : Promise A) (ms : N) (e : JsError) :
  (forall t, settle_time p = Some t -> ms < t) ->
  race first p (Rejected ms e) = Rejected ms e.
Proof.
  intros H. unfold race. destruct (settle_time p) as [t|] eqn:Hp; simpl.
  - specialize (H t eq_refl).
    destruct (t <? ms) eqn:E1; [apply N.ltb_lt in E1; lia|].
    apply N.ltb_lt in H. now rewrite H.
  - reflexivity.
Qed.

Lemma race_timer_tie {A} (first : bool) (p : Promise A) (ms : N) (e : JsError) :
  settle_time p = Some ms ->
  race first p (Rejected ms e) = if first then p else Rejected ms e.
Proof.
  intros Hp. unfold race. rewrite Hp. simpl. now rewrite N.ltb_irrefl.
Qed.

Lemma race_timer_settles {A} (first : bool) (p : Promise A) (ms : N) (e : JsError) :
  exists t, settle_time (race first p (Rejected ms e)) = Some t /\ t <= ms.
Proof.
  unfold race. destruct (settle_time p) as [t|] eqn:Hp; simpl.
  - destruct (t <? ms) eqn:E1.
    + apply N.ltb_lt in E1. exists t. split; [assumption | lia].
    + apply N.ltb_ge in E1. destruct (ms <? t) eqn:E2.
      * exists ms. split; [reflexivity | lia].
      * apply N.ltb_ge in E2. destruct first.
        -- exists t. split; [assumption | lia].
        -- exists ms. split; [reflexivity | lia].
  - exists ms. split; [reflexivity | lia].
Qed.

(* ================================================================== *)
(** ** Readiness *)

(** C2.  When the first chunk that matches the listening announcement
    yields the URL [u] and a chunk containing the request marker comes with
    it or after it, the scan returns exactly [u]; it returns at the first
    such marker and not before (markers read while no URL is recorded are
    passed over, and the scan is still pending on the chunks before the
    marker); and it returns the fixed settle delay, which is below one
    second, after the marker was read.  The readiness wait returns the same
    whenever that instant is before its deadline.

    [pre] are the chunks before the first announcement, [mid ++ [cG]] the
    chunks from the announcing one to the first one with the marker. *)
Theorem C2_readiness_returns_recorded_url
    (pre mid : list (N * string)) (cG : N * string)
    (rest : list (N * string)) (e : StreamEnd) (u : string) :
  forallb (fun c => negb (announces c)) pre = true ->
  option_map (fun c => listeningMatch (snd c)) (hd_error (mid ++ [cG]))
    = Some (Some u) ->
  forallb (fun c => negb (has_marker c)) mid = true ->
  has_marker cG = true ->
  let s := {| chunks := pre ++ mid ++ cG :: rest; ending := e |} in
  let seen := elapsed (pre ++ mid ++ [cG]) in
  processStderr s = Fulfilled (seen + settle_delay) u
  /\ processStderr {| chunks := pre ++ mid; ending := Never |} = Pending
  /\ 0 < settle_delay < 1000
  /\ (forall first, seen + settle_delay < readiness_timeout ->
        waitForQuartoServer first s = Fulfilled (seen + settle_delay) u).
Proof.
  intros Hpre Hhd Hmid HG s seen.
  assert (Hscan : processStderr s = Fulfilled (seen + settle_delay) u).
  { unfold processStderr, s, seen. cbn [chunks ending].
    rewrite (loop_skip_quiet pre _ e 0 Hpre).
    rewrite !elapsed_app. simpl elapsed.
    destruct mid as [|cL mid'].
    - simpl in Hhd. injection Hhd as Hhd.
      cbn [app]. rewrite loop_marker; trivial.
      + rewrite (record_url_first _ _ Hhd). f_equal. simpl. lia.
      + rewrite (record_url_first _ _ Hhd).
        eapply listeningMatch_nonempty; eauto.
    - simpl in Hhd. injection Hhd as Hhd.
      pose proof (listeningMatch_nonempty _ _ Hhd) as Hu.
      cbn [forallb] in Hmid. apply andb_true_iff in Hmid as [HcL Hmid'].
      apply negb_true_iff in HcL. unfold has_marker in HcL.
      destruct cL as [dL tL]. simpl in HcL, Hhd.
      cbn [app processStderr_loop]. rewrite HcL. cbn [andb].
      rewrite (record_url_first _ _ Hhd).
      rewrite (loop_skip_unmarked u mid' _ e _ Hu Hmid').
      rewrite loop_marker; trivial.
      + rewrite (record_url_keep u _ Hu). f_equal. simpl. lia.
      + now rewrite (record_url_keep u _ Hu). }
  split; [exact Hscan|]. split.
  { unfold processStderr. cbn [chunks ending].
    rewrite (loop_skip_quiet pre _ Never 0 Hpre).
    destruct mid as [|cL mid']; [reflexivity|].
    simpl in Hhd. injection Hhd as Hhd.
    pose proof (listeningMatch_nonempty _ _ Hhd) as Hu.
    rewrite <- (app_nil_r (cL :: mid')).
    cbn [forallb] in Hmid. apply andb_true_iff in Hmid as [HcL Hmid'].
    apply negb_true_iff in HcL. unfold has_marker in HcL.
    destruct cL as [dL tL]. simpl in HcL, Hhd.
    cbn [app processStderr_loop]. rewrite HcL. cbn [andb].
    rewrite (record_url_first _ _ Hhd).
    rewrite (loop_skip_unmarked u mid' [] Never _ Hu Hmid'). reflexivity. }
  split; [unfold settle_delay; lia|].
  intros first Hlt. unfold waitForQuartoServer, reject_after.
  rewrite Hscan. apply race_timer_early with (t := seen + settle_delay).
  - reflexivity.
  - exact Hlt.
Qed.

(** C3.  When the stream reports [done] and the request marker never came
    at or after a listening announcement, the scan rejects with the
    stream-ended error at the instant the stream ended.  The readiness wait
    then rejects in every case: it neither hangs nor returns a URL, and its
    error is the stream-ended one whenever the stream ended before the
    deadline. *)
Theorem C3_stream_end_is_fatal (cs : list (N * string)) (dt : N) :
  marker_never_completes cs = true ->
  let s := {| chunks := cs; ending := Done dt |} in
  let t := elapsed cs + dt in
  processStderr s = Rejected t (Error_ stream_ended_message)
  /\ (forall first, exists t' e',
        waitForQuartoServer first s = Rejected t' e')
  /\ (forall first, t < readiness_timeout ->
        waitForQuartoServer first s = Rejected t (Error_ stream_ended_message)).
Proof.
  intros H s t.
  assert (Hscan : processStderr s = Rejected t (Error_ stream_ended_message)).
  { unfold processStderr, s, t. cbn [chunks ending].
    rewrite (loop_ended cs dt 0 H). f_equal. }
  split; [exact Hscan|]. split.
  - intros first. unfold waitForQuartoServer, reject_after, race.
    rewrite Hscan. cbn [settle_time].
    destruct (t <? readiness_timeout); [eauto|].
    destruct (readiness_timeout <? t); [eauto|].
    destruct first; eauto.
  - intros first Hlt. unfold waitForQuartoServer, reject_after.
    rewrite Hscan. now apply race_timer_early with (t := t).
Qed.


(* ================================================================== *)
(** ** What each operation does to the trace *)

Ltac unfold_m :=
  unfold bind, try_catch, call_void, call, sleep, await, ask, ret, throw, exit.

Lemma app_cons_assoc {A} (l : list A) (a : A) (l' : list A) :
  (l ++ [a]) ++ l' = l ++ a :: l'.
Proof. now rewrite <- app_assoc. Qed.

Lemma lifecycle_app (t1 t2 : Trace) :
  lifecycle (t1 ++ t2) = lifecycle t1 ++ lifecycle t2.
Proof.
  induction t1 as [|ev t1 IH]; simpl; [reflexivity|].
  destruct (mark_of ev); simpl; now rewrite IH.
Qed.

Lemma ensureDir_run (env : Env) (dir : string) (tr : Trace) :
  exists out, ensureDir env dir tr = (tr ++ [Mkdir dir], out)
              /\ out <> Hung.
Proof.
  unfold ensureDir. unfold_m.
  destruct (mkdir env _) as [e|].
  - destruct (name e =? "AlreadyExists")%string;
      eexists; (split; [reflexivity | discriminate]).
  - eexists; (split; [reflexivity | discriminate]).
Qed.

(** [startQuartoPreview], spelled out. *)
Lemma startQuartoPreview_run (env : Env) (file profile : option string)
    (tr : Trace) :
  let tr1 := tr ++ [Spawn "quarto" (preview_args file profile)] in
  startQuartoPreview env file profile tr =
  match spawn env tr1 with
  | inl e => (tr1, Thrown e)
  | inr p =>
      match waitForQuartoServer (race_tie env tr1) (stderr_of env tr1) with
      | Fulfilled t u => (tr1 ++ [Wait t], Returned {| process := p; url := u |})
      | Rejected t e => (tr1 ++ [Wait t], Thrown e)
      | Pending => (tr1, Hung)
      end
  end.
Proof.
  intros tr1. unfold startQuartoPreview. unfold_m. fold tr1.
  destruct (spawn env tr1); [reflexivity|].
  destruct (waitForQuartoServer _ _); reflexivity.
Qed.

Lemma startQuartoPreview_new (env : Env) (file profile : option string)
    (tr : Trace) :
  exists new out,
    startQuartoPreview env file profile tr = (tr ++ new, out)
    /\ lifecycle new = [Started]
    /\ forallb (fun ev => negb (is_stop_event ev)) new = true
    /\ out <> Hung.
Proof.
  rewrite startQuartoPreview_run. cbv zeta.
  set (tr1 := tr ++ [Spawn "quarto" (preview_args file profile)]).
  destruct (spawn env tr1).
  - eexists [_], _. repeat split. discriminate.
  - pose proof (race_timer_settles (race_tie env tr1)
                  (processStderr (stderr_of env tr1)) readiness_timeout
                  (Error_ readiness_timeout_message)) as [t [Ht _]].
    fold (@reject_after string readiness_timeout readiness_timeout_message) in Ht.
    fold (waitForQuartoServer (race_tie env tr1) (stderr_of env tr1)) in Ht.
    destruct (waitForQuartoServer _ _); [| |discriminate];
      unfold tr1; rewrite app_cons_assoc;
      eexists [_; _], _; repeat split; discriminate.
Qed.

(** Step 1, spelled out. *)
Lemma stop_known_run (env : Env) (p : Process) (tr : Trace) :
  let tr1 := tr ++ [Kill p SIGTERM] in
  stop_known env p tr =
  match kill env tr1 with
  | Some _ => (tr ++ [Kill p SIGTERM; Kill p SIGKILL], Returned tt)
  | None =>
      match race (race_tie env tr1) (status_of env tr1)
                 (reject_after stop_timeout "Timeout waiting for process to exit")
      with
      | Fulfilled t _ => (tr ++ [Kill p SIGTERM; Wait t], Returned tt)
      | Rejected t _ =>
          (tr ++ [Kill p SIGTERM; Wait t; Kill p SIGKILL], Returned tt)
      | Pending => (tr1, Hung)
      end
  end.
Proof.
  intros tr1. unfold stop_known, kill_process. unfold_m. fold tr1.
  destruct (kill env tr1).
  - destruct (kill env (tr1 ++ [Kill p SIGKILL]));
      unfold tr1; now rewrite app_cons_assoc.
  - destruct (race _ _ _) as [t []|t e|].
    + unfold tr1; now rewrite app_cons_assoc.
    + destruct (kill env ((tr1 ++ [Wait t]) ++ [Kill p SIGKILL]));
        unfold tr1; now rewrite !app_cons_assoc.
    + reflexivity.
Qed.

Lemma stop_known_shape (env : Env) (p : Process) (tr : Trace) :
  exists s1, stop_known env p tr = (tr ++ s1, Returned tt)
             /\ step1_shape p s1.
Proof.
  rewrite stop_known_run. cbv zeta.
  destruct (kill env _).
  - eexists. split; [reflexivity|]. now left.
  - pose proof (race_timer_settles (race_tie env (tr ++ [Kill p SIGTERM]))
                  (status_of env (tr ++ [Kill p SIGTERM])) stop_timeout
                  (Error_ "Timeout waiting for process to exit")) as [t [Ht Hle]].
    unfold reject_after.
    destruct (race _ _ _) as [t' []|t' e|]; [| |discriminate];
      injection Ht as ->; eexists; (split; [reflexivity|]);
      right; exists t; split; auto.
Qed.

Lemma stop_orphans_shape (env : Env) (tr : Trace) :
  exists s2, stop_orphans env tr = (tr ++ s2, Returned tt)
             /\ step2_shape s2.
Proof.
  unfold stop_orphans, run_command. unfold_m.
  destruct (output env _).
  - eexists. split; [reflexivity|]. now left.
  - rewrite app_cons_assoc. eexists. split; [reflexivity|]. now right.
Qed.

Lemma stop_verify_shape (env : Env) (tr : Trace) :
  exists s3, stop_verify env tr = (tr ++ s3, Returned tt)
             /\ step3_shape s3.
Proof.
  unfold stop_verify, run_command. unfold_m.
  destruct (output env (tr ++ _)) as [e|out].
  - eexists. split; [reflexivity|]. now left.
  - destruct (success out).
    + destruct (negb _).
      * destruct (output env ((tr ++ _) ++ _));
          rewrite app_cons_assoc; eexists; (split; [reflexivity|]); now right.
      * eexists. split; [reflexivity|]. now left.
    + eexists. split; [reflexivity|]. now left.
Qed.

Lemma stopQuartoPreview_shape (env : Env)
    (result : QuartoPreviewResult + Process) (tr : Trace) :
  exists s1 s2 s3,
    stopQuartoPreview env result tr = (tr ++ s1 ++ s2 ++ s3, Returned tt)
    /\ stop_known env (handle_process result) tr = (tr ++ s1, Returned tt)
    /\ step1_shape (handle_process result) s1
    /\ step2_shape s2
    /\ step3_shape s3.
Proof.
  destruct (stop_known_shape env (handle_process result) tr) as [s1 [E1 H1]].
  destruct (stop_orphans_shape env (tr ++ s1)) as [s2 [E2 H2]].
  destruct (stop_verify_shape env ((tr ++ s1) ++ s2)) as [s3 [E3 H3]].
  exists s1, s2, s3. repeat split; trivial.
  unfold stopQuartoPreview, try_catch, bind.
  fold (handle_process result).
  rewrite E1, E2, E3. now rewrite <- !app_assoc.
Qed.

Lemma step1_marks (p : Process) (s : Trace) :
  step1_shape p s -> lifecycle s = [StopRequested].
Proof. intros [->|[t [_ [->| ->]]]]; reflexivity. Qed.

Lemma step2_marks (s : Trace) : step2_shape s -> lifecycle s = [].
Proof. intros [->| ->]; reflexivity. Qed.

Lemma step3_marks (s : Trace) : step3_shape s -> lifecycle s = [StopVerified].
Proof. intros [->| ->]; reflexivity. Qed.

Lemma stopQuartoPreview_new (env : Env)
    (result : QuartoPreviewResult + Process) (tr : Trace) :
  exists new,
    stopQuartoPreview env result tr = (tr ++ new, Returned tt)
    /\ lifecycle new = [StopRequested; StopVerified].
Proof.
  destruct (stopQuartoPreview_shape env result tr)
    as (s1 & s2 & s3 & E & _ & H1 & H2 & H3).
  exists (s1 ++ s2 ++ s3). split; [exact E|].
  rewrite !lifecycle_app, (step1_marks _ _ H1), (step2_marks _ H2),
    (step3_marks _ H3). reflexivity.
Qed.

(** [captureScreen], spelled out. *)
Lemma captureScreen_run (env : Env) (outputPath : string) (rect : ScreenRect)
    (tr : Trace) :
  let tr1 := tr ++ [Run "screencapture"
                      ["-x"; "-R"; rect_string env rect; outputPath]] in
  captureScreen env outputPath rect tr =
  match output env tr1 with
  | inl _ => (tr1, Returned false)
  | inr out =>
      if success out then
        let tr2 := tr1 ++ [Stat outputPath] in
        match stat env tr2 with
        | inl _ => (tr2, Returned false)
        | inr info => (tr2, Returned (negb (size info =? 0)))
        end
      else (tr1, Returned false)
  end.
Proof.
  intros tr1. unfold captureScreen, run_command. unfold_m. fold tr1.
  destruct (output env tr1) as [e|out]; [reflexivity|].
  destruct (success out); simpl; [|reflexivity].
  destruct (stat env _) as [e|info]; [reflexivity|].
  destruct (size info =? 0); reflexivity.
Qed.

Lemma captureScreen_new (env : Env) (outputPath : string) (rect : ScreenRect)
    (tr : Trace) :
  exists new b,
    captureScreen env outputPath rect tr = (tr ++ new, Returned b)
    /\ lifecycle new = []
    /\ forallb (fun ev => negb (is_stop_event ev)) new = true.
Proof.
  rewrite captureScreen_run. cbv zeta.
  destruct (output env _) as [e|out].
  - eexists [_], _. repeat split.
  - destruct (success out).
    + destruct (stat env _); rewrite app_cons_assoc;
        eexists [_; _], _; repeat split.
    + eexists [_], _. repeat split.
Qed.

Lemma copyFile_run (env : Env) (src dst : string) (tr : Trace) :
  exists b, copyFile env src dst tr = (tr ++ [CopyFile src dst], Returned b).
Proof.
  unfold copyFile. unfold_m. destruct (copy_file env _); eexists; reflexivity.
Qed.

(** C4.  The readiness wait is the race of the scan against one timer of
    60 seconds.  It always settles, at the deadline at the latest; a scan
    that settles before the deadline decides the outcome; when the timer is
    first (the scan is later, or pending for ever) the wait rejects with the
    timeout error at the deadline; when both settle in the same millisecond
    the one delivered first decides.  [startQuartoPreview] then throws that
    timeout error after one spawn and a wait of exactly the deadline: no
    second attempt, no hang. *)
Theorem C4_timeout_races_the_scan (env : Env) (file profile : option string)
    (tr : Trace) (first : bool) (s : Stream) :
  10000 <= readiness_timeout < 100000
  /\ (exists t, settle_time (waitForQuartoServer first s) = Some t
                /\ t <= readiness_timeout)
  /\ (forall t, settle_time (processStderr s) = Some t ->
        t < readiness_timeout ->
        waitForQuartoServer first s = processStderr s)
  /\ ((forall t, settle_time (processStderr s) = Some t ->
         readiness_timeout < t) ->
      waitForQuartoServer first s
      = Rejected readiness_timeout (Error_ readiness_timeout_message))
  /\ (settle_time (processStderr s) = Some readiness_timeout ->
      waitForQuartoServer first s
      = if first then processStderr s
        else Rejected readiness_timeout (Error_ readiness_timeout_message))
  /\ (let tr1 := tr ++ [Spawn "quarto" (preview_args file profile)] in
      forall p, spawn env tr1 = inr p ->
        (forall t, settle_time (processStderr (stderr_of env tr1)) = Some t ->
           readiness_timeout < t) ->
        startQuartoPreview env file profile tr
        = (tr1 ++ [Wait readiness_timeout],
           Thrown (Error_ readiness_timeout_message))).
Proof.
  split; [unfold readiness_timeout; lia|].
  split; [apply race_timer_settles|].
  split; [intros t Ht Hlt; now apply race_timer_early with (t := t)|].
  split; [intros H; now apply race_timer_late|].
  split; [intros H; now apply race_timer_tie|].
  intros tr1 p Hp Hlate.
  rewrite startQuartoPreview_run. cbv zeta. fold tr1. rewrite Hp.
  unfold waitForQuartoServer, reject_after.
  now rewrite race_timer_late.
Qed.

(* ================================================================== *)
(** ** Stopping the preview *)

(** C5.  [stopQuartoPreview] returns normally for every handle, in every
    environment and from every history: whatever the signals and the sweeps
    answer (a throw of [kill] because the process is already gone
    included), nothing is thrown to the caller and the call comes back.
    What it did starts with the graceful signal to the known process and
    always contains the orphan sweep and the verification search. *)
Theorem C5_stop_never_throws (env : Env)
    (result : QuartoPreviewResult + Process) (tr : Trace) :
  exists new,
    stopQuartoPreview env result tr = (tr ++ new, Returned tt)
    /\ hd_error new = Some (Kill (handle_process result) SIGTERM)
    /\ In (Run "pkill" ["-f"; preview_pattern]) new
    /\ In (Run "pgrep" ["-f"; preview_pattern]) new.
Proof.
  destruct (stopQuartoPreview_shape env result tr)
    as (s1 & s2 & s3 & E & _ & H1 & H2 & H3).
  exists (s1 ++ s2 ++ s3). split; [exact E|].
  split; [|split].
  - destruct H1 as [->|[t [_ [->| ->]]]]; reflexivity.
  - apply in_or_app. right. apply in_or_app. left.
    destruct H2 as [->| ->]; now left.
  - apply in_or_app. right. apply in_or_app. right.
    destruct H3 as [->| ->]; now left.
Qed.


(* ================================================================== *)
(** ** The capture *)

(** C9.  [captureScreen] returns a boolean for every path and rectangle, in
    every environment: it never throws and always comes back.  The boolean
    is [true] exactly when the capture tool reported success and the stat
    of the output path that follows found a file of non-zero size; so it is
    [false] when the tool could not be run or reported failure, when the
    stat failed (no file), and when the file is empty. *)
Theorem C9_capture_is_total (env : Env) (outputPath : string)
    (rect : ScreenRect) (tr : Trace) :
  let tr1 := tr ++ [Run "screencapture"
                      ["-x"; "-R"; rect_string env rect; outputPath]] in
  let tr2 := tr1 ++ [Stat outputPath] in
  exists new b,
    captureScreen env outputPath rect tr = (tr ++ new, Returned b)
    /\ (b = true <->
        exists out info,
          output env tr1 = inr out /\ success out = true
          /\ stat env tr2 = inr info /\ size info <> 0)
    /\ ((exists e, output env tr1 = inl e) -> b = false)
    /\ ((exists out, output env tr1 = inr out /\ success out = false) ->
        b = false)
    /\ ((exists out e, output env tr1 = inr out /\ success out = true
                       /\ stat env tr2 = inl e) -> b = false)
    /\ ((exists out info, output env tr1 = inr out /\ success out = true
                          /\ stat env tr2 = inr info /\ size info = 0) ->
        b = false).
Proof.
  intros tr1 tr2. rewrite captureScreen_run. cbv zeta. fold tr1. fold tr2.
  destruct (output env tr1) as [e|out] eqn:Eo.
  { exists [Run "screencapture" ["-x"; "-R"; rect_string env rect; outputPath]],
      false.
    split; [reflexivity|]. split; [|tauto].
    split; [discriminate | intros (? & ? & ? & _); discriminate]. }
  destruct (success out) eqn:Es.
  2:{ exists [Run "screencapture" ["-x"; "-R"; rect_string env rect; outputPath]],
        false.
      split; [reflexivity|]. split; [|tauto].
      split; [discriminate|].
      intros (o & i & [= <-] & Ho & _). congruence. }
  destruct (stat env tr2) as [e|info] eqn:Ei.
  { exists [Run "screencapture" ["-x"; "-R"; rect_string env rect; outputPath];
            Stat outputPath], false.
    split; [unfold tr2, tr1; now rewrite app_cons_assoc|].
    split; [|tauto].
    split; [discriminate | intros (? & ? & _ & _ & ? & _); discriminate]. }
  exists [Run "screencapture" ["-x"; "-R"; rect_string env rect; outputPath];
          Stat outputPath], (negb (size info =? 0)).
  split; [unfold tr2, tr1; now rewrite app_cons_assoc|].
  destruct (size info =? 0) eqn:Ez; simpl.
  - apply N.eqb_eq in Ez. split; [|tauto].
    split; [discriminate|].
    intros (o & i & _ & _ & [= <-] & Hn). contradiction.
  - apply N.eqb_neq in Ez. split.
    + split; [|reflexivity]. intros _. exists out, info. auto.
    + repeat split.
      * intros (? & ?); discriminate.
      * intros (o & [= <-] & Ho). congruence.
      * intros (? & ? & _ & _ & ?); discriminate.
      * intros (o & i & _ & _ & [= <-] & Hz). contradiction.
Qed.

(* ================================================================== *)
(** ** One item *)

Lemma run_extends {A} (tr tr' new : Trace) (out out' : Outcome A)
    (r : Trace * Outcome A) :
  r = (tr ++ new, out) -> r = (tr', out') -> tr' = tr ++ new.
Proof. intros -> [= <- _]. reflexivity. Qed.

(** C1, as amended.  On an item whose capture fails, [processItem] throws
    the fatal capture error at once: the trace ends with the capture, and
    nothing the item did is a signal to a process or a sweep of the process
    table, so [stopQuartoPreview] was not called for it. *)
Theorem C1_capture_failure_propagates_unstopped (env : Env)
    (options : ProcessItemOptions) (tr tr0 tr1 tr2 : Trace)
    (q : QuartoPreviewResult) :
  let dir := item_outputDir options +++ "/" +++ itemId options in
  ensureDir env dir tr = (tr0, Returned tt) ->
  startQuartoPreview env (item_file options) (profile options) tr0
    = (tr1, Returned q) ->
  captureScreen env (dir +++ "/screenshot.png") (screenRect options) tr1
    = (tr2, Returned false) ->
  processItem env options tr = (tr2, Thrown (Error_ capture_failed_message))
  /\ exists new, tr2 = tr ++ new
       /\ forallb (fun ev => negb (is_stop_event ev)) new = true.
Proof.
  intros dir Hd Hs Hc. split.
  - unfold processItem, bind. fold dir. now rewrite Hd, Hs, Hc.
  - destruct (ensureDir_run env dir tr) as (o0 & E0 & _).
    destruct (startQuartoPreview_new env (item_file options) (profile options) tr0)
      as (n1 & o1 & E1 & _ & F1 & _).
    destruct (captureScreen_new env (dir +++ "/screenshot.png")
                (screenRect options) tr1) as (n2 & b & E2 & _ & F2).
    pose proof (run_extends _ _ _ _ _ _ E0 Hd) as ->.
    pose proof (run_extends _ _ _ _ _ _ E1 Hs) as ->.
    pose proof (run_extends _ _ _ _ _ _ E2 Hc) as ->.
    exists ([Mkdir dir] ++ n1 ++ n2). split.
    + now rewrite <- !app_assoc.
    + rewrite !forallb_app, F1, F2. reflexivity.
Qed.

Lemma processItem_marks (env : Env) (options : ProcessItemOptions) (tr : Trace) :
  exists new out,
    processItem env options tr = (tr ++ new, out)
    /\ item_marks out (lifecycle new).
Proof.
  unfold processItem.
  set (dir := item_outputDir options +++ "/" +++ itemId options).
  destruct (ensureDir_run env dir tr) as (o0 & E0 & _).
  unfold bind at 1. rewrite E0.
  destruct o0 as [[]|e|c|];
    try (eexists [_], _; split; [reflexivity|]; simpl; auto).
  destruct (startQuartoPreview_new env (item_file options) (profile options)
              (tr ++ [Mkdir dir])) as (n1 & o1 & E1 & L1 & _ & _).
  unfold bind at 1. rewrite E1.
  assert (Hfail : lifecycle ([Mkdir dir] ++ n1) = [Started]).
  { rewrite lifecycle_app, L1. reflexivity. }
  destruct o1 as [q|e|c|];
    try (rewrite <- app_assoc; eexists _, _; split; [reflexivity|];
         rewrite Hfail; simpl; auto).
  destruct (captureScreen_new env (dir +++ "/screenshot.png")
              (screenRect options) ((tr ++ [Mkdir dir]) ++ n1))
    as (n2 & b & E2 & L2 & _).
  unfold bind at 1. rewrite E2.
  destruct b.
  2:{ unfold bind, throw. rewrite <- !app_assoc.
      eexists _, _; split; [reflexivity|].
      rewrite !lifecycle_app, L1, L2. simpl; auto. }
  unfold bind at 1. unfold ret at 1.
  destruct (stopQuartoPreview_new env (inl q)
              (((tr ++ [Mkdir dir]) ++ n1) ++ n2)) as (n3 & E3 & L3).
  unfold bind at 1. rewrite E3.
  assert (Hall : lifecycle ([Mkdir dir] ++ n1 ++ n2 ++ n3) = cycles 1).
  { rewrite !lifecycle_app, L1, L2, L3. reflexivity. }
  destruct (truthy (item_copyFile options)) as [copy|].
  - destruct (copyFile_run env copy (dir +++ "/" +++ path_basename env copy)
                ((((tr ++ [Mkdir dir]) ++ n1) ++ n2) ++ n3)) as (b & E4).
    unfold bind. rewrite E4.
    assert (Hcopy : lifecycle ([Mkdir dir] ++ n1 ++ n2 ++ n3
                               ++ [CopyFile copy (dir +++ "/" +++ path_basename env copy)])
                    = cycles 1).
    { rewrite !lifecycle_app, L1, L2, L3. reflexivity. }
    destruct b; unfold ret, throw; rewrite <- !app_assoc;
      eexists _, _; (split; [reflexivity|]); rewrite Hcopy; simpl; auto.
  - unfold ret. rewrite <- !app_assoc.
    eexists _, _; split; [reflexivity|]. rewrite Hall. reflexivity.
Qed.

(* ================================================================== *)
(** ** The loops of [main] *)

Lemma count_cycles (n : nat) :
  count_mark Started (cycles n) = n
  /\ count_mark StopRequested (cycles n) = n
  /\ count_mark StopVerified (cycles n) = n.
Proof.
  unfold count_mark. induction n as [|n (IH1 & IH2 & IH3)]; simpl; auto.
Qed.

(** A loop whose body leaves the milestones of one item leaves those of a
    run. *)
Lemma for_each_marks {A} (body : A -> M unit) :
  (forall a tr, exists new out,
      body a tr = (tr ++ new, out) /\ item_marks out (lifecycle new)) ->
  forall l tr, exists new out,
      for_each body l tr = (tr ++ new, out)
      /\ run_marks (length l) out (lifecycle new).
Proof.
  intros Hbody. induction l as [|a l IH]; intros tr.
  - exists [], (Returned tt). split; [simpl; unfold ret; now rewrite app_nil_r|].
    reflexivity.
  - destruct (Hbody a tr) as (n1 & o1 & E1 & M1).
    cbn [for_each]. unfold bind. rewrite E1.
    destruct o1 as [[]|e|c|].
    + destruct (IH (tr ++ n1)) as (n2 & o2 & E2 & M2).
      rewrite E2, <- app_assoc. exists (n1 ++ n2), o2.
      split; [reflexivity|]. rewrite lifecycle_app.
      simpl in M1. rewrite M1.
      destruct o2 as [[]|e|c|]; simpl in M2 |- *.
      * now rewrite M2.
      * destruct M2 as (k & Hk & [->|[Hlt ->]]); exists (S k);
          (split; [lia|]); [left | right; split; [lia|]]; reflexivity.
      * destruct M2 as (k & Hk & [->|[Hlt ->]]); exists (S k);
          (split; [lia|]); [left | right; split; [lia|]]; reflexivity.
      * destruct M2 as (k & Hk & [->|[Hlt ->]]); exists (S k);
          (split; [lia|]); [left | right; split; [lia|]]; reflexivity.
    + exists n1, (Thrown e). split; [reflexivity|]. simpl in M1 |- *.
      destruct M1 as [->|[->| ->]].
      * exists 0%nat. split; [lia|]. now left.
      * exists 0%nat. split; [lia|]. right. split; [lia|]. reflexivity.
      * exists 1%nat. split; [lia|]. now left.
    + exists n1, (Exited c). split; [reflexivity|]. simpl in M1 |- *.
      destruct M1 as [->|[->| ->]].
      * exists 0%nat. split; [lia|]. now left.
      * exists 0%nat. split; [lia|]. right. split; [lia|]. reflexivity.
      * exists 1%nat. split; [lia|]. now left.
    + exists n1, Hung. split; [reflexivity|]. simpl in M1 |- *.
      destruct M1 as [->|[->| ->]].
      * exists 0%nat. split; [lia|]. now left.
      * exists 0%nat. split; [lia|]. right. split; [lia|]. reflexivity.
      * exists 1%nat. split; [lia|]. now left.
Qed.

Lemma checkout_then_item_marks (env : Env) (options : QuartoRecordOptions)
    (rect : ScreenRect) (commit : GitCommit) (tr : Trace) :
  exists new out,
    bind (checkoutCommit env (inputDir options) (hash commit))
         (fun _ => processItem env (commit_item options rect commit)) tr
    = (tr ++ new, out)
    /\ item_marks out (lifecycle new).
Proof.
  unfold bind, checkoutCommit, call_void, call.
  destruct (checkout_commit env _).
  - eexists [_], _. split; [reflexivity|]. simpl. auto.
  - destruct (processItem_marks env (commit_item options rect commit)
                (tr ++ [CheckoutCommit (inputDir options) (hash commit)]))
      as (n & o & E & Hm).
    rewrite E, <- app_assoc. eexists _, o. split; [reflexivity|].
    exact Hm.
Qed.

(** C7, as amended.  Both loops of [main] work through their items one
    after the other.  A run over [N] items that returns has spawned exactly
    [N] previews and begun exactly [N] stops, and its trace is [N] whole
    lives in a row: each preview is spawned, stopped and verified before
    the next one is spawned.  A run that aborts did the same for the [k]
    items before the failing one, and of the failing item at most the
    spawn: never more than [N] starts, never two lives at a time. *)
Theorem C7_items_one_after_the_other (env : Env)
    (options : QuartoRecordOptions) (rect : ScreenRect) :
  (forall profiles tr, exists new out,
      process_profiles env options rect profiles tr = (tr ++ new, out)
      /\ run_marks (length profiles) out (lifecycle new)
      /\ (out = Returned tt ->
          count_mark Started (lifecycle new) = length profiles
          /\ count_mark StopRequested (lifecycle new) = length profiles))
  /\ (forall commits tr, exists new out,
      process_commits env options rect commits tr = (tr ++ new, out)
      /\ run_marks (length commits) out (lifecycle new)
      /\ (out = Returned tt ->
          count_mark Started (lifecycle new) = length commits
          /\ count_mark StopRequested (lifecycle new) = length commits)).
Proof.
  split.
  - intros profiles tr. unfold process_profiles.
    destruct (for_each_marks
                (fun profile => processItem env (profile_item options rect profile))
                (fun a t => processItem_marks env _ t) profiles tr)
      as (new & out & E & Hm).
    exists new, out. split; [exact E|]. split; [exact Hm|].
    intros ->. simpl in Hm. rewrite Hm. split; apply count_cycles.
  - intros commits tr. unfold process_commits.
    destruct (for_each_marks
                (fun commit =>
                   bind (checkoutCommit env (inputDir options) (hash commit))
                        (fun _ => processItem env (commit_item options rect commit)))
                (fun a t => checkout_then_item_marks env options rect a t)
                commits tr)
      as (new & out & E & Hm).
    exists new, out. split; [exact E|]. split; [exact Hm|].
    intros ->. simpl in Hm. rewrite Hm. split; apply count_cycles.
Qed.

(* ================================================================== *)
(** ** The command line *)

Lemma checkPermissions_run (env : Env) (tr : Trace) :
  exists new b,
    checkPermissions env tr = (tr ++ new, Returned b)
    /\ forallb is_permission_query new = true.
Proof.
  unfold checkPermissions, query_ok. unfold_m.
  destruct (permissions_query env (tr ++ [PermissionQuery "run"])).
  { eexists [_], _. split; reflexivity. }
  simpl.
  destruct (permissions_query env
              ((tr ++ [PermissionQuery "run"]) ++ [PermissionQuery "read"])).
  { rewrite app_cons_assoc. eexists [_; _], _. split; reflexivity. }
  simpl.
  destruct (permissions_query env
              (((tr ++ [PermissionQuery "run"]) ++ [PermissionQuery "read"])
               ++ [PermissionQuery "write"])).
  { rewrite !app_cons_assoc. eexists [_; _; _], _. split; reflexivity. }
  simpl. rewrite !app_cons_assoc. eexists [_; _; _], _. split; reflexivity.
Qed.

(** A command line that does not parse ends the run with exit code 1
    before anything but the permission queries was done. *)
Lemma main_rejects (env : Env) (args : list string) (e : JsError) (tr : Trace) :
  parseArgs env args = inl e ->
  exists new, main env args tr = (tr ++ new, Exited 1)
              /\ forallb is_permission_query new = true.
Proof.
  intros Hp. destruct (checkPermissions_run env tr) as (new & b & E & F).
  exists new. split; [|exact F].
  unfold main, try_catch. unfold bind at 1. rewrite E.
  destruct b; simpl.
  - unfold bind, ret, throw, exit. now rewrite Hp.
  - reflexivity.
Qed.

Lemma truthy_nonempty (s : string) : s <> "" -> truthy (Some s) = Some s.
Proof. intros H. unfold truthy. now rewrite eqb_empty_false. Qed.

(** C8, as amended.  When the argument loop ends with [profileGroupIndex]
    set and [startCommit] set to a non-empty string, [parseArgs] throws the
    mutual-exclusion error, and [main] ends with exit code 1 having done
    nothing but the permission queries: no process spawned, no command run,
    nothing written. *)
Theorem C8_both_modes_is_fatal (env : Env) (out : string)
    (named : list string) (v : ParseVars) (commit : string) (index : JsNumber) :
  parse_named env named initial_vars = inr v ->
  v_startCommit v = Some commit -> commit <> "" ->
  v_profileGroupIndex v = Some index ->
  parseArgs env (out :: named) = inl (Error_ mutually_exclusive_message)
  /\ forall tr, exists new,
       main env (out :: named) tr = (tr ++ new, Exited 1)
       /\ forallb is_permission_query new = true.
Proof.
  intros Hp Hc Hne Hi.
  assert (E : parseArgs env (out :: named)
              = inl (Error_ mutually_exclusive_message)).
  { unfold parseArgs. rewrite Hp, Hi, Hc, (truthy_nonempty _ Hne). reflexivity. }
  split; [exact E|]. intros tr. now apply main_rejects with (e := Error_ mutually_exclusive_message).
Qed.

(** Both flags, in either order, with a commit that is not the empty
    string. *)
Example both_flags_either_order (env : Env) (out commit : string) :
  commit <> "" ->
  parseArgs env [out; "--start-commit"; commit; "--profile-group"]
    = inl (Error_ mutually_exclusive_message)
  /\ parseArgs env [out; "--profile-group"; "--start-commit"; commit]
    = inl (Error_ mutually_exclusive_message).
Proof.
  intros H. split.
  - unfold parseArgs. cbn. now rewrite eqb_empty_false.
  - unfold parseArgs. cbn. rewrite andb_false_r. cbn.
    now rewrite eqb_empty_false.
Qed.

Lemma value_flag_cases (flag : string) :
  In flag value_flags ->
  flag = "--input" \/ flag = "--file" \/ flag = "--start-commit"
  \/ flag = "--copy-file".
Proof. simpl. intuition. Qed.

(** An argument that starts with [--] is not taken for the index of a
    preceding [--profile-group]: the loop goes on from it with the
    variables that the arguments before it left. *)
Lemma parse_named_then_flag (env : Env) (tok : string) (l : list string) :
  String.prefix "--" tok = true ->
  forall (n : nat) (pre : list string) (v0 v1 : ParseVars),
    (length pre <= n)%nat ->
    parse_named env pre v0 = inr v1 ->
    parse_named env (pre ++ tok :: l) v0 = parse_named env (tok :: l) v1.
Proof.
  intros Htok. induction n as [|n IH]; intros pre v0 v1 Hlen H.
  - destruct pre; [|simpl in Hlen; lia]. simpl in H. now injection H as ->.
  - destruct pre as [|arg [|next rest'']].
    + simpl in H. now injection H as ->.
    + cbn [parse_named] in H.
      destruct (arg =? "--profile-group")%string eqn:E; [|discriminate].
      injection H as <-. apply String.eqb_eq in E. subst arg.
      cbn [app parse_named]. cbn [String.eqb Ascii.eqb Bool.eqb].
      now rewrite Htok, andb_false_r.
    + cbn [length] in Hlen.
      change ((arg :: next :: rest'') ++ tok :: l)
        with (arg :: next :: (rest'' ++ tok :: l)).
      cbn [parse_named] in H |- *.
      destruct (arg =? "--input")%string; [apply IH; [lia | exact H]|].
      destruct (arg =? "--file")%string; [apply IH; [lia | exact H]|].
      destruct (arg =? "--start-commit")%string; [apply IH; [lia | exact H]|].
      destruct (arg =? "--copy-file")%string; [apply IH; [lia | exact H]|].
      destruct (arg =? "--profile-group")%string; [|discriminate].
      destruct (negb (isNaN (js_Number env next)) && negb (String.prefix "--" next)).
      * apply IH; [lia | exact H].
      * apply (IH (next :: rest'')); [simpl; lia | exact H].
Qed.

(** C10, as amended.  When the arguments after OUTPUT_DIR and before the
    last one parse as complete options, and the last argument is one of the
    four value-taking flags, [parseArgs] throws [Unknown argument: ] with
    that flag: the flag is not accepted, and nothing after the end of the
    list is read as its value. *)
Theorem C10_trailing_value_flag (env : Env) (out : string)
    (pre : list string) (v : ParseVars) (flag : string) :
  In flag value_flags ->
  parse_named env pre initial_vars = inr v ->
  parseArgs env (out :: pre ++ [flag]) = inl (unknown_argument flag).
Proof.
  intros Hf Hp. unfold parseArgs.
  assert (Hpre : String.prefix "--" flag = true).
  { destruct (value_flag_cases flag Hf) as [->|[->|[->| ->]]]; reflexivity. }
  rewrite (parse_named_then_flag env flag [] Hpre (length pre) pre
             initial_vars v (le_n _) Hp).
  destruct (value_flag_cases flag Hf) as [->|[->|[->| ->]]]; reflexivity.
Qed.

(* ================================================================== *)
(** ** The program at concrete inputs *)

(** The readiness wait on the sample stream: a request line comes before
    any URL is recorded and is passed over; the announcement comes 1600 ms
    in, the request 400 ms later, the wait returns 500 ms after that. *)
Lemma C2_witness :
  forallb (fun c => negb (announces c)) [(700, "GET: /stale")] = true
  /\ has_marker (400, "GET: /") = true
  /\ processStderr sample_stream = Fulfilled 2500 "http://localhost:4321"
  /\ forall first,
       waitForQuartoServer first sample_stream
       = Fulfilled 2500 "http://localhost:4321".
Proof.
  split; [reflexivity|]. split; [reflexivity|].
  destruct (C2_readiness_returns_recorded_url
              [(700, "GET: /stale")]
              [(900, "Watching files for changes
Browse at http://localhost:4321/
Listening on http://localhost:4321/")]
              (400, "GET: /") [] Never "http://localhost:4321"
              eq_refl eq_refl eq_refl eq_refl) as (H1 & _ & _ & H4).
  split; [exact H1|]. intros first. apply H4. reflexivity.
Defined.

(** A preview that announces itself and closes stderr before any request. *)
Lemma C3_witness :
  marker_never_completes
    [(300, "GET: /early"); (900, "Listening on http://localhost:4321/")] = true
  /\ forall first,
       waitForQuartoServer first
         {| chunks := [(300, "GET: /early");
                       (900, "Listening on http://localhost:4321/")];
            ending := Done 50 |}
       = Rejected 1250 (Error_ stream_ended_message).
Proof.
  split; [reflexivity|].
  destruct (C3_stream_end_is_fatal
              [(300, "GET: /early"); (900, "Listening on http://localhost:4321/")]
              50 eq_refl) as (_ & _ & H).
  intros first. apply H. reflexivity.
Defined.

(** A preview that stays silent: one spawn, the full deadline, the timeout
    error. *)
Lemma C4_witness :
  spawn silent_env [Spawn "quarto" ["preview"; "index.qmd"]]
    = inr {| pid := 1 |}
  /\ startQuartoPreview silent_env (Some "index.qmd") None []
     = ([Spawn "quarto" ["preview"; "index.qmd"]; Wait 60000],
        Thrown (Error_ readiness_timeout_message)).
Proof.
  split; [reflexivity|].
  destruct (C4_timeout_races_the_scan silent_env (Some "index.qmd") None []
              true {| chunks := []; ending := Never |})
    as (_ & _ & _ & _ & _ & H).
  apply (H {| pid := 1 |}); [reflexivity|].
  intros t Ht. discriminate Ht.
Defined.


Example stubborn_process_trace :
  stopQuartoPreview stubborn_env (inr {| pid := 7 |}) []
  = ([Kill {| pid := 7 |} SIGTERM; Wait 2000; Kill {| pid := 7 |} SIGKILL;
      Run "pkill" ["-f"; preview_pattern]; Wait 500;
      Run "pgrep" ["-f"; preview_pattern]],
     Returned tt).
Proof. reflexivity. Qed.

(** A capture that leaves a file of 4096 bytes, and one that fails. *)
Lemma C9_witness :
  (exists new, captureScreen calm_env "/work/out/a/screenshot.png" sample_rect []
               = (new, Returned true))
  /\ (exists new, captureScreen capture_failing_env "/work/out/a/screenshot.png"
                    sample_rect [] = (new, Returned false)).
Proof.
  split.
  - destruct (C9_capture_is_total calm_env "/work/out/a/screenshot.png"
                sample_rect []) as (new & b & E & [_ Hb] & _).
    exists new. rewrite E. f_equal. f_equal. apply Hb.
    exists {| success := true; stdout := "" |}, {| size := 4096 |}.
    repeat split. discriminate.
  - destruct (C9_capture_is_total capture_failing_env
                "/work/out/a/screenshot.png" sample_rect [])
      as (new & b & E & _ & _ & Hb & _).
    exists new. rewrite E. f_equal. f_equal. apply Hb.
    exists {| success := false; stdout := "" |}. split; reflexivity.
Defined.

(** The item whose capture fails. *)
Lemma C1_witness :
  captureScreen capture_failing_env "/work/out/light/screenshot.png" sample_rect
    [Mkdir "/work/out/light";
     Spawn "quarto" ["preview"; "index.qmd"; "--profile"; "light"]; Wait 2500]
  = ([Mkdir "/work/out/light";
      Spawn "quarto" ["preview"; "index.qmd"; "--profile"; "light"]; Wait 2500;
      Run "screencapture"
        ["-x"; "-R"; "0,0,0,0"; "/work/out/light/screenshot.png"]],
     Returned false)
  /\ processItem capture_failing_env sample_item []
     = ([Mkdir "/work/out/light";
         Spawn "quarto" ["preview"; "index.qmd"; "--profile"; "light"]; Wait 2500;
         Run "screencapture"
           ["-x"; "-R"; "0,0,0,0"; "/work/out/light/screenshot.png"]],
        Thrown (Error_ capture_failed_message)).
Proof.
  split; [reflexivity|].
  apply (C1_capture_failure_propagates_unstopped capture_failing_env sample_item
           []
           [Mkdir "/work/out/light"]
           [Mkdir "/work/out/light";
            Spawn "quarto" ["preview"; "index.qmd"; "--profile"; "light"];
            Wait 2500]
           [Mkdir "/work/out/light";
            Spawn "quarto" ["preview"; "index.qmd"; "--profile"; "light"];
            Wait 2500;
            Run "screencapture"
              ["-x"; "-R"; "0,0,0,0"; "/work/out/light/screenshot.png"]]
           {| process := {| pid := 2 |}; url := "http://localhost:4321" |});
    reflexivity.
Defined.

(** C1 fails on the code: the capture of the sample item fails, and the
    trace of [processItem] has no signal to the preview's process. *)
Lemma C1_counterexample :
  ~ capture_failure_stops_preview capture_failing_env sample_item [].
Proof.
  intros H.
  pose proof (H [Mkdir "/work/out/light"]
                [Mkdir "/work/out/light";
                 Spawn "quarto" ["preview"; "index.qmd"; "--profile"; "light"];
                 Wait 2500]
                [Mkdir "/work/out/light";
                 Spawn "quarto" ["preview"; "index.qmd"; "--profile"; "light"];
                 Wait 2500;
                 Run "screencapture"
                   ["-x"; "-R"; "0,0,0,0"; "/work/out/light/screenshot.png"]]
                {| process := {| pid := 2 |}; url := "http://localhost:4321" |}
                eq_refl eq_refl eq_refl) as K.
  vm_compute in K. intuition discriminate.
Qed.

(** Two profiles, everything works: two whole lives. *)
Lemma C7_witness :
  exists new,
    process_profiles calm_env sample_options sample_rect ["light"; "dark"] []
    = (new, Returned tt)
    /\ count_mark Started (lifecycle new) = 2%nat
    /\ count_mark StopRequested (lifecycle new) = 2%nat.
Proof.
  destruct (C7_items_one_after_the_other calm_env sample_options sample_rect)
    as [H _].
  destruct (H ["light"; "dark"] []) as (new & out & E & _ & Hc).
  exists new. vm_compute in E. injection E as <- <-.
  split; [reflexivity|]. apply (Hc eq_refl).
Defined.

(** C7 fails on the code: over two profiles, with a capture that fails,
    the run spawns one preview and stops none. *)
Lemma C7_counterexample :
  ~ run_starts_and_stops_all capture_failing_env sample_options sample_rect
      ["light"; "dark"].
Proof. intros [H _]. vm_compute in H. discriminate H. Qed.

Example aborted_run_trace :
  process_profiles capture_failing_env sample_options sample_rect
    ["light"; "dark"] []
  = ([Mkdir "/work/out/light";
      Spawn "quarto" ["preview"; "index.qmd"; "--profile"; "light"]; Wait 2500;
      Run "screencapture"
        ["-x"; "-R"; "0,0,0,0"; "/work/out/light/screenshot.png"]],
     Thrown (Error_ capture_failed_message)).
Proof. reflexivity. Qed.

(** Both flags, with a commit. *)
Lemma C8_witness :
  parse_named calm_env ["--start-commit"; "abc123"; "--profile-group"; "1"]
    initial_vars
  = inr {| v_inputDir := "."; v_file := None; v_startCommit := Some "abc123";
           v_copyFile := None; v_profileGroupIndex := Some (Finite 1) |}
  /\ "abc123" <> ""
  /\ main calm_env ["out"; "--start-commit"; "abc123"; "--profile-group"; "1"] []
     = ([PermissionQuery "run"; PermissionQuery "read"; PermissionQuery "write"],
        Exited 1).
Proof.
  split; [reflexivity|]. split; [discriminate|].
  destruct (C8_both_modes_is_fatal calm_env "out"
              ["--start-commit"; "abc123"; "--profile-group"; "1"]
              _ "abc123" (Finite 1) eq_refl eq_refl
              ltac:(discriminate) eq_refl) as [_ H].
  destruct (H []) as (new & E & _).
  vm_compute in E. injection E as <-. reflexivity.
Defined.

(** C8 fails on the code: both flags are on the command line, the commit
    is the empty string, and the command line parses. *)
Lemma C8_counterexample :
  ~ both_modes_rejected calm_env ["out"; "--start-commit"; ""; "--profile-group"].
Proof.
  intros H. destruct H as [e He].
  - simpl. auto.
  - simpl. auto.
  - vm_compute in He. discriminate He.
Qed.

Example empty_commit_runs_profiles :
  parseArgs calm_env ["out"; "--start-commit"; ""; "--profile-group"]
  = inr {| outputDir := "/work/out"; inputDir := "/work/.";
           file := None; startCommit := Some ""; copyFile_opt := None;
           profileGroupIndex := Some (Finite 0) |}
  /\ hd_error (skipn 3 (fst (main calm_env
                 ["out"; "--start-commit"; ""; "--profile-group"] [])))
     = Some GetLastSelectionRect.
Proof. split; reflexivity. Qed.

(** A complete option, then a value flag with nothing after it. *)
Lemma C10_witness :
  In "--start-commit" value_flags
  /\ parse_named calm_env ["--file"; "a.qmd"] initial_vars
     = inr {| v_inputDir := "."; v_file := Some "a.qmd"; v_startCommit := None;
              v_copyFile := None; v_profileGroupIndex := None |}
  /\ parseArgs calm_env ["out"; "--file"; "a.qmd"; "--start-commit"]
     = inl (unknown_argument "--start-commit").
Proof.
  split; [simpl; auto|]. split; [reflexivity|].
  apply (C10_trailing_value_flag calm_env "out" ["--file"; "a.qmd"]
           (set_file initial_vars "a.qmd") "--start-commit");
    [simpl; auto | reflexivity].
Defined.

(** C10 fails on the code: the last argument is [--file], it is read as
    the value of [--input], and the command line parses. *)
Lemma C10_counterexample :
  ~ trailing_flag_rejected calm_env ["out"; "--input"; "--file"].
Proof.
  intros H. specialize (H "--file").
  assert (K : parseArgs calm_env ["out"; "--input"; "--file"]
              = inl (unknown_argument "--file")).
  { apply H; [simpl; auto | reflexivity]. }
  vm_compute in K. discriminate K.
Qed.

Example trailing_flag_taken_as_value :
  parseArgs calm_env ["out"; "--input"; "--file"]
  = inr {| outputDir := "/work/out"; inputDir := "/work/--file";
           file := None; startCommit := None; copyFile_opt := None;
           profileGroupIndex := None |}.
Proof. reflexivity. Qed.

(* ================================================================== *)
(** ** More about the strings *)

Lemma append_assoc (a b c : string) : (a +++ b) +++ c = a +++ b +++ c.
Proof. induction a as [|x a IH]; simpl; [reflexivity | now rewrite IH]. Qed.

Lemma append_empty_r (a : string) : a +++ "" = a.
Proof. induction a as [|x a IH]; simpl; [reflexivity | now rewrite IH]. Qed.

Lemma drop_prefix_spec (p s r : string) :
  drop_prefix p s = Some r -> s = p +++ r.
Proof.
  revert s. induction p as [|a p IH]; intros s H; simpl in *.
  - now injection H as ->.
  - destruct s as [|b s]; [discriminate|].
    destruct (Ascii.eqb a b) eqn:E; [|discriminate].
    apply Ascii.eqb_eq in E. subst b. now rewrite (IH s H).
Qed.

Lemma drop_prefix_append (p r : string) : drop_prefix p (p +++ r) = Some r.
Proof.
  induction p as [|a p IH]; simpl; [reflexivity|].
  now rewrite Ascii.eqb_refl.
Qed.

Lemma take_drop_while (p : ascii -> bool) (s : string) :
  s = take_while p s +++ drop_while p s.
Proof.
  induction s as [|c s IH]; simpl; [reflexivity|].
  destruct (p c); simpl; [now rewrite <- IH | reflexivity].
Qed.

Lemma take_while_forall (p : ascii -> bool) (s : string) :
  string_forall p (take_while p s) = true.
Proof.
  induction s as [|c s IH]; simpl; [reflexivity|].
  destruct (p c) eqn:E; simpl; [now rewrite E | reflexivity].
Qed.

Lemma take_while_all (p : ascii -> bool) (s r : string) :
  string_forall p s = true ->
  exists r', take_while p (s +++ r) = s +++ r'.
Proof.
  induction s as [|c s IH]; simpl; intros H.
  - eexists. reflexivity.
  - apply andb_true_iff in H as [Hc Hs]. rewrite Hc.
    destruct (IH Hs) as [r' ->]. eexists. reflexivity.
Qed.

Lemma prefix_append (a b : string) : String.prefix a (a +++ b) = true.
Proof.
  induction a as [|c a IH]; simpl.
  - now destruct b.
  - destruct (ascii_dec c c); [exact IH | contradiction].
Qed.

Lemma includes_here (needle s : string) :
  String.prefix needle s = true -> includes needle s = true.
Proof.
  intros H. destruct s; unfold includes; fold includes; now rewrite H.
Qed.

Lemma includes_later (needle : string) (c : ascii) (s : string) :
  includes needle s = true -> includes needle (String c s) = true.
Proof.
  intros H. unfold includes; fold includes. rewrite H. apply orb_true_r.
Qed.

Lemma includes_append (needle pre post : string) :
  includes needle (pre +++ needle +++ post) = true.
Proof.
  induction pre as [|c pre IH]; simpl.
  - apply includes_here, prefix_append.
  - now apply includes_later.
Qed.

Lemma nonempty_head (s : string) :
  s <> "" -> exists c s', s = String c s'.
Proof. destruct s as [|c s']; [contradiction | eauto]. Qed.

(* ================================================================== *)
(** ** More about the readiness scan *)

Lemma listening_here_form (s u : string) :
  listening_here s = Some u ->
  exists host rest,
    u = "http://" +++ host /\ host <> ""
    /\ string_forall url_char host = true
    /\ s = "Listening on " +++ u +++ rest.
Proof.
  unfold listening_here.
  destruct (drop_prefix _ s) as [r|] eqn:E; [|discriminate].
  destruct (String.eqb _ _) eqn:Eh; [discriminate|].
  intros [= <-]. apply String.eqb_neq in Eh.
  exists (take_while url_char r), (drop_while url_char r).
  split; [reflexivity|]. split; [exact Eh|].
  split; [apply take_while_forall|].
  apply drop_prefix_spec in E. rewrite E at 1.
  rewrite (take_drop_while url_char r) at 1. reflexivity.
Qed.

Lemma listeningMatch_form (text u : string) :
  listeningMatch text = Some u ->
  exists host,
    u = "http://" +++ host /\ host <> ""
    /\ string_forall url_char host = true
    /\ includes ("Listening on " +++ u) text = true.
Proof.
  induction text as [|c text IH]; unfold listeningMatch; fold listeningMatch.
  - destruct (listening_here "") eqn:E; [|discriminate].
    intros [= <-]. destruct (listening_here_form _ _ E) as (h & r & ? & ? & ? & Hs).
    discriminate Hs.
  - destruct (listening_here (String c text)) eqn:E.
    + intros [= <-].
      destruct (listening_here_form _ _ E) as (h & r & Hu & Hne & Hall & Hs).
      exists h. repeat split; trivial.
      rewrite Hs. rewrite <- append_assoc.
      apply includes_here, prefix_append.
    + intros H. destruct (IH H) as (h & Hu & Hne & Hall & Hi).
      exists h. repeat split; trivial. now apply includes_later.
Qed.

Lemma listening_here_found (host rest : string) :
  host <> "" -> string_forall url_char host = true ->
  exists u, listening_here ("Listening on http://" +++ host +++ rest) = Some u.
Proof.
  intros Hne Hall. unfold listening_here.
  rewrite drop_prefix_append.
  destruct (take_while_all url_char host rest Hall) as [r' ->].
  destruct (nonempty_head host Hne) as (c & h' & ->). simpl.
  eexists. reflexivity.
Qed.

Lemma listeningMatch_here (s u : string) :
  listening_here s = Some u -> listeningMatch s = Some u.
Proof. intros H. destruct s; unfold listeningMatch; now rewrite H. Qed.

(** X1.  The URL that the scan takes from a chunk is a bare origin:
    [http://] and then a non-empty run of characters with no slash and no
    white space in it (the path and anything after it are cut off), and
    the chunk contains [Listening on ] followed by exactly that URL.  An
    announcement is found wherever it stands in the chunk. *)
Theorem listening_url_is_bare_origin (text : string) :
  (forall u, listeningMatch text = Some u ->
     exists host,
       u = "http://" +++ host /\ host <> ""
       /\ string_forall url_char host = true
       /\ includes ("Listening on " +++ u) text = true)
  /\ (forall pre host rest,
        text = pre +++ "Listening on http://" +++ host +++ rest ->
        host <> "" -> string_forall url_char host = true ->
        exists u, listeningMatch text = Some u).
Proof.
  split; [intros u; apply listeningMatch_form|].
  intros pre host rest -> Hne Hall.
  induction pre as [|c pre IH].
  - destruct (listening_here_found host rest Hne Hall) as [u Hu].
    exists u. cbn [append]. now apply listeningMatch_here.
  - cbn [append]. unfold listeningMatch; fold listeningMatch.
    destruct (listening_here _); [eauto | exact IH].
Qed.

Lemma record_url_cases (url text : string) :
  record_url url text = url
  \/ (url = "" /\ listeningMatch text = Some (record_url url text)).
Proof.
  unfold record_url. destruct (listeningMatch text) as [u|]; [|now left].
  destruct (String.eqb_spec url ""); [right | left]; auto.
Qed.

(** A scan that fulfils does so the settle delay after a chunk with the
    marker, with a URL that is not empty and is the one it started with or
    one announced by a chunk. *)
Lemma loop_fulfilled (cs : list (N * string)) (e : StreamEnd) :
  forall (url : string) (now t : N) (u : string),
    processStderr_loop url now cs e = Fulfilled t u ->
    now + settle_delay <= t
    /\ u <> ""
    /\ (u = url \/ exists c, In c cs /\ listeningMatch (snd c) = Some u)
    /\ exists c, In c cs /\ has_marker c = true.
Proof.
  induction cs as [|[dt text] cs IH]; intros url now t u H.
  - simpl in H. destruct e; discriminate.
  - cbn [processStderr_loop] in H.
    destruct (includes "GET:" text && negb (record_url url text =? "")%string)
      eqn:E.
    + injection H as <- <-. apply andb_true_iff in E as [Em Eu].
      apply negb_true_iff, String.eqb_neq in Eu.
      split; [lia|]. split; [exact Eu|]. split.
      * destruct (record_url_cases url text) as [->|[_ Hl]]; [now left|].
        right. exists (dt, text). split; [now left | exact Hl].
      * exists (dt, text). split; [now left | exact Em].
    + destruct (IH _ _ _ _ H) as (Ht & Hu & Hfrom & c & Hc & Hm).
      split; [lia|]. split; [exact Hu|]. split.
      * destruct Hfrom as [->|(c' & Hc' & Hl)].
        -- destruct (record_url_cases url text) as [->|[_ Hl]]; [now left|].
           right. exists (dt, text). split; [now left | exact Hl].
        -- right. exists c'. split; [now right | exact Hl].
      * exists c. split; [now right | exact Hm].
Qed.

(** A wait that fulfils is a scan that fulfilled at or before the
    deadline. *)
Lemma wait_fulfilled (first : bool) (s : Stream) (t : N) (u : string) :
  waitForQuartoServer first s = Fulfilled t u ->
  processStderr s = Fulfilled t u /\ t <= readiness_timeout.
Proof.
  unfold waitForQuartoServer, reject_after, race.
  destruct (processStderr s) as [t' u'|t' e'|]; cbn [settle_time].
  - destruct (t' <? readiness_timeout) eqn:E1.
    + intros [= <- <-]. apply N.ltb_lt in E1. split; [reflexivity | lia].
    + destruct (readiness_timeout <? t') eqn:E2; [discriminate|].
      apply N.ltb_ge in E1, E2.
      destruct first; [|discriminate].
      intros [= <- <-]. split; [reflexivity | lia].
  - destruct (t' <? readiness_timeout); [discriminate|].
    destruct (readiness_timeout <? t'); [discriminate|].
    destruct first; discriminate.
  - discriminate.
Qed.

(** X2.  A start that returns took between the settle delay and the
    deadline, after one spawn; its handle holds the process that the spawn
    gave and a URL that a chunk of the child's stderr announced, a bare
    origin; and some chunk of that stderr carried the request marker. *)
Theorem start_returns_ready_handle (env : Env) (file profile : option string)
    (tr tr' : Trace) (q : QuartoPreviewResult) :
  startQuartoPreview env file profile tr = (tr', Returned q) ->
  let tr1 := tr ++ [Spawn "quarto" (preview_args file profile)] in
  spawn env tr1 = inr (process q)
  /\ (exists t, tr' = tr1 ++ [Wait t]
                /\ settle_delay <= t <= readiness_timeout)
  /\ (exists c host,
        In c (chunks (stderr_of env tr1))
        /\ listeningMatch (snd c) = Some (url q)
        /\ url q = "http://" +++ host /\ host <> ""
        /\ string_forall url_char host = true)
  /\ (exists c, In c (chunks (stderr_of env tr1)) /\ has_marker c = true).
Proof.
  intros H tr1. rewrite startQuartoPreview_run in H. cbv zeta in H.
  fold tr1 in H.
  destruct (spawn env tr1) as [e|p]; [discriminate|].
  destruct (waitForQuartoServer _ _) as [t u|t e|] eqn:W; try discriminate.
  injection H as <- <-. cbn [process url].
  destruct (wait_fulfilled _ _ _ _ W) as [Hscan Hle].
  unfold processStderr in Hscan.
  destruct (loop_fulfilled _ _ _ _ _ _ Hscan) as (Ht & Hu & Hfrom & Hm).
  split; [reflexivity|]. split.
  { exists t. split; [reflexivity|]. lia. }
  split; [|exact Hm].
  destruct Hfrom as [->|(c & Hc & Hl)]; [contradiction|].
  destruct (listeningMatch_form _ _ Hl) as (host & Hhost & Hne & Hall & _).
  exists c, host. auto.
Qed.

Lemma loop_never_completes (cs : list (N * string)) (e : StreamEnd) (now : N) :
  marker_never_completes cs = true ->
  processStderr_loop "" now cs e
  = processStderr_loop "" (now + elapsed cs) [] e.
Proof.
  revert now. induction cs as [|[d text] cs IH]; intros now H.
  - simpl. now rewrite N.add_0_r.
  - cbn [marker_never_completes] in H.
    destruct (announces (d, text)) eqn:Ha.
    + apply negb_true_iff, existsb_false_forallb in H.
      cbn [forallb] in H. apply andb_true_iff in H as [Hc Hcs].
      apply negb_true_iff in Hc. unfold has_marker in Hc. simpl in Hc.
      unfold announces in Ha. simpl in Ha.
      destruct (listeningMatch text) as [u|] eqn:Hl; [|discriminate].
      cbn [processStderr_loop]. rewrite Hc. cbn [andb].
      rewrite (record_url_first _ _ Hl).
      rewrite <- (app_nil_r cs) at 1.
      rewrite (loop_skip_unmarked u cs [] e _
                 (listeningMatch_nonempty _ _ Hl) Hcs).
      simpl. replace (now + d + elapsed cs) with (now + (d + elapsed cs)) by lia.
      reflexivity.
    + cbn [processStderr_loop].
      pose proof (record_url_quiet "" (d, text) Ha) as Hq. simpl in Hq.
      rewrite Hq. simpl. rewrite andb_false_r, (IH _ H).
      replace (now + d + elapsed cs) with (now + (d + elapsed cs)) by lia.
      reflexivity.
Qed.

(** X3.  When the request marker never comes at or after an announcement:
    a read of stderr that fails rejects the scan with the error of the
    read, unchanged, at the instant of the failure, and the wait with it if
    that is before the deadline; a stream that stays open and silent leaves
    the scan pending for ever, and the wait rejects with the timeout error
    at the deadline exactly. *)
Theorem scan_without_readiness (cs : list (N * string)) :
  marker_never_completes cs = true ->
  (forall dt err,
     let s := {| chunks := cs; ending := ReadFails dt err |} in
     processStderr s = Rejected (elapsed cs + dt) err
     /\ forall first, elapsed cs + dt < readiness_timeout ->
          waitForQuartoServer first s = Rejected (elapsed cs + dt) err)
  /\ (let s := {| chunks := cs; ending := Never |} in
      processStderr s = Pending
      /\ forall first,
           waitForQuartoServer first s
           = Rejected readiness_timeout (Error_ readiness_timeout_message)).
Proof.
  intros H. split.
  - intros dt err s.
    assert (Hs : processStderr s = Rejected (elapsed cs + dt) err).
    { unfold processStderr, s. cbn [chunks ending].
      now rewrite (loop_never_completes cs _ 0 H). }
    split; [exact Hs|]. intros first Hlt.
    unfold waitForQuartoServer, reject_after. rewrite Hs.
    now apply race_timer_early with (t := elapsed cs + dt).
  - assert (Hs : processStderr {| chunks := cs; ending := Never |} = Pending).
    { unfold processStderr. cbn [chunks ending].
      now rewrite (loop_never_completes cs _ 0 H). }
    split; [exact Hs|]. intros first.
    unfold waitForQuartoServer, reject_after. rewrite Hs. reflexivity.
Qed.

(* ================================================================== *)
(** ** More about stopping the preview *)







(** Step 3, spelled out. *)
Lemma stop_verify_run (env : Env) (tr : Trace) :
  let search := Run "pgrep" ["-f"; preview_pattern] in
  let force := Run "pkill" ["-9"; "-f"; preview_pattern] in
  stop_verify env tr =
  match output env (tr ++ [search]) with
  | inl _ => (tr ++ [search], Returned tt)
  | inr out =>
      if success out && negb (trim (stdout out) =? "")%string
      then (tr ++ [search; force], Returned tt)
      else (tr ++ [search], Returned tt)
  end.
Proof.
  intros search force. unfold stop_verify, run_command. unfold_m.
  fold search. fold force.
  destruct (output env (tr ++ [search])) as [e|out]; [reflexivity|].
  destruct (success out); [|reflexivity].
  destruct (negb _); simpl; [|reflexivity].
  destruct (output env ((tr ++ [search]) ++ [force]));
    now rewrite app_cons_assoc.
Qed.

(** X5.  The forceful sweep ([pkill -9] on the pattern) is the last thing a
    stop can do, and it is done exactly when the verification search came
    back successful with something other than white space on its stdout.
    A search that could not be run, that failed, or that printed nothing
    ends the stop without it. *)
Theorem forceful_sweep_only_for_survivors (env : Env)
    (result : QuartoPreviewResult + Process) (tr : Trace) :
  let search := Run "pgrep" ["-f"; preview_pattern] in
  let force := Run "pkill" ["-9"; "-f"; preview_pattern] in
  exists before after,
    stopQuartoPreview env result tr
    = ((tr ++ before) ++ search :: after, Returned tt)
    /\ ~ In force before
    /\ (after = [] \/ after = [force])
    /\ (after = [force] <->
        exists out,
          output env ((tr ++ before) ++ [search]) = inr out
          /\ success out = true /\ trim (stdout out) <> "").
Proof.
  intros search force.
  destruct (stop_known_shape env (handle_process result) tr) as [s1 [E1 H1]].
  destruct (stop_orphans_shape env (tr ++ s1)) as [s2 [E2 H2]].
  exists (s1 ++ s2).
  assert (Hstop : stopQuartoPreview env result tr
                  = stop_verify env (tr ++ s1 ++ s2)).
  { unfold stopQuartoPreview, try_catch, bind. fold (handle_process result).
    rewrite E1, E2, <- app_assoc.
    destruct (stop_verify_shape env (tr ++ s1 ++ s2)) as [s3 [E3 _]].
    now rewrite E3. }
  assert (Hno : ~ In force (s1 ++ s2)).
  { intros Hin. apply in_app_or in Hin as [Hin|Hin].
    - destruct H1 as [->|[t [_ [->| ->]]]]; simpl in Hin;
        intuition discriminate.
    - destruct H2 as [->| ->]; simpl in Hin; intuition discriminate. }
  rewrite Hstop, stop_verify_run. cbv zeta. fold search. fold force.
  destruct (output env ((tr ++ s1 ++ s2) ++ [search])) as [e|out] eqn:Eo.
  - exists []. split; [reflexivity|]. split; [exact Hno|].
    split; [now left|]. split; [discriminate|].
    intros (o & Ho & _). discriminate.
  - destruct (success out) eqn:Es; cbn [andb].
    + destruct (String.eqb_spec (trim (stdout out)) "") as [Et|Et]; cbn [negb].
      * exists []. split; [reflexivity|]. split; [exact Hno|].
        split; [now left|]. split; [discriminate|].
        intros (o & [= <-] & _ & Hne). contradiction.
      * exists [force]. split; [now rewrite <- app_assoc|].
        split; [exact Hno|]. split; [now right|].
        split; [|reflexivity]. intros _. exists out. auto.
    + exists []. split; [reflexivity|]. split; [exact Hno|].
      split; [now left|]. split; [discriminate|].
      intros (o & [= <-] & Hs & _). congruence.
Qed.

(* ================================================================== *)
(** ** More about one item *)

(** Every run of [processItem] is one of the ways of [item_trace]. *)
Lemma processItem_item_trace (env : Env) (o : ProcessItemOptions) (tr : Trace) :
  exists new out,
    processItem env o tr = (tr ++ new, out) /\ item_trace env o new out.
Proof.
  unfold processItem. fold (item_dir o).
  change (item_dir o +++ "/screenshot.png") with (screenshot_path o).
  (* ensureDir *)
  unfold bind at 1.
  assert (Hd : ensureDir env (item_dir o) tr = (tr ++ [Mkdir (item_dir o)], Returned tt)
               \/ exists e, ensureDir env (item_dir o) tr
                            = (tr ++ [Mkdir (item_dir o)], Thrown e)).
  { unfold ensureDir. unfold_m. destruct (mkdir env _) as [e|]; [|now left].
    destruct (name e =? "AlreadyExists")%string; [now left | right; eauto]. }
  destruct Hd as [Hd|[e Hd]]; rewrite Hd.
  2:{ eexists _, _. split; [reflexivity | constructor]. }
  (* startQuartoPreview *)
  unfold bind at 1. rewrite startQuartoPreview_run. cbv zeta.
  fold (spawn_command o).
  set (tr1 := (tr ++ [Mkdir (item_dir o)]) ++ [spawn_command o]).
  assert (Etr1 : tr1 = tr ++ [Mkdir (item_dir o); spawn_command o]).
  { unfold tr1. now rewrite app_cons_assoc. }
  destruct (spawn env tr1) as [e|p].
  { rewrite Etr1. eexists _, _. split; [reflexivity | constructor]. }
  destruct (waitForQuartoServer _ _) as [t u|t e|] eqn:W.
  3:{ pose proof (race_timer_settles (race_tie env tr1)
                    (processStderr (stderr_of env tr1)) readiness_timeout
                    (Error_ readiness_timeout_message)) as [t [Ht _]].
      unfold waitForQuartoServer, reject_after in W. rewrite W in Ht.
      discriminate. }
  2:{ pose proof (race_timer_settles (race_tie env tr1)
                    (processStderr (stderr_of env tr1)) readiness_timeout
                    (Error_ readiness_timeout_message)) as [t' [Ht Hle]].
      unfold waitForQuartoServer, reject_after in W. rewrite W in Ht.
      injection Ht as <-.
      rewrite Etr1, <- app_assoc. cbn [app].
      eexists _, _. split; [reflexivity | now constructor]. }
  destruct (wait_fulfilled _ _ _ _ W) as [Hscan Hle].
  unfold processStderr in Hscan.
  destruct (loop_fulfilled _ _ _ _ _ _ Hscan) as (Hge & _).
  assert (Ht : settle_delay <= t <= readiness_timeout) by lia.
  set (tr2 := tr1 ++ [Wait t]).
  assert (Etr2 : tr2 = tr ++ [Mkdir (item_dir o); spawn_command o; Wait t]).
  { unfold tr2. rewrite Etr1, <- app_assoc. reflexivity. }
  (* captureScreen *)
  unfold bind at 1. rewrite captureScreen_run. cbv zeta.
  fold (capture_command env o).
  set (tr3 := tr2 ++ [capture_command env o]).
  assert (Etr3 : tr3 = tr ++ [Mkdir (item_dir o); spawn_command o; Wait t;
                              capture_command env o]).
  { unfold tr3. rewrite Etr2, <- app_assoc. reflexivity. }
  assert (Etr4 : tr3 ++ [Stat (screenshot_path o)]
                 = tr ++ [Mkdir (item_dir o); spawn_command o; Wait t;
                          capture_command env o; Stat (screenshot_path o)]).
  { rewrite Etr3, <- app_assoc. reflexivity. }
  destruct (output env tr3) as [e|out].
  { unfold bind, throw. rewrite Etr3.
    eexists _, _. split; [reflexivity | now constructor]. }
  destruct (success out).
  2:{ unfold bind, throw. rewrite Etr3.
      eexists _, _. split; [reflexivity | now constructor]. }
  destruct (stat env _) as [e|info].
  { unfold bind, throw. rewrite Etr4.
    eexists _, _. split; [reflexivity | now constructor]. }
  destruct (size info =? 0); cbn [negb].
  { unfold bind, throw. rewrite Etr4.
    eexists _, _. split; [reflexivity | now constructor]. }
  unfold bind at 1. unfold ret at 1. rewrite Etr4.
  (* stopQuartoPreview *)
  set (q := {| process := p; url := u |}).
  destruct (stopQuartoPreview_shape env (inl q)
              (tr ++ [Mkdir (item_dir o); spawn_command o; Wait t;
                      capture_command env o; Stat (screenshot_path o)]))
    as (s1 & s2 & s3 & E & _ & H1 & H2 & H3).
  unfold bind at 1. rewrite E.
  assert (Hs : stop_trace p (s1 ++ s2 ++ s3)) by now constructor.
  set (s := s1 ++ s2 ++ s3) in *.
  (* copyFile *)
  destruct (truthy (item_copyFile o)) as [c|] eqn:Ec.
  - destruct (copyFile_run env c (item_dir o +++ "/" +++ path_basename env c)
                ((tr ++ [Mkdir (item_dir o); spawn_command o; Wait t;
                         capture_command env o; Stat (screenshot_path o)])
                 ++ s)) as (b & E4).
    unfold bind. rewrite E4. fold (copy_command env o c).
    rewrite <- !app_assoc.
    destruct b; unfold ret, throw; eexists _, _;
      (split; [reflexivity|]).
    + now apply item_copied with (p := p).
    + now apply item_copy_failed with (p := p).
  - unfold ret. rewrite <- !app_assoc. eexists _, _. split; [reflexivity|].
    now apply item_done with (p := p).
Qed.

Lemma processItem_way (env : Env) (o : ProcessItemOptions)
    (tr tr' : Trace) (out : Outcome unit) :
  processItem env o tr = (tr', out) ->
  exists new, tr' = tr ++ new /\ item_trace env o new out.
Proof.
  intros H. destruct (processItem_item_trace env o tr) as (new & out' & E & Hw).
  rewrite E in H. injection H as <- <-. eauto.
Qed.

Ltac within_item_events :=
  repeat (apply Forall_cons || apply Forall_nil); simpl; auto.

Lemma stop_trace_within (env : Env) (o : ProcessItemOptions) (p : Process)
    (s : Trace) :
  stop_trace p s -> Forall (within_item env o) s.
Proof.
  intros [s1 s2 s3 H1 H2 H3]. rewrite !Forall_app. repeat split.
  - destruct H1 as [->|[t [_ [->| ->]]]]; within_item_events.
  - destruct H2 as [->| ->]; within_item_events.
  - destruct H3 as [->| ->]; within_item_events.
Qed.

Lemma stop_trace_marks (p : Process) (s : Trace) :
  stop_trace p s -> lifecycle s = [StopRequested; StopVerified].
Proof.
  intros [s1 s2 s3 H1 H2 H3].
  now rewrite !lifecycle_app, (step1_marks _ _ H1), (step2_marks _ H2),
    (step3_marks _ H3).
Qed.

Lemma stop_trace_no_copy (p : Process) (s : Trace) (src dst : string) :
  stop_trace p s -> ~ In (CopyFile src dst) s.
Proof.
  intros [s1 s2 s3 H1 H2 H3] Hin.
  apply in_app_or in Hin as [Hin|Hin]; [|apply in_app_or in Hin as [Hin|Hin]].
  - destruct H1 as [->|[t [_ [->| ->]]]]; simpl in Hin; intuition discriminate.
  - destruct H2 as [->| ->]; simpl in Hin; intuition discriminate.
  - destruct H3 as [->| ->]; simpl in Hin; intuition discriminate.
Qed.

(** X6.  Whatever an item does to the file system it does in its own
    directory OUTPUT_DIR/<item-id>: making that directory is the first
    thing it does; the capture is written to, and looked for at,
    OUTPUT_DIR/<item-id>/screenshot.png; a copy goes to
    OUTPUT_DIR/<item-id>/<basename of the copy file>.  The preview is
    spawned with the item's file and profile, and the item asks for no
    permission, rectangle, profile list, history or checkout. *)
Theorem item_works_in_its_directory (env : Env) (o : ProcessItemOptions)
    (tr tr' : Trace) (out : Outcome unit) :
  processItem env o tr = (tr', out) ->
  exists new,
    tr' = tr ++ new
    /\ hd_error new = Some (Mkdir (item_dir o))
    /\ Forall (within_item env o) new.
Proof.
  intros H. destruct (processItem_way _ _ _ _ _ H) as (new & -> & Hw).
  exists new. split; [reflexivity|].
  destruct Hw; (split; [reflexivity|]);
    try (within_item_events; fail).
  - apply Forall_app. split; [within_item_events|].
    eapply stop_trace_within; eauto.
  - apply Forall_app. split; [within_item_events|].
    apply Forall_app. split; [eapply stop_trace_within; eauto|].
    within_item_events.
  - apply Forall_app. split; [within_item_events|].
    apply Forall_app. split; [eapply stop_trace_within; eauto|].
    within_item_events.
Qed.

(** X7.  When the preview was spawned and its readiness wait rejects (the
    deadline passed, stderr ended or a read failed), [processItem] throws
    the error of the wait, and all it has done is make the directory, spawn
    and wait: no signal goes to the spawned process and no sweep is run, so
    the process is left as it is. *)
Theorem readiness_failure_leaves_preview_running (env : Env)
    (o : ProcessItemOptions) (tr : Trace) (p : Process) (t : N) (e : JsError) :
  let tr0 := tr ++ [Mkdir (item_dir o)] in
  let tr1 := tr0 ++ [spawn_command o] in
  ensureDir env (item_dir o) tr = (tr0, Returned tt) ->
  spawn env tr1 = inr p ->
  waitForQuartoServer (race_tie env tr1) (stderr_of env tr1) = Rejected t e ->
  processItem env o tr
  = (tr ++ [Mkdir (item_dir o); spawn_command o; Wait t], Thrown e)
  /\ signalled [Mkdir (item_dir o); spawn_command o; Wait t] = []
  /\ forallb (fun ev => negb (is_stop_event ev))
       [Mkdir (item_dir o); spawn_command o; Wait t] = true.
Proof.
  intros tr0 tr1 Hd Hp Hw. split; [|split; reflexivity].
  unfold processItem. fold (item_dir o). unfold bind at 1. rewrite Hd.
  unfold bind at 1. rewrite startQuartoPreview_run. cbv zeta.
  fold (spawn_command o). fold tr0. fold tr1. rewrite Hp, Hw.
  unfold tr1, tr0. now rewrite <- !app_assoc.
Qed.

(** X8.  The copy of the extra file is attempted only when a non-empty copy
    file is configured, and then only as the last thing the item does,
    after its preview was spawned, stopped and verified; an item that
    returns with a copy file configured has made the copy, to
    OUTPUT_DIR/<item-id>/<basename>. *)
Theorem copy_comes_after_the_stop (env : Env) (o : ProcessItemOptions)
    (tr tr' : Trace) (out : Outcome unit) :
  processItem env o tr = (tr', out) ->
  exists new,
    tr' = tr ++ new
    /\ (forall src dst, In (CopyFile src dst) new ->
          truthy (item_copyFile o) = Some src
          /\ exists before,
               new = before ++ [copy_command env o src]
               /\ lifecycle before = cycles 1)
    /\ (out = Returned tt ->
        forall c, truthy (item_copyFile o) = Some c ->
          In (copy_command env o c) new).
Proof.
  intros H. destruct (processItem_way _ _ _ _ _ H) as (new & -> & Hw).
  exists new. split; [reflexivity|].
  destruct Hw as [e|e|t e Ht|t Ht|t Ht|t p s Ht Hs Hc|t p s c Ht Hs Hc
                  |t p s c Ht Hs Hc].
  1-5: split; [intros src dst Hin; simpl in Hin; intuition discriminate
              | discriminate].
  - split.
    + intros src dst Hin. exfalso. apply in_app_or in Hin as [Hin|Hin].
      * simpl in Hin; intuition discriminate.
      * eapply stop_trace_no_copy; eauto.
    + intros _ c Hc'. congruence.
  - assert (Hlife : lifecycle
                      ([Mkdir (item_dir o); spawn_command o; Wait t;
                        capture_command env o; Stat (screenshot_path o)] ++ s)
                    = cycles 1).
    { rewrite lifecycle_app, (stop_trace_marks _ _ Hs). reflexivity. }
    split.
    + intros src dst Hin.
      apply in_app_or in Hin as [Hin|Hin];
        [simpl in Hin; intuition discriminate|].
      apply in_app_or in Hin as [Hin|Hin];
        [exfalso; eapply stop_trace_no_copy; eauto|].
      destruct Hin as [Hin|[]]. injection Hin as <- _.
      split; [exact Hc|]. eexists. split; [|exact Hlife].
      now rewrite <- app_assoc.
    + intros _ c' Hc'. assert (c' = c) by congruence. subst c'.
      apply in_or_app. right. apply in_or_app. right. now left.
  - assert (Hlife : lifecycle
                      ([Mkdir (item_dir o); spawn_command o; Wait t;
                        capture_command env o; Stat (screenshot_path o)] ++ s)
                    = cycles 1).
    { rewrite lifecycle_app, (stop_trace_marks _ _ Hs). reflexivity. }
    split; [|discriminate].
    intros src dst Hin.
    apply in_app_or in Hin as [Hin|Hin];
      [simpl in Hin; intuition discriminate|].
    apply in_app_or in Hin as [Hin|Hin];
      [exfalso; eapply stop_trace_no_copy; eauto|].
    destruct Hin as [Hin|[]]. injection Hin as <- _.
    split; [exact Hc|]. eexists. split; [|exact Hlife].
    now rewrite <- app_assoc.
Qed.

(* ================================================================== *)
(** ** More about the run *)

Lemma item_trace_came_back (env : Env) (o : ProcessItemOptions)
    (new : Trace) (out : Outcome unit) :
  item_trace env o new out -> came_back out.
Proof. intros []; exact I. Qed.

Lemma item_trace_within (env : Env) (o : ProcessItemOptions)
    (new : Trace) (out : Outcome unit) :
  item_trace env o new out -> Forall (within_item env o) new.
Proof.
  intros Hw. destruct Hw; try (within_item_events; fail).
  - apply Forall_app. split; [within_item_events|].
    eapply stop_trace_within; eauto.
  - apply Forall_app. split; [within_item_events|].
    apply Forall_app. split; [eapply stop_trace_within; eauto|].
    within_item_events.
  - apply Forall_app. split; [within_item_events|].
    apply Forall_app. split; [eapply stop_trace_within; eauto|].
    within_item_events.
Qed.

(** A loop whose body comes back with events that satisfy [P] comes back
    with events that satisfy [P]. *)
Lemma for_each_forall {A} (P : Event -> Prop) (body : A -> M unit) :
  (forall a tr, exists new out,
      body a tr = (tr ++ new, out) /\ came_back out /\ Forall P new) ->
  forall l tr, exists new out,
      for_each body l tr = (tr ++ new, out) /\ came_back out /\ Forall P new.
Proof.
  intros Hbody. induction l as [|a l IH]; intros tr.
  - exists [], (Returned tt). cbn [for_each]. unfold ret.
    rewrite app_nil_r. repeat split. constructor.
  - destruct (Hbody a tr) as (n1 & o1 & E1 & C1 & F1).
    cbn [for_each]. unfold bind. rewrite E1.
    destruct o1 as [[]|e|c|]; try contradiction.
    + destruct (IH (tr ++ n1)) as (n2 & o2 & E2 & C2 & F2).
      rewrite E2, <- app_assoc. exists (n1 ++ n2), o2.
      repeat split; trivial. apply Forall_app. now split.
    + exists n1, (Thrown e). repeat split; trivial.
Qed.

Lemma profile_body_within (env : Env) (options : QuartoRecordOptions)
    (rect : ScreenRect) (P : Event -> Prop) :
  (forall profile ev,
      within_item env (profile_item options rect profile) ev -> P ev) ->
  forall profiles tr, exists new out,
    process_profiles env options rect profiles tr = (tr ++ new, out)
    /\ came_back out /\ Forall P new.
Proof.
  intros HP. unfold process_profiles. apply for_each_forall.
  intros profile tr.
  destruct (processItem_item_trace env (profile_item options rect profile) tr)
    as (new & out & E & Hw).
  exists new, out. split; [exact E|].
  split; [eapply item_trace_came_back; eauto|].
  eapply Forall_impl; [apply HP | eapply item_trace_within; eauto].
Qed.

Lemma commit_body_within (env : Env) (options : QuartoRecordOptions)
    (rect : ScreenRect) (P : Event -> Prop) :
  (forall commit ev,
      within_item env (commit_item options rect commit) ev -> P ev) ->
  (forall commit, P (CheckoutCommit (inputDir options) (hash commit))) ->
  forall commits tr, exists new out,
    process_commits env options rect commits tr = (tr ++ new, out)
    /\ came_back out /\ Forall P new.
Proof.
  intros HP HC. unfold process_commits. apply for_each_forall.
  intros commit tr. unfold bind, checkoutCommit, call_void, call.
  destruct (checkout_commit env _).
  - eexists [_], _. split; [reflexivity|]. split; [exact I|].
    repeat constructor. apply HC.
  - destruct (processItem_item_trace env (commit_item options rect commit)
                (tr ++ [CheckoutCommit (inputDir options) (hash commit)]))
      as (new & out & E & Hw).
    rewrite E, <- app_assoc. eexists _, out. split; [reflexivity|].
    split; [eapply item_trace_came_back; eauto|].
    constructor; [apply HC|].
    eapply Forall_impl; [apply HP | eapply item_trace_within; eauto].
Qed.

(** [main], spelled out up to its loop. *)
Lemma main_run (env : Env) (args : list string) (tr : Trace) :
  exists perms b,
    checkPermissions env tr = (tr ++ perms, Returned b)
    /\ forallb is_permission_query perms = true
    /\ main env args tr =
       if negb b then (tr ++ perms, Exited 1) else
       match parseArgs env args with
       | inl _ => (tr ++ perms, Exited 1)
       | inr o =>
           let tr1 := (tr ++ perms) ++ [GetLastSelectionRect] in
           match last_selection_rect env tr1 with
           | inl _ => (tr1, Exited 1)
           | inr rect =>
               match profileGroupIndex o with
               | Some index =>
                   let tr2 := tr1 ++ [GetProfilesFromGroup (inputDir o) index] in
                   match profiles_from_group env tr2 with
                   | inl _ => (tr2, Exited 1)
                   | inr profiles =>
                       let r := process_profiles env o rect profiles tr2 in
                       (fst r, exit_of (snd r))
                   end
               | None =>
                   let tr2 := tr1 ++ [GetGitHistory (inputDir o) (startCommit o)] in
                   match git_history env tr2 with
                   | inl _ => (tr2, Exited 1)
                   | inr commits =>
                       let r := process_commits env o rect commits tr2 in
                       (fst r, exit_of (snd r))
                   end
               end
           end
       end.
Proof.
  destruct (checkPermissions_run env tr) as (perms & b & E & F).
  exists perms, b. split; [exact E|]. split; [exact F|].
  unfold main, try_catch. unfold bind at 1. rewrite E.
  destruct b; cbn [negb]; [|reflexivity].
  unfold bind at 1. unfold ret at 1. unfold bind at 1.
  destruct (parseArgs env args) as [e|o]; [reflexivity|].
  unfold ret at 1. unfold bind at 1.
  unfold getLastSelectionRect, call.
  destruct (last_selection_rect env _) as [e|rect]; [reflexivity|].
  cbv zeta. unfold bind at 1.
  destruct (profileGroupIndex o) as [index|].
  - unfold bind at 1. unfold getProfilesFromGroup, call.
    destruct (profiles_from_group env _) as [e|profiles]; [reflexivity|].
    destruct (process_profiles env o rect profiles _) as [t' [[]|e|c|]];
      reflexivity.
  - unfold bind at 1. unfold getGitHistory, call.
    destruct (git_history env _) as [e|commits]; [reflexivity|].
    destruct (process_commits env o rect commits _) as [t' [[]|e|c|]];
      reflexivity.
Qed.

(** X9.  [main] never returns to its caller, never lets an error escape
    and never hangs: in every environment and for every command line it
    ends the process, with exit code 0 or with exit code 1. *)
Theorem main_always_exits (env : Env) (args : list string) (tr : Trace) :
  exists new code,
    main env args tr = (tr ++ new, Exited code) /\ (code = 0 \/ code = 1).
Proof.
  destruct (main_run env args tr) as (perms & b & _ & _ & ->).
  destruct b; cbn [negb]; [|eauto].
  destruct (parseArgs env args) as [e|o]; [eauto|]. cbv zeta.
  destruct (last_selection_rect env _) as [e|rect];
    [rewrite <- app_assoc; eauto|].
  destruct (profileGroupIndex o) as [index|].
  - destruct (profiles_from_group env _) as [e|profiles];
      [rewrite <- !app_assoc; eauto|].
    destruct (profile_body_within env o rect (fun _ => True)
                (fun _ _ _ => I) profiles
                (((tr ++ perms) ++ [GetLastSelectionRect])
                 ++ [GetProfilesFromGroup (inputDir o) index]))
      as (new & out & -> & C & _).
    cbn [fst snd]. rewrite <- !app_assoc.
    destruct out as [[]|e|c|]; try contradiction; cbn [exit_of]; eauto.
  - destruct (git_history env _) as [e|commits];
      [rewrite <- !app_assoc; eauto|].
    destruct (commit_body_within env o rect (fun _ => True)
                (fun _ _ _ => I) (fun _ => I) commits
                (((tr ++ perms) ++ [GetLastSelectionRect])
                 ++ [GetGitHistory (inputDir o) (startCommit o)]))
      as (new & out & -> & C & _).
    cbn [fst snd]. rewrite <- !app_assoc.
    destruct out as [[]|e|c|]; try contradiction; cbn [exit_of]; eauto.
Qed.

Lemma permission_queries_no_marks (perms : Trace) :
  forallb is_permission_query perms = true -> lifecycle perms = [].
Proof.
  induction perms as [|ev perms IH]; simpl; [reflexivity|].
  intros H. apply andb_true_iff in H as [Hev Hp].
  destruct ev; try discriminate. simpl. now apply IH.
Qed.

Lemma exit_of_zero (out : Outcome unit) :
  came_back out -> exit_of out = Exited 0 -> out = Returned tt.
Proof. destruct out as [[]|e|c|]; simpl; try contradiction; congruence. Qed.

(** X10.  A run that ends with exit code 0 has done every item that its
    provider gave: after the queries, the trace is as many whole lives
    (spawn, stop, verified) as the profile list, or the history, has
    entries, so every preview that was started was stopped. *)
Theorem exit_zero_means_every_item_done (env : Env) (args : list string)
    (tr tr' : Trace) :
  main env args tr = (tr', Exited 0) ->
  exists pre loop (n : nat),
    tr' = (tr ++ pre) ++ loop
    /\ lifecycle pre = []
    /\ lifecycle loop = cycles n
    /\ ((exists profiles,
           profiles_from_group env (tr ++ pre) = inr profiles
           /\ length profiles = n)
        \/ (exists commits,
              git_history env (tr ++ pre) = inr commits
              /\ length commits = n)).
Proof.
  destruct (main_run env args tr) as (perms & b & _ & F & ->).
  pose proof (permission_queries_no_marks _ F) as Lp.
  destruct b; cbn [negb]; [|discriminate].
  destruct (parseArgs env args) as [e|o]; [discriminate|]. cbv zeta.
  destruct (last_selection_rect env _) as [e|rect]; [discriminate|].
  destruct (profileGroupIndex o) as [index|].
  - destruct (profiles_from_group env _) as [e|profiles] eqn:Ep;
      [discriminate|].
    set (tr2 := ((tr ++ perms) ++ [GetLastSelectionRect])
                ++ [GetProfilesFromGroup (inputDir o) index]) in *.
    destruct (profile_body_within env o rect (fun _ => True)
                (fun _ _ _ => I) profiles tr2) as (new & out & E & C & _).
    destruct (for_each_marks
                (fun profile => processItem env (profile_item o rect profile))
                (fun a t => processItem_marks env _ t) profiles tr2)
      as (new' & out' & E' & Hm).
    unfold process_profiles in E. rewrite E in E'.
    injection E' as E' <-. apply app_inv_head in E'. subst new'.
    unfold process_profiles. rewrite E. cbn [fst snd].
    intros [= <- Hx]. apply (exit_of_zero _ C) in Hx. subst out.
    exists (perms ++ [GetLastSelectionRect;
                      GetProfilesFromGroup (inputDir o) index]),
      new, (length profiles).
    assert (Epre : tr ++ perms ++ [GetLastSelectionRect;
                                   GetProfilesFromGroup (inputDir o) index]
                   = tr2).
    { unfold tr2. now rewrite <- !app_assoc. }
    rewrite Epre. split; [reflexivity|].
    split; [rewrite lifecycle_app, Lp; reflexivity|].
    split; [exact Hm|]. left. exists profiles. now split.
  - destruct (git_history env _) as [e|commits] eqn:Ep; [discriminate|].
    set (tr2 := ((tr ++ perms) ++ [GetLastSelectionRect])
                ++ [GetGitHistory (inputDir o) (startCommit o)]) in *.
    destruct (commit_body_within env o rect (fun _ => True)
                (fun _ _ _ => I) (fun _ => I) commits tr2)
      as (new & out & E & C & _).
    destruct (for_each_marks
                (fun commit =>
                   bind (checkoutCommit env (inputDir o) (hash commit))
                        (fun _ => processItem env (commit_item o rect commit)))
                (fun a t => checkout_then_item_marks env o rect a t)
                commits tr2)
      as (new' & out' & E' & Hm).
    unfold process_commits in E. rewrite E in E'.
    injection E' as E' <-. apply app_inv_head in E'. subst new'.
    unfold process_commits. rewrite E. cbn [fst snd].
    intros [= <- Hx]. apply (exit_of_zero _ C) in Hx. subst out.
    exists (perms ++ [GetLastSelectionRect;
                      GetGitHistory (inputDir o) (startCommit o)]),
      new, (length commits).
    assert (Epre : tr ++ perms ++ [GetLastSelectionRect;
                                   GetGitHistory (inputDir o) (startCommit o)]
                   = tr2).
    { unfold tr2. now rewrite <- !app_assoc. }
    rewrite Epre. split; [reflexivity|].
    split; [rewrite lifecycle_app, Lp; reflexivity|].
    split; [exact Hm|]. right. exists commits. now split.
Qed.

Lemma within_item_region (env : Env) (o : ProcessItemOptions) (ev : Event) :
  within_item env o ev ->
  is_rect_query ev = false
  /\ (capture_region ev = []
      \/ capture_region ev = [rect_string env (screenRect o)]).
Proof.
  destruct ev; simpl; try tauto.
  intros [H|[->| ->]]; (split; [reflexivity|]).
  - injection H as -> ->. now right.
  - now left.
  - now left.
Qed.

(** X11.  A run asks for the selection rectangle at most once, right
    after the permission queries and before anything is spawned; when the
    query fails nothing more is done; and every capture of the run is given
    the rectangle that this one query returned, whatever the selection
    becomes while the run goes on. *)
Theorem one_rectangle_for_the_run (env : Env) (args : list string)
    (tr tr' : Trace) (out : Outcome unit) :
  main env args tr = (tr', out) ->
  exists perms rest,
    tr' = (tr ++ perms) ++ rest
    /\ forallb is_permission_query perms = true
    /\ (rest = []
        \/ exists rest',
             rest = GetLastSelectionRect :: rest'
             /\ match last_selection_rect env
                        ((tr ++ perms) ++ [GetLastSelectionRect]) with
                | inl _ => rest' = []
                | inr rect =>
                    Forall (fun ev =>
                              is_rect_query ev = false
                              /\ (capture_region ev = []
                                  \/ capture_region ev = [rect_string env rect]))
                           rest'
                end).
Proof.
  destruct (main_run env args tr) as (perms & b & _ & F & ->).
  intros H. exists perms.
  destruct b; cbn [negb] in H.
  2:{ injection H as <- _. exists []. rewrite app_nil_r. auto. }
  destruct (parseArgs env args) as [e|o].
  { injection H as <- _. exists []. rewrite app_nil_r. auto. }
  cbv zeta in H.
  destruct (last_selection_rect env _) as [e|rect].
  { injection H as <- _. exists [GetLastSelectionRect].
    split; [reflexivity|]. split; [exact F|]. right. eauto. }
  destruct (profileGroupIndex o) as [index|].
  - destruct (profiles_from_group env _) as [e|profiles].
    { injection H as <- _.
      exists [GetLastSelectionRect; GetProfilesFromGroup (inputDir o) index].
      split; [now rewrite <- !app_assoc|]. split; [exact F|]. right.
      eexists. split; [reflexivity|]. repeat constructor. }
    destruct (profile_body_within env o rect
                (fun ev => is_rect_query ev = false
                           /\ (capture_region ev = []
                               \/ capture_region ev = [rect_string env rect]))
                (fun p ev Hw => within_item_region env _ ev Hw) profiles
                (((tr ++ perms) ++ [GetLastSelectionRect])
                 ++ [GetProfilesFromGroup (inputDir o) index]))
      as (new & out' & E & _ & Fn).
    rewrite E in H. cbn [fst snd] in H. injection H as <- _.
    exists (GetLastSelectionRect
            :: GetProfilesFromGroup (inputDir o) index :: new).
    split; [now rewrite <- !app_assoc|]. split; [exact F|]. right.
    eexists. split; [reflexivity|]. constructor; [simpl; auto | exact Fn].
  - destruct (git_history env _) as [e|commits].
    { injection H as <- _.
      exists [GetLastSelectionRect; GetGitHistory (inputDir o) (startCommit o)].
      split; [now rewrite <- !app_assoc|]. split; [exact F|]. right.
      eexists. split; [reflexivity|]. repeat constructor. }
    destruct (commit_body_within env o rect
                (fun ev => is_rect_query ev = false
                           /\ (capture_region ev = []
                               \/ capture_region ev = [rect_string env rect]))
                (fun p ev Hw => within_item_region env _ ev Hw)
                (fun _ => conj eq_refl (or_introl eq_refl)) commits
                (((tr ++ perms) ++ [GetLastSelectionRect])
                 ++ [GetGitHistory (inputDir o) (startCommit o)]))
      as (new & out' & E & _ & Fn).
    rewrite E in H. cbn [fst snd] in H. injection H as <- _.
    exists (GetLastSelectionRect
            :: GetGitHistory (inputDir o) (startCommit o) :: new).
    split; [now rewrite <- !app_assoc|]. split; [exact F|]. right.
    eexists. split; [reflexivity|]. constructor; [simpl; auto | exact Fn].
Qed.

Lemma stop_trace_no_steps (p : Process) (s : Trace) :
  stop_trace p s -> flat_map workspace_step s = [].
Proof.
  intros [s1 s2 s3 H1 H2 H3]. rewrite !flat_map_app.
  destruct H1 as [->|[t [_ [->| ->]]]]; destruct H2 as [->| ->];
    destruct H3 as [->| ->]; reflexivity.
Qed.

Lemma item_trace_steps (env : Env) (o : ProcessItemOptions)
    (new : Trace) (out : Outcome unit) :
  item_trace env o new out ->
  flat_map workspace_step new = [Mkdir (item_dir o)].
Proof.
  intros Hw. destruct Hw; try reflexivity;
    rewrite ?flat_map_app, (stop_trace_no_steps _ _ ltac:(eassumption));
    reflexivity.
Qed.

(** A loop goes through its list in order: what it leaves, seen through
    [proj], is what the whole items leave, one after the other, and then
    what the item that did not return leaves. *)
Lemma for_each_in_order {A} (proj : Event -> list Event) (body : A -> M unit)
    (full : A -> list Event) (part : A -> list Event -> Prop) :
  (forall a tr, exists new out,
      body a tr = (tr ++ new, out)
      /\ match out with
         | Returned _ => flat_map proj new = full a
         | _ => part a (flat_map proj new)
         end) ->
  forall l tr, exists new out,
      for_each body l tr = (tr ++ new, out)
      /\ match out with
         | Returned _ => flat_map proj new = flat_map full l
         | _ => exists done a rest p,
                  l = done ++ a :: rest
                  /\ flat_map proj new = flat_map full done ++ p
                  /\ part a p
         end.
Proof.
  intros Hbody. induction l as [|a l IH]; intros tr.
  - exists [], (Returned tt). cbn [for_each]. unfold ret.
    rewrite app_nil_r. split; reflexivity.
  - destruct (Hbody a tr) as (n1 & o1 & E1 & P1).
    cbn [for_each]. unfold bind. rewrite E1.
    destruct o1 as [[]|e|c|].
    + destruct (IH (tr ++ n1)) as (n2 & o2 & E2 & P2).
      rewrite E2, <- app_assoc. exists (n1 ++ n2), o2.
      split; [reflexivity|]. rewrite flat_map_app, P1.
      destruct o2 as [[]|e|c|].
      * cbn [flat_map]. now rewrite P2.
      * destruct P2 as (done & b & rest & p & -> & -> & Hp).
        exists (a :: done), b, rest, p. cbn [flat_map app].
        rewrite <- app_assoc. auto.
      * destruct P2 as (done & b & rest & p & -> & -> & Hp).
        exists (a :: done), b, rest, p. cbn [flat_map app].
        rewrite <- app_assoc. auto.
      * destruct P2 as (done & b & rest & p & -> & -> & Hp).
        exists (a :: done), b, rest, p. cbn [flat_map app].
        rewrite <- app_assoc. auto.
    + exists n1, (Thrown e). split; [reflexivity|].
      exists [], a, l, (flat_map proj n1). auto.
    + exists n1, (Exited c). split; [reflexivity|].
      exists [], a, l, (flat_map proj n1). auto.
    + exists n1, Hung. split; [reflexivity|].
      exists [], a, l, (flat_map proj n1). auto.
Qed.

(** X12.  Both loops take the items in the order the provider gave them,
    each one once.  In profile mode the directories made are those of the
    profiles, in order; in history mode each commit is checked out and then
    its directory is made, commit after commit, so no preview runs on the
    checkout of another commit.  A run that aborts has done so for the
    items before the failing one, has checked out the failing commit, and
    has made the failing item's directory unless the checkout failed. *)
Theorem items_in_provider_order (env : Env) (options : QuartoRecordOptions)
    (rect : ScreenRect) :
  (forall profiles tr, exists new out,
      process_profiles env options rect profiles tr = (tr ++ new, out)
      /\ match out with
         | Returned _ =>
             flat_map workspace_step new
             = flat_map (profile_steps options) profiles
         | _ => exists done failing rest,
                  profiles = done ++ failing :: rest
                  /\ flat_map workspace_step new
                     = flat_map (profile_steps options) (done ++ [failing])
         end)
  /\ (forall commits tr, exists new out,
        process_commits env options rect commits tr = (tr ++ new, out)
        /\ match out with
           | Returned _ =>
               flat_map workspace_step new
               = flat_map (commit_steps options) commits
           | _ => exists done failing rest,
                    commits = done ++ failing :: rest
                    /\ (flat_map workspace_step new
                        = flat_map (commit_steps options) done
                          ++ [CheckoutCommit (inputDir options) (hash failing)]
                        \/ flat_map workspace_step new
                           = flat_map (commit_steps options) (done ++ [failing]))
           end).
Proof.
  split.
  - intros profiles tr. unfold process_profiles.
    destruct (for_each_in_order workspace_step
                (fun profile => processItem env (profile_item options rect profile))
                (profile_steps options)
                (fun a p => p = profile_steps options a)) with (l := profiles)
                (tr := tr) as (new & out & E & P).
    { intros a t.
      destruct (processItem_item_trace env (profile_item options rect a) t)
        as (new & out & E & Hw).
      exists new, out. split; [exact E|].
      rewrite (item_trace_steps _ _ _ _ Hw).
      destruct out; reflexivity. }
    exists new, out. split; [exact E|].
    destruct out as [[]|e|c|]; [exact P| | |];
      destruct P as (done & a & rest & p & -> & -> & ->);
      exists done, a, rest; (split; [reflexivity|]);
      rewrite flat_map_app; cbn [flat_map]; now rewrite app_nil_r.
  - intros commits tr. unfold process_commits.
    destruct (for_each_in_order workspace_step
                (fun commit =>
                   bind (checkoutCommit env (inputDir options) (hash commit))
                        (fun _ => processItem env (commit_item options rect commit)))
                (commit_steps options)
                (fun a p =>
                   p = [CheckoutCommit (inputDir options) (hash a)]
                   \/ p = commit_steps options a)) with (l := commits)
                (tr := tr) as (new & out & E & P).
    { intros a t. unfold bind, checkoutCommit, call_void, call.
      destruct (checkout_commit env _).
      - eexists [_], _. split; [reflexivity|]. now left.
      - destruct (processItem_item_trace env (commit_item options rect a)
                    (t ++ [CheckoutCommit (inputDir options) (hash a)]))
          as (new & out & E & Hw).
        rewrite E, <- app_assoc. eexists _, out. split; [reflexivity|].
        cbn [app flat_map workspace_step].
        rewrite (item_trace_steps _ _ _ _ Hw).
        destruct out; [reflexivity | now right | now right | now right]. }
    exists new, out. split; [exact E|].
    destruct out as [[]|e|c|]; [exact P| | |];
      destruct P as (done & a & rest & p & -> & -> & [->| ->]);
      exists done, a, rest; (split; [reflexivity|]);
      try (now left);
      right; rewrite flat_map_app; cbn [flat_map]; now rewrite app_nil_r.
Qed.

Lemma within_item_not_git (env : Env) (o : ProcessItemOptions) (ev : Event) :
  within_item env o ev -> is_git_event ev = false /\ is_profile_query ev = false.
Proof. destruct ev; simpl; tauto. Qed.

Lemma permission_queries_neutral (perms : Trace) :
  forallb is_permission_query perms = true ->
  Forall (fun ev => is_git_event ev = false /\ is_profile_query ev = false) perms.
Proof.
  induction perms as [|ev perms IH]; simpl; [constructor|].
  intros H. apply andb_true_iff in H as [Hev Hp].
  constructor; [destruct ev; try discriminate; now split | now apply IH].
Qed.

Lemma permission_queries_only (perms : Trace) :
  forallb is_permission_query perms = true ->
  Forall (fun ev => is_permission_query ev = true) perms.
Proof. intros H. apply Forall_forall. now apply forallb_forall. Qed.

(** X13.  The two modes do not mix.  With the profile-group flag the run
    never reads the history and never checks out a commit: the workspace is
    left on the revision it is on.  Without it the run never reads the
    profile list, and every preview is spawned without a profile, on the
    previewed file alone. *)
Theorem modes_do_not_mix (env : Env) (args : list string)
    (o : QuartoRecordOptions) (tr tr' : Trace) (out : Outcome unit) :
  parseArgs env args = inr o ->
  main env args tr = (tr', out) ->
  exists new,
    tr' = tr ++ new
    /\ match profileGroupIndex o with
       | Some _ => Forall (fun ev => is_git_event ev = false) new
       | None =>
           Forall (fun ev =>
                     is_profile_query ev = false
                     /\ forall cmd cmdargs,
                          ev = Spawn cmd cmdargs ->
                          cmdargs = preview_args (file o) None)
                  new
       end.
Proof.
  intros Hp H.
  destruct (main_run env args tr) as (perms & b & _ & F & E).
  rewrite E, Hp in H. clear E.
  pose proof (permission_queries_neutral _ F) as Fp.
  assert (Fg : Forall (fun ev => is_git_event ev = false) perms).
  { eapply Forall_impl; [|exact Fp]. now intros ev [? _]. }
  assert (Fq : Forall (fun ev =>
                         is_profile_query ev = false
                         /\ forall cmd cmdargs,
                              ev = Spawn cmd cmdargs ->
                              cmdargs = preview_args (file o) None) perms).
  { eapply Forall_impl; [|exact (permission_queries_only _ F)].
    intros ev Hev. destruct ev; try discriminate.
    split; [reflexivity | discriminate]. }
  destruct b; cbn [negb] in H.
  2:{ injection H as <- _. exists perms. split; [reflexivity|].
      now destruct (profileGroupIndex o). }
  cbv zeta in H.
  destruct (last_selection_rect env _) as [e|rect].
  { injection H as <- _. exists (perms ++ [GetLastSelectionRect]).
    split; [now rewrite <- app_assoc|].
    destruct (profileGroupIndex o); apply Forall_app; split; trivial;
      repeat constructor; discriminate. }
  destruct (profileGroupIndex o) as [index|].
  - destruct (profiles_from_group env _) as [e|profiles].
    { injection H as <- _.
      exists (perms ++ [GetLastSelectionRect;
                        GetProfilesFromGroup (inputDir o) index]).
      split; [now rewrite <- !app_assoc|].
      apply Forall_app; split; trivial; repeat constructor. }
    destruct (profile_body_within env o rect
                (fun ev => is_git_event ev = false)
                (fun p ev Hw => proj1 (within_item_not_git env _ ev Hw))
                profiles
                (((tr ++ perms) ++ [GetLastSelectionRect])
                 ++ [GetProfilesFromGroup (inputDir o) index]))
      as (new & out' & En & _ & Fn).
    rewrite En in H. cbn [fst snd] in H. injection H as <- _.
    exists (perms ++ [GetLastSelectionRect;
                      GetProfilesFromGroup (inputDir o) index] ++ new).
    split; [now rewrite <- !app_assoc|].
    apply Forall_app; split; trivial.
    apply Forall_app; split; [repeat constructor | exact Fn].
  - destruct (git_history env _) as [e|commits].
    { injection H as <- _.
      exists (perms ++ [GetLastSelectionRect;
                        GetGitHistory (inputDir o) (startCommit o)]).
      split; [now rewrite <- !app_assoc|].
      apply Forall_app; split; trivial; repeat constructor; discriminate. }
    destruct (commit_body_within env o rect
                (fun ev => is_profile_query ev = false
                           /\ forall cmd cmdargs,
                                ev = Spawn cmd cmdargs ->
                                cmdargs = preview_args (file o) None)
                ltac:(intros c ev Hw; split;
                      [exact (proj2 (within_item_not_git env _ ev Hw))
                      | intros cmd cmdargs ->; simpl in Hw; exact (proj2 Hw)])
                ltac:(intros c; split; [reflexivity | discriminate])
                commits
                (((tr ++ perms) ++ [GetLastSelectionRect])
                 ++ [GetGitHistory (inputDir o) (startCommit o)]))
      as (new & out' & En & _ & Fn).
    rewrite En in H. cbn [fst snd] in H. injection H as <- _.
    exists (perms ++ [GetLastSelectionRect;
                      GetGitHistory (inputDir o) (startCommit o)] ++ new).
    split; [now rewrite <- !app_assoc|].
    apply Forall_app; split; trivial.
    apply Forall_app; split; [repeat constructor; discriminate | exact Fn].
Qed.

Lemma checkPermissions_spelled (env : Env) (tr : Trace) :
  checkPermissions env tr =
  let t1 := tr ++ [PermissionQuery "run"] in
  let t2 := t1 ++ [PermissionQuery "read"] in
  let t3 := t2 ++ [PermissionQuery "write"] in
  match permissions_query env t1 with
  | Some _ => (t1, Returned false)
  | None =>
      match permissions_query env t2 with
      | Some _ => (t2, Returned false)
      | None =>
          match permissions_query env t3 with
          | Some _ => (t3, Returned false)
          | None => (t3, Returned true)
          end
      end
  end.
Proof.
  cbv zeta. unfold checkPermissions, query_ok. unfold_m.
  destruct (permissions_query env (tr ++ _)); [reflexivity|]. simpl.
  destruct (permissions_query env ((tr ++ _) ++ _)); [reflexivity|]. simpl.
  destruct (permissions_query env (((tr ++ _) ++ _) ++ _)); reflexivity.
Qed.

(** X14.  [checkPermissions] asks for run, read and write, in that order,
    stops at the first query that throws and returns [false] then; it
    returns [true] exactly when all three queries come back, and it never
    throws.  After a [false], [main] ends with exit code 1 at once,
    whatever the command line is: nothing is parsed, queried or spawned. *)
Theorem refused_permission_ends_the_run (env : Env) (args : list string)
    (tr : Trace) :
  let run := PermissionQuery "run" in
  let read := PermissionQuery "read" in
  let write := PermissionQuery "write" in
  exists asked granted,
    checkPermissions env tr = (tr ++ asked, Returned granted)
    /\ (asked = [run] \/ asked = [run; read] \/ asked = [run; read; write])
    /\ (granted = true <->
        permissions_query env (tr ++ [run]) = None
        /\ permissions_query env (tr ++ [run; read]) = None
        /\ permissions_query env (tr ++ [run; read; write]) = None)
    /\ (granted = true -> asked = [run; read; write])
    /\ (granted = false ->
        permissions_query env (tr ++ asked) <> None
        /\ main env args tr = (tr ++ asked, Exited 1)).
Proof.
  intros run read write.
  assert (Hmain : forall asked,
             checkPermissions env tr = (tr ++ asked, Returned false) ->
             main env args tr = (tr ++ asked, Exited 1)).
  { intros asked E. unfold main, try_catch. unfold bind at 1. now rewrite E. }
  revert Hmain. rewrite checkPermissions_spelled. cbv zeta.
  rewrite <- !app_assoc. cbn [app]. fold run. fold read. fold write.
  destruct (permissions_query env (tr ++ [run])) as [e1|] eqn:E1; cbn [negb].
  { intros Hmain. exists [run], false. split; [reflexivity|].
    split; [auto|]. split; [split; [discriminate | intros (H & _); discriminate]|].
    split; [discriminate|]. intros _. split; [congruence | now apply Hmain]. }
  destruct (permissions_query env (tr ++ [run; read])) as [e2|] eqn:E2;
    cbn [negb].
  { intros Hmain. exists [run; read], false. split; [reflexivity|].
    split; [auto|].
    split; [split; [discriminate | intros (_ & H & _); discriminate]|].
    split; [discriminate|]. intros _. split; [congruence | now apply Hmain]. }
  destruct (permissions_query env (tr ++ [run; read; write])) as [e3|] eqn:E3;
    cbn [negb].
  { intros Hmain. exists [run; read; write], false. split; [reflexivity|].
    split; [auto|].
    split; [split; [discriminate | intros (_ & _ & H); discriminate]|].
    split; [discriminate|]. intros _. split; [congruence | now apply Hmain]. }
  intros _. exists [run; read; write], true. split; [reflexivity|].
  split; [auto|]. split; [tauto|]. split; [reflexivity | discriminate].
Qed.

(* ================================================================== *)
(** ** More about the command line *)

Lemma spell_starts_with_flag (op : CliOption) :
  exists flag more, spell op = flag :: more /\ String.prefix "--" flag = true.
Proof. destruct op as [d|f|c|f|[i|]]; simpl; eauto. Qed.

(** The loop reads the spelling of well-spelt options as those options. *)
Lemma parse_named_spelling (env : Env) (ops : list CliOption) :
  forallb (well_spelt env) ops = true ->
  forall v, parse_named env (flat_map spell ops) v
            = inr (fold_left (apply_option env) ops v).
Proof.
  induction ops as [|op ops IH]; intros Hw v; [reflexivity|].
  cbn [forallb] in Hw. apply andb_true_iff in Hw as [Hop Hops].
  cbn [flat_map fold_left].
  destruct op as [d|f|c|f|[i|]]; cbn [spell app apply_option].
  1-4: cbn [parse_named String.eqb Ascii.eqb Bool.eqb andb]; now apply IH.
  - cbn [parse_named String.eqb Ascii.eqb Bool.eqb andb].
    simpl in Hop. rewrite Hop. now apply IH.
  - destruct ops as [|op' ops']; [reflexivity|].
    specialize (IH Hops (set_profileGroupIndex v (Finite 0))).
    cbn [flat_map] in IH |- *.
    destruct (spell_starts_with_flag op') as (flag & more & Es & Hf).
    rewrite Es in IH |- *. cbn [app] in IH |- *.
    cbn [parse_named String.eqb Ascii.eqb Bool.eqb andb].
    rewrite Hf, andb_false_r. exact IH.
Qed.

Lemma parseArgs_of_vars (env : Env) (out : string) (named : list string)
    (v : ParseVars) :
  parse_named env named initial_vars = inr v ->
  parseArgs env (out :: named)
  = if both_modes v then inl (Error_ mutually_exclusive_message)
    else inr (options_of env out v).
Proof.
  intros H. unfold parseArgs, both_modes, options_of. rewrite H.
  destruct (v_profileGroupIndex v); destruct (truthy (v_startCommit v));
    destruct (truthy (v_copyFile v)); reflexivity.
Qed.

(** X15.  A command line that spells OUTPUT_DIR and then any options, each
    flag with its value and the profile-group flag with a numeric index or
    with none, is read as those options: a flag given again replaces the
    earlier value, an option not given keeps its default (the input
    directory is [.]), the directories and a non-empty copy file come back
    resolved, and the result is the mutual-exclusion error exactly when a
    profile group and a non-empty start commit are both in effect. *)
Theorem well_spelt_command_line_parses (env : Env) (out : string)
    (ops : list CliOption) :
  forallb (well_spelt env) ops = true ->
  let v := fold_left (apply_option env) ops initial_vars in
  parseArgs env (out :: flat_map spell ops)
  = if both_modes v then inl (Error_ mutually_exclusive_message)
    else inr (options_of env out v).
Proof.
  intros Hw v. apply parseArgs_of_vars. now apply parse_named_spelling.
Qed.

Lemma parse_named_grammar (env : Env) :
  forall (n : nat) (l : list string) (v v' : ParseVars),
    (length l <= n)%nat ->
    parse_named env l v = inr v' ->
    exists ops,
      forallb (well_spelt env) ops = true
      /\ l = flat_map spell ops
      /\ v' = fold_left (apply_option env) ops v.
Proof.
  induction n as [|n IH]; intros l v v' Hlen H.
  - destruct l; [|simpl in Hlen; lia]. simpl in H. injection H as <-.
    exists []. auto.
  - destruct l as [|arg [|next rest]].
    + simpl in H. injection H as <-. exists []. auto.
    + cbn [parse_named] in H.
      destruct (String.eqb_spec arg "--profile-group") as [->|]; [|discriminate].
      injection H as <-. exists [OptProfileGroup None]. auto.
    + cbn [length] in Hlen. cbn [parse_named] in H.
      destruct (String.eqb_spec arg "--input") as [->|_].
      { destruct (IH rest _ _ ltac:(lia) H) as (ops & Hw & -> & ->).
        exists (OptInput next :: ops). auto. }
      destruct (String.eqb_spec arg "--file") as [->|_].
      { destruct (IH rest _ _ ltac:(lia) H) as (ops & Hw & -> & ->).
        exists (OptFile next :: ops). auto. }
      destruct (String.eqb_spec arg "--start-commit") as [->|_].
      { destruct (IH rest _ _ ltac:(lia) H) as (ops & Hw & -> & ->).
        exists (OptStartCommit next :: ops). auto. }
      destruct (String.eqb_spec arg "--copy-file") as [->|_].
      { destruct (IH rest _ _ ltac:(lia) H) as (ops & Hw & -> & ->).
        exists (OptCopyFile next :: ops). auto. }
      destruct (String.eqb_spec arg "--profile-group") as [->|_];
        [|discriminate].
      destruct (negb (isNaN (js_Number env next))
                && negb (String.prefix "--" next)) eqn:Ei.
      * destruct (IH rest _ _ ltac:(lia) H) as (ops & Hw & -> & ->).
        exists (OptProfileGroup (Some next) :: ops).
        cbn [forallb well_spelt]. rewrite Ei. auto.
      * destruct (IH (next :: rest) _ _ ltac:(simpl; lia) H)
          as (ops & Hw & Hl & ->).
        exists (OptProfileGroup None :: ops).
        cbn [flat_map spell app]. rewrite Hl. auto.
Qed.

(** X16.  Every command line that [parseArgs] accepts is OUTPUT_DIR and
    then complete options and nothing else: each of the four value flags
    with one value after it, the profile-group flag with a numeric index
    after it or alone.  What comes back is those options read in order, and
    never both a profile group and a non-empty start commit. *)
Theorem accepted_command_line_is_options (env : Env) (args : list string)
    (o : QuartoRecordOptions) :
  parseArgs env args = inr o ->
  exists out ops,
    args = out :: flat_map spell ops
    /\ forallb (well_spelt env) ops = true
    /\ o = options_of env out (fold_left (apply_option env) ops initial_vars)
    /\ (profileGroupIndex o <> None -> truthy (startCommit o) = None).
Proof.
  intros H. destruct args as [|out named]; [discriminate|].
  destruct (parse_named env named initial_vars) as [e|v] eqn:Ep.
  { unfold parseArgs in H. rewrite Ep in H. discriminate. }
  rewrite (parseArgs_of_vars env out named v Ep) in H.
  destruct (both_modes v) eqn:Eb; [discriminate|]. injection H as <-.
  destruct (parse_named_grammar env (length named) named _ _ (le_n _) Ep)
    as (ops & Hw & -> & Hv).
  exists out, ops. rewrite <- Hv. repeat split; trivial.
  cbn [options_of profileGroupIndex startCommit]. intros Hi.
  unfold both_modes in Eb.
  destruct (v_profileGroupIndex v); [|contradiction].
  now destruct (truthy (v_startCommit v)).
Qed.

(** X17.  An argument that begins with [--] and is not one of the five
    flags is fatal wherever it stands after complete options, whatever
    follows it: [parseArgs] throws [Unknown argument: ] with that
    argument. *)
Theorem unknown_flag_is_fatal (env : Env) (out : string)
    (ops : list CliOption) (flag : string) (rest : list string) :
  forallb (well_spelt env) ops = true ->
  String.prefix "--" flag = true ->
  ~ In flag known_flags ->
  parseArgs env (out :: flat_map spell ops ++ flag :: rest)
  = inl (unknown_argument flag).
Proof.
  intros Hw Hp Hn. unfold parseArgs.
  rewrite (parse_named_then_flag env flag rest Hp
             (length (flat_map spell ops)) (flat_map spell ops) initial_vars
             _ (le_n _) (parse_named_spelling env ops Hw initial_vars)).
  assert (E : forall k, In k known_flags -> (flag =? k)%string = false).
  { intros k Hk. apply String.eqb_neq. intros ->. contradiction. }
  destruct rest as [|next rest']; cbn [parse_named];
    rewrite ?(E "--input"), ?(E "--file"), ?(E "--start-commit"),
      ?(E "--copy-file"), ?(E "--profile-group");
    try reflexivity; simpl; auto 10.
Qed.

(* ================================================================== *)
(** ** The further properties at concrete inputs *)

Lemma listening_url_witness :
  listeningMatch "Browse at http://localhost:4321/
Listening on http://localhost:4321/docs/ now"
  = Some "http://localhost:4321"
  /\ exists u, listeningMatch "x Listening on http://127.0.0.1:8080 y" = Some u.
Proof.
  split; [reflexivity|].
  apply (proj2 (listening_url_is_bare_origin
                  "x Listening on http://127.0.0.1:8080 y")
               "x " "127.0.0.1:8080" " y");
    [reflexivity | discriminate | reflexivity].
Defined.

Lemma start_returns_witness :
  startQuartoPreview calm_env (Some "index.qmd") None []
  = ([Spawn "quarto" ["preview"; "index.qmd"]; Wait 2500],
     Returned {| process := {| pid := 1 |}; url := "http://localhost:4321" |})
  /\ spawn calm_env [Spawn "quarto" ["preview"; "index.qmd"]]
     = inr {| pid := 1 |}.
Proof.
  split; [reflexivity|].
  exact (proj1 (start_returns_ready_handle calm_env (Some "index.qmd") None []
                  [Spawn "quarto" ["preview"; "index.qmd"]; Wait 2500]
                  {| process := {| pid := 1 |};
                     url := "http://localhost:4321" |} eq_refl)).
Defined.

Lemma scan_without_readiness_witness :
  marker_never_completes [(300, "GET: /early"); (900, "rendering")] = true
  /\ forall first,
       waitForQuartoServer first
         {| chunks := [(300, "GET: /early"); (900, "rendering")];
            ending := Never |}
       = Rejected 60000 (Error_ readiness_timeout_message).
Proof.
  split; [reflexivity|].
  exact (proj2 (proj2 (scan_without_readiness
                         [(300, "GET: /early"); (900, "rendering")] eq_refl))).
Defined.

Lemma item_directory_witness :
  processItem calm_env sample_item_with_copy []
  = ([Mkdir "/work/out/light";
      Spawn "quarto" ["preview"; "index.qmd"; "--profile"; "light"]; Wait 2500;
      Run "screencapture"
        ["-x"; "-R"; "0,0,0,0"; "/work/out/light/screenshot.png"];
      Stat "/work/out/light/screenshot.png"; Kill {| pid := 2 |} SIGTERM;
      Wait 30; Run "pkill" ["-f"; preview_pattern]; Wait 500;
      Run "pgrep" ["-f"; preview_pattern];
      CopyFile "/work/site/_brand.yml" "/work/out/light//work/site/_brand.yml"],
     Returned tt)
  /\ exists new,
       fst (processItem calm_env sample_item_with_copy []) = [] ++ new
       /\ hd_error new = Some (Mkdir "/work/out/light")
       /\ Forall (within_item calm_env sample_item_with_copy) new.
Proof.
  split; [reflexivity|].
  exact (item_works_in_its_directory calm_env sample_item_with_copy [] _ _
           eq_refl).
Defined.

Lemma readiness_failure_witness :
  ensureDir silent_env "/work/out/light" []
  = ([Mkdir "/work/out/light"], Returned tt)
  /\ processItem silent_env sample_item []
     = ([Mkdir "/work/out/light";
         Spawn "quarto" ["preview"; "index.qmd"; "--profile"; "light"];
         Wait 60000],
        Thrown (Error_ readiness_timeout_message)).
Proof.
  split; [reflexivity|].
  exact (proj1 (readiness_failure_leaves_preview_running silent_env sample_item
                  [] {| pid := 2 |} 60000 (Error_ readiness_timeout_message)
                  eq_refl eq_refl eq_refl)).
Defined.

Lemma copy_after_stop_witness :
  truthy (item_copyFile sample_item_with_copy) = Some "/work/site/_brand.yml"
  /\ exists new,
       processItem calm_env sample_item_with_copy [] = (new, Returned tt)
       /\ In (copy_command calm_env sample_item_with_copy
                "/work/site/_brand.yml") new.
Proof.
  split; [reflexivity|].
  destruct (processItem calm_env sample_item_with_copy []) as [tr' out] eqn:Ep.
  destruct (copy_comes_after_the_stop calm_env sample_item_with_copy [] _ _ Ep)
    as (new & E & _ & H).
  simpl in E. subst tr'. exists new.
  assert (out = Returned tt) as -> by (vm_compute in Ep; now injection Ep).
  split; [reflexivity|]. apply H; reflexivity.
Defined.

Lemma exit_zero_witness :
  snd (main calm_env ["out"; "--profile-group"] []) = Exited 0
  /\ exists pre loop (n : nat),
       fst (main calm_env ["out"; "--profile-group"] []) = ([] ++ pre) ++ loop
       /\ lifecycle pre = []
       /\ lifecycle loop = cycles n.
Proof.
  split; [reflexivity|].
  destruct (exit_zero_means_every_item_done calm_env ["out"; "--profile-group"]
              [] _ eq_refl) as (pre & loop & n & E & Lp & L & _).
  exists pre, loop, n. repeat split; assumption.
Defined.

Lemma one_rectangle_witness :
  exists perms rest,
    fst (main history_env ["out"; "--file"; "index.qmd"] [])
    = ([] ++ perms) ++ rest
    /\ forallb is_permission_query perms = true.
Proof.
  destruct (one_rectangle_for_the_run history_env
              ["out"; "--file"; "index.qmd"] [] _ _ eq_refl)
    as (perms & rest & E & F & _).
  exists perms, rest. split; assumption.
Defined.

Lemma modes_do_not_mix_witness :
  parseArgs calm_env ["out"; "--profile-group"]
  = inr {| outputDir := "/work/out"; inputDir := "/work/.";
           file := None; startCommit := None; copyFile_opt := None;
           profileGroupIndex := Some (Finite 0) |}
  /\ exists new,
       fst (main calm_env ["out"; "--profile-group"] []) = [] ++ new
       /\ Forall (fun ev => is_git_event ev = false) new.
Proof.
  split; [reflexivity|].
  exact (modes_do_not_mix calm_env ["out"; "--profile-group"] _ [] _ _
           eq_refl eq_refl).
Defined.

Lemma refused_permission_witness :
  main no_read_env ["out"; "--profile-group"] []
  = ([PermissionQuery "run"; PermissionQuery "read"], Exited 1).
Proof.
  destruct (refused_permission_ends_the_run no_read_env
              ["out"; "--profile-group"] [])
    as (asked & granted & E & _ & _ & _ & H).
  vm_compute in E. injection E as <- <-.
  exact (proj2 (H eq_refl)).
Defined.

Lemma well_spelt_witness :
  forallb (well_spelt calm_env)
    [OptFile "a.qmd"; OptProfileGroup (Some "1"); OptFile "b.qmd";
     OptCopyFile ""] = true
  /\ parseArgs calm_env
       ["out"; "--file"; "a.qmd"; "--profile-group"; "1"; "--file"; "b.qmd";
        "--copy-file"; ""]
     = inr {| outputDir := "/work/out"; inputDir := "/work/.";
              file := Some "b.qmd"; startCommit := None; copyFile_opt := None;
              profileGroupIndex := Some (Finite 1) |}.
Proof.
  split; [reflexivity|].
  exact (well_spelt_command_line_parses calm_env "out"
           [OptFile "a.qmd"; OptProfileGroup (Some "1"); OptFile "b.qmd";
            OptCopyFile ""] eq_refl).
Defined.

Lemma accepted_command_line_witness :
  exists out ops,
    ["out"; "--input"; "site"; "--profile-group"; "--file"; "i.qmd"]
    = out :: flat_map spell ops
    /\ forallb (well_spelt calm_env) ops = true.
Proof.
  destruct (accepted_command_line_is_options calm_env
              ["out"; "--input"; "site"; "--profile-group"; "--file"; "i.qmd"]
              _ eq_refl) as (out & ops & E & Hw & _).
  exists out, ops. split; assumption.
Defined.

Lemma unknown_flag_witness :
  parseArgs calm_env
    ["out"; "--file"; "a.qmd"; "--profile-group"; "--verbose"; "--input"; "x"]
  = inl (unknown_argument "--verbose").
Proof.
  apply (unknown_flag_is_fatal calm_env "out"
           [OptFile "a.qmd"; OptProfileGroup None] "--verbose" ["--input"; "x"]);
    [reflexivity | reflexivity|].
  simpl. intuition discriminate.
Defined.


(* ================================================================== *)
(** ** More about the selection rectangle *)

Lemma string_forall_append (p : ascii -> bool) (a b : string) :
  string_forall p (a +++ b) = string_forall p a && string_forall p b.
Proof.
  induction a as [|c a IH]; simpl; [reflexivity|].
  now rewrite IH, andb_assoc.
Qed.

Lemma string_forall_impl (p q : ascii -> bool) (s : string) :
  (forall c, p c = true -> q c = true) ->
  string_forall p s = true -> string_forall q s = true.
Proof.
  intros Hpq. induction s as [|c s IH]; simpl; [reflexivity|].
  intros H. apply andb_true_iff in H as [Hc Hs].
  now rewrite (Hpq c Hc), (IH Hs).
Qed.

Lemma drop_while_stops (p : ascii -> bool) (a : string) (c : ascii)
    (b : string) :
  string_forall p a = true -> p c = false ->
  drop_while p (a +++ String c b) = String c b.
Proof.
  intros Ha Hc. induction a as [|x a IH]; simpl in *.
  - now rewrite Hc.
  - apply andb_true_iff in Ha as [Hx Ha]. rewrite Hx. now apply IH.
Qed.

Lemma take_while_stops (p : ascii -> bool) (a : string) (c : ascii)
    (b : string) :
  string_forall p a = true -> p c = false ->
  take_while p (a +++ String c b) = a.
Proof.
  intros Ha Hc. induction a as [|x a IH]; simpl in *.
  - now rewrite Hc.
  - apply andb_true_iff in Ha as [Hx Ha]. rewrite Hx. now rewrite IH.
Qed.

Lemma not_char (p : ascii -> bool) (k c : ascii) :
  p k = false -> p c = true -> negb (Ascii.eqb c k) = true.
Proof.
  intros Hk Hc. destruct (Ascii.eqb_spec c k) as [->|]; [congruence|reflexivity].
Qed.

Module UtilsFacts.
Import Utils.

Lemma numeral_spec (s : string) :
  numeral s = true ->
  exists c r, s = String c r /\ is_coord_char c = true
              /\ string_forall is_coord_char s = true.
Proof.
  unfold numeral. intros H. apply andb_true_iff in H as [Hn Hs].
  destruct s as [|c r]; [discriminate|].
  exists c, r. simpl in Hs. pose proof Hs as Hs'.
  apply andb_true_iff in Hs' as [Hc _]. now repeat split.
Qed.

(** A match cannot start at a character other than the key's first. *)
Lemma coord_here_other (k : ascii) (key : string) (c : ascii) (s : string) :
  negb (Ascii.eqb c k) = true -> coord_here (String k key) (String c s) = None.
Proof.
  intros H. unfold coord_here. simpl.
  rewrite Ascii.eqb_sym. apply negb_true_iff in H. now rewrite H.
Qed.

Lemma coord_here_empty (k : ascii) (key : string) :
  coord_here (String k key) "" = None.
Proof. reflexivity. Qed.

Lemma coordMatch_skip (k : ascii) (key pre s : string) :
  free_of k pre = true ->
  coordMatch (String k key) (pre +++ s) = coordMatch (String k key) s.
Proof.
  unfold free_of. induction pre as [|c pre IH]; simpl; intros H;
    [reflexivity|].
  apply andb_true_iff in H as [Hc Hpre].
  change (coordMatch (String k key) (String c (pre +++ s)))
    with (match coord_here (String k key) (String c (pre +++ s)) with
          | Some num => Some num
          | None => coordMatch (String k key) (pre +++ s)
          end).
  rewrite (coord_here_other _ _ _ _ Hc). now apply IH.
Qed.

Lemma coordMatch_none (k : ascii) (key s : string) :
  free_of k s = true -> coordMatch (String k key) s = None.
Proof.
  intros H. rewrite <- (append_empty_r s).
  rewrite (coordMatch_skip k key s "" H). reflexivity.
Qed.

Lemma coordMatch_here (key s num : string) :
  coord_here key s = Some num -> coordMatch key s = Some num.
Proof.
  intros H. destruct s; unfold coordMatch; fold coordMatch; now rewrite H.
Qed.

Lemma space_not_coord (c : ascii) :
  is_coord_char c = true -> is_space c = false.
Proof.
  unfold is_coord_char, is_space. cbv zeta. intros H.
  apply orb_true_iff in H as [H|H].
  - apply andb_true_iff in H as [H1 H2].
    apply N.leb_le in H1. apply N.leb_le in H2.
    repeat (apply orb_false_iff; split); apply N.eqb_neq; lia.
  - apply N.eqb_eq in H.
    repeat (apply orb_false_iff; split); apply N.eqb_neq; lia.
Qed.

Lemma quote_not_coord (c : ascii) :
  is_coord_char c = true -> Ascii.eqb c dquote = false.
Proof.
  intros H. destruct (Ascii.eqb_spec c dquote) as [->|]; [|reflexivity].
  discriminate H.
Qed.

(** The pattern at the start of an entry takes the entry's number. *)
Lemma coord_here_entry (key ws1 ws2 : string) (q : bool) (num rest : string) :
  string_forall is_space ws1 = true ->
  string_forall is_space ws2 = true ->
  numeral num = true ->
  coord_here key (entry key ws1 ws2 q num +++ rest) = Some num.
Proof.
  intros H1 H2 Hn. destruct (numeral_spec _ Hn) as (c & r & -> & Hc & Hall).
  unfold coord_here, entry.
  rewrite !append_assoc, drop_prefix_append.
  cbn [append].
  rewrite (drop_while_stops is_space ws1 "=" _ H1 eq_refl).
  cbn [Ascii.eqb Bool.eqb].
  destruct q; unfold field; cbn [append].
  - rewrite (drop_while_stops is_space ws2 dquote _ H2 eq_refl).
    cbn [skip_quote]. rewrite Ascii.eqb_refl.
    rewrite append_assoc. cbn [append].
    change (String c (r +++ String dquote (String ";" rest)))
      with (String c r +++ String dquote (String ";" rest)).
    rewrite (take_while_stops is_coord_char (String c r) dquote _ Hall eq_refl).
    reflexivity.
  - rewrite (drop_while_stops is_space ws2 c _ H2 (space_not_coord c Hc)).
    cbn [skip_quote]. rewrite (quote_not_coord c Hc).
    change (String c (r +++ String ";" rest))
      with (String c r +++ String ";" rest).
    rewrite (take_while_stops is_coord_char (String c r) ";" _ Hall eq_refl).
    reflexivity.
Qed.

Lemma free_of_append (k : ascii) (a b : string) :
  free_of k (a +++ b) = free_of k a && free_of k b.
Proof. apply string_forall_append. Qed.

Lemma free_of_spaces (k : ascii) (s : string) :
  is_space k = false -> string_forall is_space s = true -> free_of k s = true.
Proof.
  intros Hk. apply string_forall_impl. intros c. now apply not_char.
Qed.

Lemma free_of_numeral (k : ascii) (s : string) :
  is_coord_char k = false -> numeral s = true -> free_of k s = true.
Proof.
  intros Hk Hn. destruct (numeral_spec _ Hn) as (c & r & -> & _ & Hall).
  revert Hall. apply string_forall_impl. intros a. now apply not_char.
Qed.

(** An entry holds a letter only in its key. *)
Lemma free_of_entry (k : ascii) (key ws1 ws2 : string) (q : bool)
    (num : string) :
  is_space k = false -> is_coord_char k = false ->
  negb (Ascii.eqb "=" k) = true -> negb (Ascii.eqb dquote k) = true ->
  negb (Ascii.eqb ";" k) = true ->
  free_of k key = true ->
  string_forall is_space ws1 = true ->
  string_forall is_space ws2 = true ->
  numeral num = true ->
  free_of k (entry key ws1 ws2 q num) = true.
Proof.
  intros Hs Hc He Hq Hsc Hkey H1 H2 Hn. unfold entry.
  rewrite !free_of_append, Hkey, (free_of_spaces k ws1 Hs H1),
    (free_of_spaces k ws2 Hs H2).
  assert (Hf : free_of k (field q num) = true).
  { destruct q; unfold field; [|now apply free_of_numeral].
    change (String dquote (num +++ String dquote ""))
      with (String dquote "" +++ num +++ String dquote "").
    rewrite !free_of_append, (free_of_numeral k num Hc Hn).
    unfold free_of. cbn [string_forall]. now rewrite Hq. }
  rewrite Hf. unfold free_of. cbn [string_forall]. now rewrite He, Hsc.
Qed.

Lemma neutral_free (s : string) :
  neutral s = true ->
  free_of "H" s = true /\ free_of "W" s = true
  /\ free_of "X" s = true /\ free_of "Y" s = true.
Proof.
  unfold neutral. intros H.
  apply andb_true_iff in H as [H HY].
  apply andb_true_iff in H as [H HX].
  apply andb_true_iff in H as [HH HW]. now repeat split.
Qed.

Section Selection.
Variables opening gap closing ws1 ws2 : string.
Variables qh qw qx qy : bool.
Variables h w x y : string.
Hypothesis Hopening : neutral opening = true.
Hypothesis Hgap : neutral gap = true.
Hypothesis Hws1 : string_forall is_space ws1 = true.
Hypothesis Hws2 : string_forall is_space ws2 = true.
Hypothesis Hh : numeral h = true.
Hypothesis Hw : numeral w = true.
Hypothesis Hx : numeral x = true.
Hypothesis Hy : numeral y = true.

Ltac entry_free :=
  apply free_of_entry; try reflexivity; assumption.

Lemma selection_height : coordMatch "Height"
    (selection_text opening gap closing ws1 ws2 qh qw qx qy h w x y) = Some h.
Proof.
  destruct (neutral_free _ Hopening) as (HH & _).
  unfold selection_text.
  rewrite (coordMatch_skip "H" "eight" opening _ HH).
  apply coordMatch_here. now apply coord_here_entry.
Qed.

Lemma selection_width : coordMatch "Width"
    (selection_text opening gap closing ws1 ws2 qh qw qx qy h w x y) = Some w.
Proof.
  destruct (neutral_free _ Hopening) as (_ & HW & _).
  destruct (neutral_free _ Hgap) as (_ & GW & _).
  unfold selection_text.
  rewrite (coordMatch_skip "W" "idth" opening _ HW).
  rewrite (coordMatch_skip "W" "idth" (entry "Height" ws1 ws2 qh h) _);
    [|entry_free].
  rewrite (coordMatch_skip "W" "idth" gap _ GW).
  apply coordMatch_here. now apply coord_here_entry.
Qed.

Lemma selection_x : coordMatch "X"
    (selection_text opening gap closing ws1 ws2 qh qw qx qy h w x y) = Some x.
Proof.
  destruct (neutral_free _ Hopening) as (_ & _ & HX & _).
  destruct (neutral_free _ Hgap) as (_ & _ & GX & _).
  unfold selection_text.
  rewrite (coordMatch_skip "X" "" opening _ HX).
  rewrite (coordMatch_skip "X" "" (entry "Height" ws1 ws2 qh h) _);
    [|entry_free].
  rewrite (coordMatch_skip "X" "" gap _ GX).
  rewrite (coordMatch_skip "X" "" (entry "Width" ws1 ws2 qw w) _);
    [|entry_free].
  rewrite (coordMatch_skip "X" "" gap _ GX).
  apply coordMatch_here. now apply coord_here_entry.
Qed.

Lemma selection_y : coordMatch "Y"
    (selection_text opening gap closing ws1 ws2 qh qw qx qy h w x y) = Some y.
Proof.
  destruct (neutral_free _ Hopening) as (_ & _ & _ & HY).
  destruct (neutral_free _ Hgap) as (_ & _ & _ & GY).
  unfold selection_text.
  rewrite (coordMatch_skip "Y" "" opening _ HY).
  rewrite (coordMatch_skip "Y" "" (entry "Height" ws1 ws2 qh h) _);
    [|entry_free].
  rewrite (coordMatch_skip "Y" "" gap _ GY).
  rewrite (coordMatch_skip "Y" "" (entry "Width" ws1 ws2 qw w) _);
    [|entry_free].
  rewrite (coordMatch_skip "Y" "" gap _ GY).
  rewrite (coordMatch_skip "Y" "" (entry "X" ws1 ws2 qx x) _);
    [|entry_free].
  rewrite (coordMatch_skip "Y" "" gap _ GY).
  apply coordMatch_here. now apply coord_here_entry.
Qed.

End Selection.

End UtilsFacts.

(** X18 (utils.ts, getLastSelectionRect).  Reading the preference back:
    when the trimmed output of [defaults read] is the four entries Height,
    Width, X, Y in this order - each a key, [=] with any white space around
    it, a number of digits and dots with or without quotes, and [;] - with
    text free of the capitals H, W, X, Y before and between them, the call
    runs that one command and returns the rectangle whose coordinates are
    [parseFloat] of the four numbers, each under its own key. *)
Theorem selection_is_read_back (parseFloat : string -> JsNumber) (env : Env)
    (tr : Trace) (out : CommandOutput)
    (opening gap closing ws1 ws2 : string) (qh qw qx qy : bool)
    (nh nw nx ny : string) :
  Utils.neutral opening = true ->
  Utils.neutral gap = true ->
  string_forall is_space ws1 = true ->
  string_forall is_space ws2 = true ->
  Utils.numeral nh = true -> Utils.numeral nw = true ->
  Utils.numeral nx = true -> Utils.numeral ny = true ->
  output env (tr ++ [Utils.defaults_read]) = inr out ->
  trim (stdout out)
  = Utils.selection_text opening gap closing ws1 ws2 qh qw qx qy nh nw nx ny ->
  Utils.getLastSelectionRect parseFloat env tr
  = (tr ++ [Utils.defaults_read],
     Returned {| x := parseFloat nx;
                 y := parseFloat ny;
                 width := parseFloat nw;
                 height := parseFloat nh |}).
Proof.
  intros Ho Hg H1 H2 Hh Hw Hx Hy Hout Htext.
  unfold Utils.getLastSelectionRect. unfold_m. rewrite Hout. cbv zeta.
  rewrite Htext.
  rewrite (UtilsFacts.selection_x opening gap closing ws1 ws2 qh qw qx qy
             nh nw nx ny Ho Hg H1 H2 Hh Hw Hx).
  rewrite (UtilsFacts.selection_y opening gap closing ws1 ws2 qh qw qx qy
             nh nw nx ny Ho Hg H1 H2 Hh Hw Hx Hy).
  rewrite (UtilsFacts.selection_width opening gap closing ws1 ws2 qh qw qx qy
             nh nw nx ny Ho Hg H1 H2 Hh Hw).
  rewrite (UtilsFacts.selection_height opening gap closing ws1 ws2 qh qw qx qy
             nh nw nx ny Ho H1 H2 Hh).
  reflexivity.
Qed.

(** X19 (utils.ts, getLastSelectionRect).  A missing coordinate: when the
    command answers and one of the capitals X, Y, W, H does not occur in
    its trimmed output, the call throws the parse error wrapped in the
    fixed prefix, whatever the command's success flag and error output
    say. *)
Theorem selection_needs_all_four (parseFloat : string -> JsNumber)
    (env : Env) (tr : Trace) (out : CommandOutput) :
  output env (tr ++ [Utils.defaults_read]) = inr out ->
  Utils.free_of "X" (trim (stdout out)) = true
  \/ Utils.free_of "Y" (trim (stdout out)) = true
  \/ Utils.free_of "W" (trim (stdout out)) = true
  \/ Utils.free_of "H" (trim (stdout out)) = true ->
  Utils.getLastSelectionRect parseFloat env tr
  = (tr ++ [Utils.defaults_read],
     Thrown (Error_ (Utils.selection_failed_prefix
                     +++ Utils.parse_failed_message))).
Proof.
  intros Hout Hfree.
  unfold Utils.getLastSelectionRect. unfold_m. rewrite Hout. cbv zeta.
  destruct Hfree as [F|[F|[F|F]]].
  - rewrite (UtilsFacts.coordMatch_none "X" "" _ F). reflexivity.
  - rewrite (UtilsFacts.coordMatch_none "Y" "" _ F).
    now destruct (Utils.coordMatch "X" (trim (stdout out))).
  - rewrite (UtilsFacts.coordMatch_none "W" "idth" _ F).
    now destruct (Utils.coordMatch "X" (trim (stdout out))),
      (Utils.coordMatch "Y" (trim (stdout out))).
  - rewrite (UtilsFacts.coordMatch_none "H" "eight" _ F).
    now destruct (Utils.coordMatch "X" (trim (stdout out))),
      (Utils.coordMatch "Y" (trim (stdout out))),
      (Utils.coordMatch "Width" (trim (stdout out))).
Qed.

(** X20 (utils.ts, getLastSelectionRect).  Failures are wrapped: the call
    runs one command and then either returns a rectangle or throws a plain
    [Error] whose message is the fixed prefix followed by the message of
    what went wrong - the command's own error, whose name is lost, or the
    parse error.  It neither exits nor hangs. *)
Theorem selection_failures_are_wrapped (parseFloat : string -> JsNumber)
    (env : Env) (tr : Trace) :
  exists o,
    Utils.getLastSelectionRect parseFloat env tr
    = (tr ++ [Utils.defaults_read], o)
    /\ match output env (tr ++ [Utils.defaults_read]) with
       | inl e =>
           o = Thrown (Error_ (Utils.selection_failed_prefix +++ message e))
       | inr _ =>
           (exists r, o = Returned r)
           \/ o = Thrown (Error_ (Utils.selection_failed_prefix
                                  +++ Utils.parse_failed_message))
       end.
Proof.
  unfold Utils.getLastSelectionRect. unfold_m.
  destruct (output env (tr ++ [Utils.defaults_read])) as [e|out] eqn:Hout.
  - eexists. split; reflexivity.
  - cbv zeta.
    destruct (Utils.coordMatch "X" (trim (stdout out))),
      (Utils.coordMatch "Y" (trim (stdout out))),
      (Utils.coordMatch "Width" (trim (stdout out))),
      (Utils.coordMatch "Height" (trim (stdout out)));
    (eexists; split; [reflexivity|]);
    first [left; eexists; reflexivity | right; reflexivity].
Qed.

Lemma selection_read_back_witness :
  Utils.getLastSelectionRect sample_parseFloat selection_env []
  = ([Utils.defaults_read],
     Returned {| x := Finite 4590; y := Finite (270625 # 1000);
                 width := Finite 1394; height := Finite (169175 # 100) |}).
Proof.
  exact (selection_is_read_back sample_parseFloat selection_env []
           {| success := true;
              stdout := sample_selection +++ String "010" "" |}
           "{" " " "}" " " " " true false false true
           "1691.75" "1394" "4590" "270.625"
           eq_refl eq_refl eq_refl eq_refl eq_refl eq_refl eq_refl eq_refl
           eq_refl eq_refl).
Defined.

Lemma selection_needs_all_four_witness :
  Utils.getLastSelectionRect sample_parseFloat no_selection_env []
  = ([Utils.defaults_read],
     Thrown (Error_ "Failed to get screen capture selection: Failed to parse screen capture selection coordinates")).
Proof.
  exact (selection_needs_all_four sample_parseFloat no_selection_env []
           {| success := false; stdout := "" |} eq_refl
           (or_introl eq_refl)).
Defined.

(* ================================================================== *)
(** ** More about the profile groups *)

Module YamlFacts.
Import Yaml.

Lemma as_index_nat (q : Q) (i : nat) :
  (q == inject_Z (Z.of_nat i))%Q -> as_index q = Some i.
Proof.
  unfold Qeq, as_index. simpl. rewrite Z.mul_1_r. intros H. rewrite H.
  assert (Hnn : (0 <=? Z.of_nat i * Z.pos (Qden q))%Z = true)
    by (apply Z.leb_le; nia).
  rewrite Hnn, Z.mod_mul, Z.div_mul by discriminate.
  simpl. now rewrite Nat2Z.id.
Qed.

Lemma as_index_spec (q : Q) (i : nat) :
  as_index q = Some i -> (q == inject_Z (Z.of_nat i))%Q.
Proof.
  unfold as_index, Qeq. simpl. rewrite Z.mul_1_r.
  destruct (0 <=? Qnum q)%Z eqn:H0; [|discriminate].
  destruct (Qnum q mod Z.pos (Qden q) =? 0)%Z eqn:Hm; [|discriminate].
  simpl. intros [= <-].
  apply Z.leb_le in H0. apply Z.eqb_eq in Hm.
  rewrite Z2Nat.id by (apply Z.div_pos; lia).
  pose proof (Z.div_mod (Qnum q) (Z.pos (Qden q))) as D.
  rewrite Hm in D. specialize (D ltac:(discriminate)). lia.
Qed.

(** An index below the length is not out of range. *)
Lemma js_ge_below (q : Q) (i len : nat) :
  (q == inject_Z (Z.of_nat i))%Q -> (i < len)%nat ->
  js_ge (Finite q) len = false.
Proof.
  intros Hq Hi. unfold js_ge.
  destruct (Qle_bool (inject_Z (Z.of_nat len)) q) eqn:E; [|reflexivity].
  apply Qle_bool_iff in E. rewrite Hq in E.
  rewrite <- Zle_Qle in E. lia.
Qed.

Lemma js_ge_above (q : Q) (i len : nat) :
  (q == inject_Z (Z.of_nat i))%Q -> js_ge (Finite q) len = false ->
  (i < len)%nat.
Proof.
  intros Hq E. unfold js_ge in E.
  destruct (Nat.lt_ge_cases i len) as [|Hge]; [assumption|].
  assert (Qle_bool (inject_Z (Z.of_nat len)) q = true); [|congruence].
  apply Qle_bool_iff. rewrite Hq. rewrite <- Zle_Qle. lia.
Qed.

Lemma has_groups_profile_group (quartoConfig : Value) (groups : list Value) :
  has_groups quartoConfig groups ->
  profile_group quartoConfig = inr (Seq groups).
Proof.
  intros (entries & pe & -> & Hp & Hg).
  unfold profile_group, get. simpl. rewrite Hp. simpl. now rewrite Hg.
Qed.

Lemma profile_group_has_groups (quartoConfig : Value) (groups : list Value) :
  profile_group quartoConfig = inr (Seq groups) ->
  has_groups quartoConfig groups.
Proof.
  unfold profile_group, has_groups.
  destruct quartoConfig as [| |b|n|s|items|entries|shown]; simpl;
    try discriminate.
  destruct (lookup "profile" entries) as [profile|] eqn:Hp;
    simpl; [|discriminate].
  destruct profile as [| |b|n|s|items|pe|shown]; simpl; try discriminate.
  destruct (lookup "group" pe) as [g|] eqn:Hg; [|discriminate].
  intros [= ->]. now exists entries, pe.
Qed.

Section WithRuntime.
Variable js_String : JsNumber -> string.
Variable object_String : Value -> JsError + string.

Lemma map_to_String_names (names : list string) :
  map_result (to_String js_String object_String) (map Str names) = inr names.
Proof.
  induction names as [|n names IH]; simpl; [reflexivity|]. now rewrite IH.
Qed.

Lemma map_result_length {A B} (f : A -> JsError + B) (l : list A)
    (r : list B) :
  map_result f l = inr r -> length r = length l.
Proof.
  revert r. induction l as [|a l IH]; simpl; intros r H.
  - now injection H as <-.
  - destruct (f a); [discriminate|].
    destruct (map_result f l); [discriminate|].
    injection H as <-. simpl. now rewrite (IH _ eq_refl).
Qed.

End WithRuntime.

Lemma selects_default (groupIndex : option JsNumber) (i : nat) :
  selects groupIndex i ->
  exists q,
    match groupIndex with Some n => n | None => Finite 0 end = Finite q
    /\ (q == inject_Z (Z.of_nat i))%Q.
Proof.
  destruct groupIndex as [[| | |q]|]; simpl; try contradiction.
  - intros H. now exists q.
  - intros ->. exists 0%Q. split; reflexivity.
Qed.

End YamlFacts.

(** X21 (yaml.ts, getProfilesFromGroup).  Reading a group back: when
    [_quarto.yml] in the input directory parses to a configuration that
    holds a list of groups under [profile.group], the index names a
    position of that list (an omitted index names position 0), and the
    group there is a non-empty list of strings, the call returns exactly
    those strings in their order. *)
Theorem profiles_are_read_back
    (readTextFile : string -> JsError + string)
    (parse : string -> JsError + Yaml.Value)
    (js_String : JsNumber -> string)
    (object_String : Yaml.Value -> JsError + string)
    (inputDir : string) (groupIndex : option JsNumber)
    (content : string) (quartoConfig : Yaml.Value)
    (groups : list Yaml.Value) (i : nat) (names : list string) :
  readTextFile (inputDir +++ "/_quarto.yml") = inr content ->
  parse content = inr quartoConfig ->
  Yaml.has_groups quartoConfig groups ->
  Yaml.selects groupIndex i ->
  nth_error groups i = Some (Yaml.Seq (map Yaml.Str names)) ->
  names <> [] ->
  Yaml.getProfilesFromGroup readTextFile parse js_String object_String
    inputDir groupIndex
  = inr names.
Proof.
  intros Hread Hparse Hgroups Hsel Hnth Hne.
  destruct (YamlFacts.selects_default _ _ Hsel) as (q & Hidx & Hq).
  assert (Hlt : (i < length groups)%nat)
    by (apply nth_error_Some; congruence).
  unfold Yaml.getProfilesFromGroup, Yaml.read_profiles.
  rewrite Hidx, Hread, Hparse,
    (YamlFacts.has_groups_profile_group _ _ Hgroups).
  cbn [Yaml.truthy_value negb].
  rewrite (YamlFacts.js_ge_below q i _ Hq Hlt).
  unfold Yaml.get_index. rewrite (YamlFacts.as_index_nat q i Hq).
  rewrite (nth_error_nth _ _ _ Hnth).
  rewrite YamlFacts.map_to_String_names.
  destruct names as [|n names]; [contradiction|reflexivity].
Qed.

(** X22 (yaml.ts, getProfilesFromGroup).  What a result is: whenever the
    call returns, the file was read and parsed, the configuration holds a
    list of groups under [profile.group], the index names a position of
    that list, the group there is a non-empty list, and the result is
    [String] of its entries, one name for each entry in order: a returned
    list is never empty. *)
Theorem returned_profiles_are_a_group
    (readTextFile : string -> JsError + string)
    (parse : string -> JsError + Yaml.Value)
    (js_String : JsNumber -> string)
    (object_String : Yaml.Value -> JsError + string)
    (inputDir : string) (groupIndex : option JsNumber)
    (names : list string) :
  Yaml.getProfilesFromGroup readTextFile parse js_String object_String
    inputDir groupIndex
  = inr names ->
  exists content quartoConfig groups i group,
    readTextFile (inputDir +++ "/_quarto.yml") = inr content
    /\ parse content = inr quartoConfig
    /\ Yaml.has_groups quartoConfig groups
    /\ Yaml.selects groupIndex i
    /\ nth_error groups i = Some (Yaml.Seq group)
    /\ Yaml.map_result (Yaml.to_String js_String object_String) group
       = inr names
    /\ length names = length group
    /\ names <> [].
Proof.
  unfold Yaml.getProfilesFromGroup, Yaml.read_profiles.
  set (idx := match groupIndex with Some n => n | None => Finite 0 end).
  destruct (readTextFile (inputDir +++ "/_quarto.yml")) as [e|content] eqn:Hr.
  { now destruct (name e =? "NotFound")%string. }
  destruct (parse content) as [e|quartoConfig] eqn:Hp.
  { now destruct (name e =? "NotFound")%string. }
  destruct (Yaml.profile_group quartoConfig) as [e|group0] eqn:Hg.
  { now destruct (name e =? "NotFound")%string. }
  destruct (negb (Yaml.truthy_value group0)); [discriminate|].
  destruct group0 as [| |b|n|s|groups|entries|shown]; try discriminate.
  destruct (Yaml.js_ge idx (length groups)) eqn:Hge; [discriminate|].
  destruct (Yaml.get_index groups idx) as [| |b|n|s|group|entries|shown]
    eqn:Hi; try discriminate.
  destruct group as [|g group']; [discriminate|].
  set (group := g :: group') in *.
  destruct (Yaml.map_result _ group) as [e|r] eqn:Hm.
  { now destruct (name e =? "NotFound")%string. }
  intros [= <-].
  assert (Hsel : exists i, Yaml.selects groupIndex i
                           /\ nth_error groups i = Some (Yaml.Seq group)).
  { unfold Yaml.get_index in Hi.
    destruct idx as [| | |q] eqn:Hidx; try discriminate.
    destruct (Yaml.as_index q) as [i|] eqn:Ha; [|discriminate].
    exists i. pose proof (YamlFacts.as_index_spec q i Ha) as Hq. split.
    - subst idx. destruct groupIndex as [n|].
      + subst n. exact Hq.
      + injection Hidx as <-. unfold Qeq in Hq. simpl in Hq.
        unfold Yaml.selects. lia.
    - pose proof (YamlFacts.js_ge_above q i _ Hq Hge) as Hlt.
      rewrite (nth_error_nth' groups Yaml.Undefined Hlt). now rewrite Hi. }
  destruct Hsel as (i & Hsel & Hnth).
  exists content, quartoConfig, groups, i, group.
  pose proof (YamlFacts.map_result_length _ _ _ Hm) as Hlen.
  repeat (split; [first [reflexivity | assumption
                        | now apply YamlFacts.profile_group_has_groups]|]).
  intros ->. discriminate Hlen.
Qed.

(** X23 (yaml.ts, getProfilesFromGroup).  An index that names no group:
    when the configuration holds a list of groups and the index names no
    position of it, the call throws one of two errors.  An index that is at
    least the length, infinity included, gives the out-of-range message
    with the index and the last position; any other such index - negative,
    fractional, not a number - gives [Selected profile group is not an
    array]. *)
Theorem index_outside_the_groups
    (readTextFile : string -> JsError + string)
    (parse : string -> JsError + Yaml.Value)
    (js_String : JsNumber -> string)
    (object_String : Yaml.Value -> JsError + string)
    (inputDir : string) (groupIndex : JsNumber)
    (content : string) (quartoConfig : Yaml.Value)
    (groups : list Yaml.Value) :
  readTextFile (inputDir +++ "/_quarto.yml") = inr content ->
  parse content = inr quartoConfig ->
  Yaml.has_groups quartoConfig groups ->
  (forall i, Yaml.selects (Some groupIndex) i -> (length groups <= i)%nat) ->
  Yaml.getProfilesFromGroup readTextFile parse js_String object_String
    inputDir (Some groupIndex)
  = inl (Error_
           (if Yaml.js_ge groupIndex (length groups)
            then Yaml.out_of_range_message js_String groupIndex
                   (length groups)
            else "Selected profile group is not an array")).
Proof.
  intros Hread Hparse Hgroups Hnone.
  unfold Yaml.getProfilesFromGroup, Yaml.read_profiles.
  rewrite Hread, Hparse, (YamlFacts.has_groups_profile_group _ _ Hgroups).
  cbn [Yaml.truthy_value negb].
  destruct (Yaml.js_ge groupIndex (length groups)) eqn:Hge; [reflexivity|].
  assert (Hi : Yaml.get_index groups groupIndex = Yaml.Undefined).
  { unfold Yaml.get_index. destruct groupIndex as [| | |q]; try reflexivity.
    destruct (Yaml.as_index q) as [i|] eqn:Ha; [|reflexivity].
    pose proof (YamlFacts.as_index_spec q i Ha) as Hq.
    pose proof (YamlFacts.js_ge_above q i _ Hq Hge).
    specialize (Hnone i Hq). lia. }
  rewrite Hi. reflexivity.
Qed.

(* ================================================================== *)
(** ** More about the history *)

Module GitFacts.

Lemma split_on_nonempty (sep : ascii) (s : string) : Git.split_on sep s <> [].
Proof.
  destruct s as [|c s]; simpl; [discriminate|].
  destruct (Ascii.eqb c sep); [discriminate|].
  destruct (Git.split_on sep s); discriminate.
Qed.

Lemma split_on_free (sep : ascii) (s : string) :
  Utils.free_of sep s = true -> Git.split_on sep s = [s].
Proof.
  unfold Utils.free_of. induction s as [|c s IH]; simpl; [reflexivity|].
  intros H. apply andb_true_iff in H as [Hc Hs].
  apply negb_true_iff in Hc. now rewrite Hc, (IH Hs).
Qed.

Lemma split_on_append (sep : ascii) (a b : string) :
  Utils.free_of sep a = true ->
  Git.split_on sep (a +++ String sep b) = a :: Git.split_on sep b.
Proof.
  unfold Utils.free_of. induction a as [|c a IH]; simpl.
  - now rewrite Ascii.eqb_refl.
  - intros H. apply andb_true_iff in H as [Hc Ha].
    apply negb_true_iff in Hc. now rewrite Hc, (IH Ha).
Qed.

Lemma split_join_lines (lines : list string) :
  lines <> [] ->
  forallb (Utils.free_of Git.newline) lines = true ->
  Git.split_on Git.newline (Git.join_lines lines) = lines.
Proof.
  induction lines as [|l lines IH]; [contradiction|].
  intros _ H. simpl in H. apply andb_true_iff in H as [Hl Hs].
  destruct lines as [|l' lines].
  - simpl. now apply split_on_free.
  - change (Git.join_lines (l :: l' :: lines))
      with (l +++ String Git.newline (Git.join_lines (l' :: lines))).
    rewrite (split_on_append _ _ _ Hl). f_equal.
    apply IH; [discriminate | exact Hs].
Qed.

Lemma plain_field_spec (s : string) :
  Git.plain_field s = true ->
  Utils.free_of "|" s = true /\ Utils.free_of Git.newline s = true.
Proof. unfold Git.plain_field. intros H. now apply andb_true_iff in H. Qed.

Lemma plain_entry_spec (h s an ad : string) :
  Git.plain_entry (h, s, an, ad) = true ->
  Git.plain_field h = true /\ Git.plain_field s = true
  /\ Git.plain_field an = true /\ Git.plain_field ad = true.
Proof.
  unfold Git.plain_entry. intros H.
  apply andb_true_iff in H as [H Hd].
  apply andb_true_iff in H as [H Ha].
  apply andb_true_iff in H as [Hh Hs]. now repeat split.
Qed.

Lemma parse_log_line (c : string * string * string * string) :
  Git.plain_entry c = true -> Git.parse_line (Git.log_line c) = Git.commit_of c.
Proof.
  destruct c as [[[h s] an] ad]. intros H.
  destruct (plain_entry_spec _ _ _ _ H) as (Hh & Hs & Ha & Hd).
  apply plain_field_spec in Hh as [Hh _]. apply plain_field_spec in Hs as [Hs _].
  apply plain_field_spec in Ha as [Ha _]. apply plain_field_spec in Hd as [Hd _].
  unfold Git.parse_line, Git.log_line, Git.commit_of.
  change (h +++ "|" +++ s +++ "|" +++ an +++ "|" +++ ad)
    with (h +++ String "|" (s +++ String "|" (an +++ String "|" ad))).
  rewrite (split_on_append _ _ _ Hh), (split_on_append _ _ _ Hs),
    (split_on_append _ _ _ Ha), (split_on_free _ _ Hd).
  reflexivity.
Qed.

Lemma log_line_one_line (c : string * string * string * string) :
  Git.plain_entry c = true ->
  Utils.free_of Git.newline (Git.log_line c) = true.
Proof.
  destruct c as [[[h s] an] ad]. intros H.
  destruct (plain_entry_spec _ _ _ _ H) as (Hh & Hs & Ha & Hd).
  apply plain_field_spec in Hh as [_ Hh]. apply plain_field_spec in Hs as [_ Hs].
  apply plain_field_spec in Ha as [_ Ha]. apply plain_field_spec in Hd as [_ Hd].
  unfold Git.log_line.
  rewrite !UtilsFacts.free_of_append, Hh, Hs, Ha, Hd. reflexivity.
Qed.

Lemma parse_log_lines (entries : list (string * string * string * string)) :
  forallb Git.plain_entry entries = true ->
  map Git.parse_line (map Git.log_line entries) = map Git.commit_of entries
  /\ forallb (Utils.free_of Git.newline) (map Git.log_line entries) = true.
Proof.
  induction entries as [|c entries IH]; simpl; [now split|].
  intros H. apply andb_true_iff in H as [Hc Hs].
  destruct (IH Hs) as [IH1 IH2].
  now rewrite (parse_log_line c Hc), IH1, (log_line_one_line c Hc), IH2.
Qed.

End GitFacts.

(** X24 (git.ts, getGitHistory).  Reading the log back: when both changes
    of directory succeed and the trimmed output of [git log] is one line
    for each commit, newest first, each line the four fields joined by
    bars, no field holding a bar or a line break, the call returns those
    commits with all four fields, oldest first, and leaves the process in
    the directory that the change back gave. *)
Theorem history_is_read_back
    (chdir : string -> string -> JsError + string)
    (git : string -> list string -> JsError + string)
    (repoDir : string) (startCommit : option string) (cwd cwd1 cwd2 : string)
    (c : string) (stdout : string)
    (entries : list (string * string * string * string)) :
  chdir cwd repoDir = inr cwd1 ->
  Git.start_commit git cwd1 startCommit = inr c ->
  git cwd1 (Git.log_args c) = inr stdout ->
  chdir cwd1 cwd = inr cwd2 ->
  entries <> [] ->
  forallb Git.plain_entry entries = true ->
  trim stdout = Git.join_lines (map Git.log_line entries) ->
  Git.getGitHistory chdir git repoDir startCommit cwd
  = (cwd2, inr (rev (map Git.commit_of entries))).
Proof.
  intros Hin Hstart Hlog Hback Hne Hplain Hout.
  unfold Git.getGitHistory. rewrite Hin, Hstart, Hlog, Hback. cbv zeta.
  rewrite Hout.
  destruct (GitFacts.parse_log_lines entries Hplain) as [Hparse Hlines].
  rewrite GitFacts.split_join_lines, Hparse; [reflexivity | | exact Hlines].
  destruct entries; [contradiction|discriminate].
Qed.

(** X25 (git.ts, getGitHistory).  A history is never empty: whenever the
    call returns, the list has as many commits as the trimmed output of
    [git log] has lines, at least one; and when that output is blank - as
    it is when [git log] fails, for its exit status is not looked at - the
    list is one commit with the empty hash and no other field. *)
Theorem history_is_never_empty
    (chdir : string -> string -> JsError + string)
    (git : string -> list string -> JsError + string)
    (repoDir : string) (startCommit : option string) (cwd cwd' : string)
    (commits : list Git.GitCommit) :
  Git.getGitHistory chdir git repoDir startCommit cwd = (cwd', inr commits) ->
  commits <> []
  /\ exists cwd1 c stdout,
       chdir cwd repoDir = inr cwd1
       /\ Git.start_commit git cwd1 startCommit = inr c
       /\ git cwd1 (Git.log_args c) = inr stdout
       /\ chdir cwd1 cwd = inr cwd'
       /\ length commits = length (Git.split_on Git.newline (trim stdout))
       /\ (trim stdout = "" ->
           commits = [{| Git.hash := ""; Git.message := None;
                         Git.author := None; Git.date := None |}]).
Proof.
  unfold Git.getGitHistory.
  destruct (chdir cwd repoDir) as [e|cwd1] eqn:Hin; [discriminate|].
  destruct (Git.start_commit git cwd1 startCommit) as [e|c] eqn:Hstart;
    [discriminate|].
  destruct (git cwd1 (Git.log_args c)) as [e|stdout] eqn:Hlog; [discriminate|].
  cbv zeta.
  destruct (chdir cwd1 cwd) as [e|cwd2] eqn:Hback; [discriminate|].
  intros [= <- <-]. split.
  - intros H. apply (f_equal (@length _)) in H.
    rewrite length_rev, length_map in H.
    destruct (Git.split_on Git.newline (trim stdout)) eqn:E; [|discriminate].
    now apply GitFacts.split_on_nonempty in E.
  - exists cwd1, c, stdout. repeat (split; [reflexivity || assumption|]).
    split; [now rewrite length_rev, length_map|].
    intros ->. reflexivity.
Qed.


(* ================================================================== *)
(** ** More about the slides *)

Lemma drop_prefix_none (p s : string) :
  String.prefix p s = false -> drop_prefix p s = None.
Proof.
  revert s. induction p as [|a p IH]; intros s;
    [destruct s; discriminate|].
  destruct s as [|b s]; [reflexivity|]. simpl.
  destruct (ascii_dec a b) as [->|Hab].
  - rewrite Ascii.eqb_refl. apply IH.
  - intros _. destruct (Ascii.eqb_spec a b); [contradiction|reflexivity].
Qed.

Lemma prefix_empty (s : string) : String.prefix "" s = true.
Proof. now destruct s. Qed.

Lemma prefix_cons (a : ascii) (p : string) (b : ascii) (s : string) :
  String.prefix (String a p) (String b s)
  = if Ascii.eqb a b then String.prefix p s else false.
Proof.
  cbn [String.prefix].
  destruct (ascii_dec a b) as [->|Hab].
  - now rewrite Ascii.eqb_refl.
  - destruct (Ascii.eqb_spec a b); [contradiction|reflexivity].
Qed.

Lemma drop_while_head (p : ascii -> bool) (s : string) (c : ascii)
    (rest : string) :
  drop_while p s = String c rest -> p c = false.
Proof.
  induction s as [|a s IH]; simpl; [discriminate|].
  destruct (p a) eqn:E; [exact IH|]. now intros [= <- _].
Qed.

Lemma length_append (a b : string) :
  String.length (a +++ b) = (String.length a + String.length b)%nat.
Proof. induction a as [|c a IH]; simpl; [reflexivity | now rewrite IH]. Qed.

Lemma includes_tail (needle : string) (c : ascii) (s : string) :
  includes needle (String c s) = false ->
  String.prefix needle (String c s) = false /\ includes needle s = false.
Proof.
  unfold includes; fold includes. intros H. now apply orb_false_iff in H.
Qed.

Module SlidesFacts.
Import Slides.

(** A match is the placeholder text, with a key that is not empty and
    holds no closing brace. *)
Lemma placeholder_here_spec (s key rest : string) :
  placeholder_here s = Some (key, rest) ->
  s = "${" +++ key +++ "}" +++ rest
  /\ key <> "" /\ string_forall not_brace key = true.
Proof.
  unfold placeholder_here.
  destruct (drop_prefix "${" s) as [r|] eqn:Hp; [|discriminate].
  apply drop_prefix_spec in Hp.
  destruct (drop_while not_brace r) as [|c rest'] eqn:Hd; [discriminate|].
  destruct (take_while not_brace r =? "")%string eqn:Hk; [discriminate|].
  intros [= <- <-]. split; [|split].
  - rewrite Hp. f_equal.
    pose proof (drop_while_head _ _ _ _ Hd) as Hc.
    unfold not_brace in Hc. apply negb_false_iff in Hc.
    apply Ascii.eqb_eq in Hc. subst c.
    rewrite (take_drop_while not_brace r) at 1. now rewrite Hd.
  - intros E. rewrite E in Hk. discriminate.
  - apply take_while_forall.
Qed.

Lemma placeholder_here_found (key rest : string) :
  key <> "" -> string_forall not_brace key = true ->
  placeholder_here ("${" +++ key +++ "}" +++ rest) = Some (key, rest).
Proof.
  intros Hne Hkey. unfold placeholder_here.
  rewrite drop_prefix_append.
  change (key +++ "}" +++ rest) with (key +++ String "}" rest).
  rewrite (take_while_stops not_brace key "}" rest Hkey eq_refl),
    (drop_while_stops not_brace key "}" rest Hkey eq_refl).
  destruct key; [contradiction|reflexivity].
Qed.

Lemma placeholder_here_shorter (s key rest : string) :
  placeholder_here s = Some (key, rest) ->
  (String.length rest < String.length s)%nat.
Proof.
  intros H. destruct (placeholder_here_spec _ _ _ H) as (-> & _ & _).
  rewrite !length_append. simpl. lia.
Qed.

Section WithRuntime.
Variable inherited : string -> option string.
Variable basename : string -> string.
Variable variables : list (string * string).

(** Any fuel that covers the text gives the same result. *)
Lemma replace_all_fuel (n m : nat) (s : string) :
  (String.length s <= n)%nat -> (String.length s <= m)%nat ->
  replace_all inherited n variables s = replace_all inherited m variables s.
Proof.
  revert m s. induction n as [|n IH]; intros m s Hn Hm.
  - destruct s; [|simpl in Hn; lia]. destruct m; reflexivity.
  - destruct m as [|m].
    + destruct s; [reflexivity | simpl in Hm; lia].
    + simpl. destruct (placeholder_here s) as [[key rest]|] eqn:Hp.
      * pose proof (placeholder_here_shorter _ _ _ Hp).
        f_equal. apply IH; lia.
      * destruct s as [|c s]; [reflexivity|].
        simpl in Hn, Hm. f_equal. apply IH; lia.
Qed.

Lemma replace_all_step (n : nat) (s key rest : string) :
  placeholder_here s = Some (key, rest) ->
  replace_all inherited (S n) variables s
  = variable_text inherited variables key
    +++ replace_all inherited n variables rest.
Proof. intros H. cbn [replace_all]. now rewrite H. Qed.

Lemma replace_all_plain (n : nat) (s : string) :
  includes "${" s = false -> replace_all inherited n variables s = s.
Proof.
  revert s. induction n as [|n IH]; intros s H; [reflexivity|].
  simpl. destruct s as [|c s]; [reflexivity|].
  apply includes_tail in H as [Hp Hs].
  unfold placeholder_here. rewrite (drop_prefix_none _ _ Hp).
  now rewrite (IH s Hs).
Qed.

(** Text before the first placeholder is copied. *)
Lemma replace_all_before (pre rest : string) (n : nat) :
  includes "${" pre = false ->
  replace_all inherited (String.length pre + n) variables
    (pre +++ String "$" rest)
  = pre +++ replace_all inherited n variables (String "$" rest).
Proof.
  induction pre as [|c pre IH]; intros H; [reflexivity|].
  apply includes_tail in H as [Hp Hs].
  cbn [String.length Nat.add append replace_all].
  assert (Hnone : placeholder_here (String c (pre +++ String "$" rest)) = None).
  { unfold placeholder_here. rewrite drop_prefix_none; [reflexivity|].
    rewrite prefix_cons in *.
    destruct (Ascii.eqb "$" c); [|reflexivity].
    destruct pre as [|b pre]; cbn [append]; rewrite prefix_cons in *.
    - reflexivity.
    - rewrite prefix_empty in *. exact Hp. }
  rewrite Hnone. now rewrite (IH Hs).
Qed.

Lemma slides_loop_joined (templateContent : string) (total i : nat)
    (rest : list SlideInfo) (slidesContent : string) :
  (i + length rest = total)%nat ->
  slides_loop inherited basename templateContent total i rest slidesContent
  = slidesContent +++ joined inherited basename templateContent rest.
Proof.
  revert i slidesContent.
  induction rest as [|slide rest IH]; intros i acc Hi.
  - simpl. now rewrite append_empty_r.
  - cbn [slides_loop]. cbv zeta. simpl in Hi.
    destruct rest as [|slide' rest]; simpl in Hi.
    + assert (E : (i <? total - 1)%nat = false) by (apply Nat.ltb_ge; lia).
      rewrite E. reflexivity.
    + assert (E : (i <? total - 1)%nat = true)
        by (apply Nat.ltb_lt; simpl in Hi; lia).
      rewrite E. rewrite IH by (simpl in *; lia).
      cbn [joined]. unfold slide_text. now rewrite !append_assoc.
Qed.

End WithRuntime.

End SlidesFacts.

(** X27 (slides.ts, renderTemplate).  A template in which [${] does not
    occur is rendered as itself, whatever the variables are. *)
Theorem template_without_placeholders (inherited : string -> option string)
    (template : string) (variables : list (string * string)) :
  includes "${" template = false ->
  Slides.renderTemplate inherited template variables = template.
Proof.
  intros H. unfold Slides.renderTemplate.
  now apply SlidesFacts.replace_all_plain.
Qed.

(** X28 (slides.ts, renderTemplate).  The first placeholder: the text
    before it is kept, the placeholder - [${], a key that is not empty and
    holds no closing brace, [}] - is replaced by the text of the variable
    of that name, by nothing when there is no such variable, and what
    follows is rendered in the same way on its own.  The text put in is not
    read again for placeholders. *)
Theorem first_placeholder_is_replaced (inherited : string -> option string)
    (variables : list (string * string)) (pre key post : string) :
  includes "${" pre = false ->
  key <> "" ->
  string_forall Slides.not_brace key = true ->
  Slides.renderTemplate inherited
    (pre +++ "${" +++ key +++ "}" +++ post) variables
  = pre +++ Slides.variable_text inherited variables key
    +++ Slides.renderTemplate inherited post variables.
Proof.
  intros Hpre Hne Hkey. unfold Slides.renderTemplate.
  rewrite length_append.
  change ("${" +++ key +++ "}" +++ post)
    with (String "$" (String "{" (key +++ "}" +++ post))).
  rewrite (SlidesFacts.replace_all_before inherited variables pre _ _ Hpre).
  f_equal.
  change (String "$" (String "{" (key +++ "}" +++ post)))
    with ("${" +++ key +++ "}" +++ post).
  set (text := "${" +++ key +++ "}" +++ post).
  rewrite (SlidesFacts.replace_all_fuel inherited variables
             (String.length text) (S (String.length text)) text)
    by lia.
  rewrite (SlidesFacts.replace_all_step inherited variables _ text key post
             (SlidesFacts.placeholder_here_found key post Hne Hkey)).
  f_equal. apply SlidesFacts.replace_all_fuel; [|lia].
  unfold text. rewrite !length_append. lia.
Qed.

(** X29 (slides.ts, SlideGenerator.generateSlides).  The document is the
    slides in the order they were added, each the rendered template and a
    blank line, with the separator between two slides: none before the
    first, none after the last, and no slides give the empty document. *)
Theorem slides_are_joined_by_separators (inherited : string -> option string)
    (basename : string -> string) (templateContent : string)
    (slides : list Slides.SlideInfo) :
  Slides.slides_content inherited basename templateContent slides
  = Slides.joined inherited basename templateContent slides.
Proof.
  unfold Slides.slides_content.
  now rewrite SlidesFacts.slides_loop_joined.
Qed.

Lemma profiles_read_back_witness :
  Yaml.getProfilesFromGroup sample_readTextFile sample_parse
    (js_String calm_env) sample_object_String "/work/site"
    (Some (Finite 1))
  = inr ["draft"; "final"].
Proof.
  apply (profiles_are_read_back sample_readTextFile sample_parse
           (js_String calm_env) sample_object_String "/work/site"
           (Some (Finite 1)) "project: {type: website}" sample_config
           [Yaml.Seq [Yaml.Str "light"; Yaml.Str "dark"];
            Yaml.Seq [Yaml.Str "draft"; Yaml.Str "final"]]
           1%nat ["draft"; "final"]).
  - reflexivity.
  - reflexivity.
  - eexists _, _. repeat split; reflexivity.
  - reflexivity.
  - reflexivity.
  - discriminate.
Defined.

Lemma returned_profiles_witness :
  exists content quartoConfig groups i group,
    sample_readTextFile ("/work/site" +++ "/_quarto.yml") = inr content
    /\ sample_parse content = inr quartoConfig
    /\ Yaml.has_groups quartoConfig groups
    /\ Yaml.selects None i
    /\ nth_error groups i = Some (Yaml.Seq group)
    /\ Yaml.map_result
         (Yaml.to_String (js_String calm_env) sample_object_String) group
       = inr ["light"; "dark"]
    /\ length ["light"; "dark"] = length group
    /\ ["light"; "dark"] <> [].
Proof.
  exact (returned_profiles_are_a_group sample_readTextFile sample_parse
           (js_String calm_env) sample_object_String "/work/site" None
           ["light"; "dark"] eq_refl).
Defined.

Lemma index_outside_witness :
  Yaml.getProfilesFromGroup sample_readTextFile sample_parse
    (js_String calm_env) sample_object_String "/work/site"
    (Some (Finite (-1)))
  = inl (Error_ "Selected profile group is not an array").
Proof.
  apply (index_outside_the_groups sample_readTextFile sample_parse
           (js_String calm_env) sample_object_String "/work/site"
           (Finite (-1)) "project: {type: website}" sample_config
           [Yaml.Seq [Yaml.Str "light"; Yaml.Str "dark"];
            Yaml.Seq [Yaml.Str "draft"; Yaml.Str "final"]]).
  - reflexivity.
  - reflexivity.
  - eexists _, _. repeat split; reflexivity.
  - intros i H. unfold Yaml.selects, Qeq in H. simpl in H. lia.
Defined.

Lemma history_read_back_witness :
  Git.getGitHistory sample_chdir sample_git "/work/site" None "/work"
  = ("/work",
     inr [{| Git.hash := "a1b2c3d"; Git.message := Some "Initial commit";
             Git.author := Some "Bob"; Git.date := Some "Mon Mar 4" |};
          {| Git.hash := "b2c3d4e"; Git.message := Some "Add dark theme";
             Git.author := Some "Ann"; Git.date := Some "Tue Mar 5" |}]).
Proof.
  apply (history_is_read_back sample_chdir sample_git "/work/site" None
           "/work" "/work/site" "/work" "a1b2c3d" sample_log sample_entries).
  - reflexivity.
  - reflexivity.
  - reflexivity.
  - reflexivity.
  - discriminate.
  - reflexivity.
  - reflexivity.
Defined.

Lemma history_never_empty_witness :
  [{| Git.hash := ""; Git.message := None;
      Git.author := None; Git.date := None |}] <> []
  /\ exists cwd1 c stdout,
       sample_chdir "/work" "/work/site" = inr cwd1
       /\ Git.start_commit silent_git cwd1 (Some "a1b2c3d") = inr c
       /\ silent_git cwd1 (Git.log_args c) = inr stdout
       /\ sample_chdir cwd1 "/work" = inr "/work"
       /\ length [{| Git.hash := ""; Git.message := None;
                     Git.author := None; Git.date := None |}]
          = length (Git.split_on Git.newline (trim stdout))
       /\ (trim stdout = "" ->
           [{| Git.hash := ""; Git.message := None;
               Git.author := None; Git.date := None |}]
           = [{| Git.hash := ""; Git.message := None;
                 Git.author := None; Git.date := None |}]).
Proof.
  exact (history_is_never_empty sample_chdir silent_git "/work/site"
           (Some "a1b2c3d") "/work" "/work"
           [{| Git.hash := ""; Git.message := None;
               Git.author := None; Git.date := None |}] eq_refl).
Defined.


Lemma template_without_placeholders_witness :
  Slides.renderTemplate no_inherited "## Overview of $HOME" sample_variables
  = "## Overview of $HOME".
Proof.
  apply (template_without_placeholders no_inherited "## Overview of $HOME"
           sample_variables).
  reflexivity.
Defined.

Lemma first_placeholder_witness :
  Slides.renderTemplate no_inherited
    ("## " +++ "${" +++ "itemId" +++ "}" +++ ": ${screenshot}${file}")
    sample_variables
  = "## " +++ Slides.variable_text no_inherited sample_variables "itemId"
    +++ Slides.renderTemplate no_inherited ": ${screenshot}${file}"
          sample_variables.
Proof.
  apply (first_placeholder_is_replaced no_inherited sample_variables
           "## " "itemId" ": ${screenshot}${file}").
  - reflexivity.
  - discriminate.
  - reflexivity.
Defined.
